(** * Remote-control RPC layer and target-resolution engine

    A shallow embedding of the two CDP scripts of the repository,
    [src/js/1-newchat-opener.js] (the new-chat opener) and
    [src/2-chat-injector.js] (the chat injector), and the properties of
    their multiplexer, geometry selector, strategy chain, retry loop,
    verifier and injected script; of the search for the tab both scripts
    start with; and of the batching of the dialogue extractor that shares
    the file of the injector. *)

From Stdlib Require Import ZArith QArith Qround Qminmax List String Ascii Bool Lia.
From Stdlib Require Import Sorted Lqa DecimalString.
Import ListNotations.

Set Warnings "-register-all".

Open Scope string_scope.
Open Scope Z_scope.

(** ** JavaScript values

    The values the scripts receive from [JSON.parse] and build as result
    objects.  Numbers are rationals (floating-point rounding is not
    modelled); an object is its list of fields, the first binding of a
    key being the one a property read sees. *)

Inductive jsval : Type :=
| JUndefined
| JNull
| JBool (b : bool)
| JNum (q : Q)
| JStr (s : string)
| JArr (items : list jsval)
| JObj (fields : list (string * jsval)).

(** ToBoolean. *)
Definition truthy (v : jsval) : bool :=
  match v with
  | JUndefined | JNull => false
  | JBool b => b
  | JNum q => negb (Qeq_bool q 0)
  | JStr s => negb (String.eqb s "")
  | JArr _ | JObj _ => true
  end.

Fixpoint assoc (k : string) (fs : list (string * jsval)) : jsval :=
  match fs with
  | [] => JUndefined
  | (k', v) :: rest => if String.eqb k' k then v else assoc k rest
  end.

Definition num_of_nat (n : nat) : jsval := JNum (inject_Z (Z.of_nat n)).

(** [v?.k]: a data property of [v], [undefined] when [v] is nullish or has
    no such property. *)
Definition opt_get (v : jsval) (k : string) : jsval :=
  match v with
  | JObj fs => assoc k fs
  | JArr l => if String.eqb k "length" then num_of_nat (List.length l) else JUndefined
  | JStr s => if String.eqb k "length" then num_of_nat (String.length s) else JUndefined
  | _ => JUndefined
  end.

Notation "v ?. k" := (opt_get v k) (at level 1, k at level 0, left associativity, format "v ?. k").

(** [a || b] *)
Definition js_or (a b : jsval) : jsval := if truthy a then a else b.
Infix "||!" := js_or (at level 51, right associativity).

Definition typeof_number (v : jsval) : bool :=
  match v with JNum _ => true | _ => false end.

Definition typeof_string (v : jsval) : bool :=
  match v with JStr _ => true | _ => false end.

(** [v === s] and [v !== undefined] for the two comparisons the scripts make. *)
Definition strict_eq_str (v : jsval) (s : string) : bool :=
  match v with JStr s' => String.eqb s' s | _ => false end.

Definition is_undefined (v : jsval) : bool :=
  match v with JUndefined => true | _ => false end.

(** The object literals the scripts build. *)
Definition obj (fs : list (string * jsval)) : jsval := JObj fs.
Definition jint (z : Z) : jsval := JNum (inject_Z z).

(** ** The RPC multiplexer [cdp(ws)]

    The state of one [cdp(ws)] closure: the counter [id], the table [map]
    (a JS [Map], kept in insertion order), the timers created by
    [setTimeout], and the promises handed to callers.  A promise is
    identified by the value [id] had when its call was issued; the
    [resolve]/[reject] closures stored in an entry or captured by a timer
    are represented by that number. *)

Module Mux.

Inductive settlement : Type :=
| Resolve (d : jsval)
| Reject (reason : string).

Inductive timer_state : Type := Armed | Cleared | Fired.

(** A timer created by [setTimeout] in [call]: its callback closes over the
    caller's [reject] ([t_owner]) and [method], and over the shared [id]
    and [map] of the enclosing [cdp]. *)
Record timer : Type := {
  t_owner : Z;
  t_method : string;
  t_delay : Z;
  t_state : timer_state
}.

(** [{ resolve, reject, tid, method }] *)
Record pending_call : Type := {
  pc_owner : Z;
  pc_tid : option Z;
  pc_method : string
}.

Record mux : Type := {
  id : Z;
  map : list (Z * pending_call);
  timers : list (Z * timer);
  issued : list Z;
  callbacks : list (Z * settlement);
  sent : list jsval;
  console : list string
}.

Definition init : mux :=
  {| id := 0; map := []; timers := []; issued := []; callbacks := [];
     sent := []; console := [] |}.

(** What arrives on the socket: text that [JSON.parse] rejects, or a value. *)
Inductive ws_message : Type :=
| Unparsable (raw : string)
| Parsed (d : jsval).

Inductive send_result : Type :=
| Sent
| SendThrows (message : string).

(** What can happen to a multiplexer: a caller invokes the returned
    function, the socket emits a frame, an error or its close, a timer
    comes due. *)
Inductive event : Type :=
| Invoke (method : string) (params : jsval) (timeout : option Z) (send : send_result)
| Message (m : ws_message)
| WsError (message : string)
| WsClose
| TimerFires (tid : Z).

(** *** Map and timer primitives *)

Definition key_is (q : Q) (entry : Z * pending_call) : bool :=
  Qeq_bool (inject_Z (fst entry)) q.

(** [map.has(k)] for a number [k] *)
Definition map_has (m : list (Z * pending_call)) (q : Q) : bool :=
  existsb (key_is q) m.

(** [map.get(k)] *)
Definition map_get (m : list (Z * pending_call)) (q : Q) : option pending_call :=
  option_map snd (find (key_is q) m).

(** [map.delete(k)] *)
Definition map_delete (m : list (Z * pending_call)) (q : Q) : list (Z * pending_call) :=
  filter (fun e => negb (key_is q e)) m.

(** [map.set(k, v)] for a key that is an integer *)
Definition map_set (m : list (Z * pending_call)) (k : Z) (v : pending_call)
  : list (Z * pending_call) :=
  if map_has m (inject_Z k)
  then List.map (fun e => if key_is (inject_Z k) e then (fst e, v) else e) m
  else (m ++ [(k, v)])%list.

Definition timer_lookup (ts : list (Z * timer)) (tid : Z) : option timer :=
  option_map snd (find (fun e => fst e =? tid) ts).

Definition set_timer_state (s : timer_state) (tid : Z) (ts : list (Z * timer))
  : list (Z * timer) :=
  List.map (fun e =>
              if fst e =? tid
              then (fst e, {| t_owner := t_owner (snd e); t_method := t_method (snd e);
                              t_delay := t_delay (snd e); t_state := s |})
              else e) ts.

(** [clearTimeout(tid)]: a timer that already ran is left as it is. *)
Definition clearTimeout (tid : Z) (ts : list (Z * timer)) : list (Z * timer) :=
  match timer_lookup ts tid with
  | Some t => match t_state t with
              | Armed => set_timer_state Cleared tid ts
              | _ => ts
              end
  | None => ts
  end.

Definition with_map (st : mux) (m : list (Z * pending_call)) : mux :=
  {| id := id st; map := m; timers := timers st; issued := issued st;
     callbacks := callbacks st; sent := sent st; console := console st |}.

Definition with_timers (st : mux) (ts : list (Z * timer)) : mux :=
  {| id := id st; map := map st; timers := ts; issued := issued st;
     callbacks := callbacks st; sent := sent st; console := console st |}.

Definition log (st : mux) (line : string) : mux :=
  {| id := id st; map := map st; timers := timers st; issued := issued st;
     callbacks := callbacks st; sent := sent st; console := (console st ++ [line])%list |}.

(** Invoking the [resolve] or [reject] closure of promise [k]. *)
Definition invoke_callback (st : mux) (k : Z) (s : settlement) : mux :=
  {| id := id st; map := map st; timers := timers st; issued := issued st;
     callbacks := (callbacks st ++ [(k, s)])%list; sent := sent st; console := console st |}.

(** A promise keeps the first settlement it is given; later invocations of
    its [resolve]/[reject] have no effect. *)
Definition promise_state (st : mux) (k : Z) : option settlement :=
  option_map snd (find (fun e => fst e =? k) (callbacks st)).

Definition is_pending (st : mux) (k : Z) : bool :=
  existsb (Z.eqb k) (issued st) &&
  match promise_state st k with None => true | Some _ => false end.

Definition clear_tid (tid : option Z) (st : mux) : mux :=
  match tid with
  | Some t => with_timers st (clearTimeout t (timers st))
  | None => st
  end.

(** The body of the timer callback, the same text in both scripts up to the
    message:
    [if (map.has(id)) { map.delete(id); reject(new Error(...)) }].
    [id] is the variable of the enclosing [cdp], read when the timer runs. *)
Definition timeout_callback (reason : string -> string) (st : mux) (t : timer) : mux :=
  if map_has (map st) (inject_Z (id st))
  then invoke_callback (with_map st (map_delete (map st) (inject_Z (id st))))
                       (t_owner t) (Reject (reason (t_method t)))
  else st.

Definition on_timer (reason : string -> string) (st : mux) (tid : Z) : mux :=
  match timer_lookup (timers st) tid with
  | Some t =>
      match t_state t with
      | Armed => timeout_callback reason (with_timers st (set_timer_state Fired tid (timers st))) t
      | _ => st
      end
  | None => st
  end.

Definition request (k : Z) (method : string) (params : jsval) : jsval :=
  obj [("id", jint k); ("method", JStr method); ("params", params)].

(** *** The multiplexer of the new-chat opener
    ([src/js/1-newchat-opener.js], [cdp], lines 99-152) *)

Module Opener.
Section Cdp.

(** [CDP_TIMEOUT_MS], read from the environment when the script starts. *)
Variable CDP_TIMEOUT_MS : Z.

Definition timeout_reason (method : string) : string := "cdp timeout for " ++ method.

(** [typeof d.error.message === 'string' ? d.error.message : 'cdp error'] *)
Definition error_reason (err : jsval) : string :=
  match err?."message" with
  | JStr s => s
  | _ => "cdp error"
  end.

(** [ws.on('message', m => ...)] *)
Definition on_message (st : mux) (m : ws_message) : mux :=
  match m with
  | Unparsable raw =>
      log (log st "Error parsing CDP message:") ("Raw message: " ++ raw)
  | Parsed d =>
      match (if truthy d then d?."id" else JUndefined) with
      | JNum k =>
          match map_get (map st) k with
          | Some entry =>
              let st := with_map st (map_delete (map st) k) in
              let st := clear_tid (pc_tid entry) st in
              if truthy d?."error"
              then invoke_callback st (pc_owner entry) (Reject (error_reason d?."error"))
              else invoke_callback st (pc_owner entry) (Resolve d)
          | None => st
          end
      | _ => st
      end
  end.

(** The loop shared by the error and close handlers:
    [for (const [key, v] of map.entries()) { if (v.tid) clearTimeout(v.tid);
       v.reject(new Error(reason)); map.delete(key) }] *)
Definition reject_all (reason : string) (st : mux) : mux :=
  fold_left
    (fun st e =>
       let st := clear_tid (pc_tid (snd e)) st in
       let st := invoke_callback st (pc_owner (snd e)) (Reject reason) in
       with_map st (map_delete (map st) (inject_Z (fst e))))
    (map st) st.

(** [ws.on('error', err => ...)] *)
Definition on_error (st : mux) (message : string) : mux :=
  reject_all "ws error" (log st ("WebSocket error in CDP: " ++ message)).

(** [ws.on('close', () => ...)] *)
Definition on_close (st : mux) : mux :=
  reject_all "ws closed" (log st "WebSocket connection closed").

(** The function [cdp] returns: [async (method, params, options) => ...].
    The promise it returns is the one numbered with the new [id]. *)
Definition call (st : mux) (method : string) (params : jsval)
           (timeout : option Z) (send : send_result) : mux :=
  let k := id st + 1 in
  let st := {| id := k; map := map st; timers := timers st;
               issued := (issued st ++ [k])%list; callbacks := callbacks st;
               sent := sent st; console := console st |} in
  match send with
  | SendThrows message =>
      invoke_callback st k (Reject ("Failed to send CDP message: " ++ message))
  | Sent =>
      let to := match timeout with Some t => t | None => CDP_TIMEOUT_MS end in
      {| id := k;
         map := map_set (map st) k {| pc_owner := k; pc_tid := Some k; pc_method := method |};
         timers := (timers st ++ [(k, {| t_owner := k; t_method := method;
                                         t_delay := to; t_state := Armed |})])%list;
         issued := issued st; callbacks := callbacks st;
         sent := (sent st ++ [request k method params])%list; console := console st |}
  end.

Definition step (st : mux) (ev : event) : mux :=
  match ev with
  | Invoke method params timeout send => call st method params timeout send
  | Message m => on_message st m
  | WsError message => on_error st message
  | WsClose => on_close st
  | TimerFires tid => on_timer timeout_reason st tid
  end.

(** [cdp(ws)] followed by the given events, in order. *)
Definition cdp (events : list event) : mux := fold_left step events init.

End Cdp.
End Opener.

(** *** The multiplexer of the chat injector
    ([src/2-chat-injector.js], [cdp], lines 131-157) *)

Module Injector.

Definition timeout_reason (_ : string) : string := "cdp timeout".

(** [ws.on('message', m => ...)]; a parse error is swallowed by the empty
    [catch]. *)
Definition on_message (st : mux) (m : ws_message) : mux :=
  match m with
  | Unparsable _ => st
  | Parsed d =>
      match (if truthy d then d?."id" else JUndefined) with
      | JNum k =>
          match map_get (map st) k with
          | Some entry =>
              let st := with_map st (map_delete (map st) k) in
              invoke_callback st (pc_owner entry) (Resolve d)
          | None => st
          end
      | _ => st
      end
  end.

(** [async (method, params) => ...]; the timer always waits 30000 ms and
    its handle is not kept. *)
Definition call (st : mux) (method : string) (params : jsval) (send : send_result) : mux :=
  let k := id st + 1 in
  let st := {| id := k; map := map st; timers := timers st;
               issued := (issued st ++ [k])%list; callbacks := callbacks st;
               sent := sent st; console := console st |} in
  match send with
  | SendThrows message => invoke_callback st k (Reject message)
  | Sent =>
      {| id := k;
         map := map_set (map st) k {| pc_owner := k; pc_tid := None; pc_method := method |};
         timers := (timers st ++ [(k, {| t_owner := k; t_method := method;
                                         t_delay := 30000; t_state := Armed |})])%list;
         issued := issued st; callbacks := callbacks st;
         sent := (sent st ++ [request k method params])%list; console := console st |}
  end.

(** This [cdp] registers a listener for ['message'] only: the socket's
    ['error'] and ['close'] events reach no code of the multiplexer. *)
Definition step (st : mux) (ev : event) : mux :=
  match ev with
  | Invoke method params _ send => call st method params send
  | Message m => on_message st m
  | WsError _ => st
  | WsClose => st
  | TimerFires tid => on_timer timeout_reason st tid
  end.

Definition cdp (events : list event) : mux := fold_left step events init.

End Injector.

(** Frames as the remote endpoint sends them. *)
Definition no_params : jsval := obj [].
Definition reply_frame (k : Z) (result : jsval) : jsval := obj [("id", jint k); ("result", result)].
Definition error_frame (k : Z) (message : string) : jsval :=
  obj [("id", jint k); ("error", obj [("code", jint (-32000)); ("message", JStr message)])].

End Mux.

(** ** Programs that talk to the page

    The [async] functions of the opener suspend at each [await]; what they
    are resumed with is decided outside the script.  A program is the tree
    of those requests: every [await call(...)], every [Date.now()], every
    timer wait and every console line is a node, and the continuation
    takes the answer. *)

Module Script.

Inductive error : Type :=
| JsError (message : string)
| OutOfFuel.

(** How an awaited [call(...)] ends: the promise of the multiplexer is
    resolved with a frame or rejected with a reason. *)
Inductive reply : Type :=
| Resolved (d : jsval)
| Rejected (reason : string).

(** What [DOM.getBoxModel] resolves with, read at the type the protocol
    gives it: each of [bm.model.content], [bm.model.border] and
    [bm.model.margin] is absent or an array of numbers. *)
Record box_model : Type := {
  content : option (list Q);
  border : option (list Q);
  margin : option (list Q)
}.

Inductive box_reply : Type :=
| BoxResolved (bm : box_model)
| BoxRejected (reason : string).

(** The lines of [main] written to the console. *)
Inductive console_line : Type :=
| LogEnabling            (* 'Enabling CDP domains...' *)
| LogAttempting          (* 'Attempting to click ... button...' *)
| LogAttempt (n : Z)     (* `Attempt ${attempt + 1}/5` *)
| LogTimeoutReached      (* 'Timeout reached' *)
| LogVerifying           (* 'Verifying if new chat is already open...' *)
| LogFallback            (* 'Using fallback click method...' *)
| LogResult (r : jsval)  (* 'Result:', r *)
| LogMainError (message : string).

Inductive request : Type -> Type :=
| Call (method : string) (params : jsval) (timeout : option Z) : request reply
| GetBoxModel (backendNodeId : jsval) : request box_reply
| Now : request Z
| Sleep (ms : Z) : request unit
| Log (line : console_line) : request unit
| CloseSocket : request unit.

Inductive prog (A : Type) : Type :=
| Ret (a : A)
| Throw (e : error)
| Vis (X : Type) (rq : request X) (k : X -> prog A).

Arguments Ret {A} a.
Arguments Throw {A} e.
Arguments Vis {A X} rq k.

Fixpoint bind {A B : Type} (p : prog A) (f : A -> prog B) : prog B :=
  match p with
  | Ret a => f a
  | Throw e => Throw e
  | Vis rq k => Vis rq (fun x => bind (k x) f)
  end.

(** [try { p } catch { h }] *)
Fixpoint try_catch {A : Type} (p : prog A) (h : error -> prog A) : prog A :=
  match p with
  | Ret a => Ret a
  | Throw OutOfFuel => Throw OutOfFuel
  | Throw e => h e
  | Vis rq k => Vis rq (fun x => try_catch (k x) h)
  end.

Declare Scope prog_scope.
Delimit Scope prog_scope with prog.
Notation "x <- p ;; q" := (bind p (fun x => q))
  (at level 61, p at next level, right associativity) : prog_scope.
Notation "p ;; q" := (bind p (fun _ => q))
  (at level 61, right associativity) : prog_scope.
Open Scope prog_scope.

Definition lift {A : Type} (r : error + A) : prog A :=
  match r with
  | inl e => Throw e
  | inr a => Ret a
  end.

(** [await call(method, params, options)] *)
Definition call (method : string) (params : jsval) (timeout : option Z) : prog jsval :=
  Vis (Call method params timeout)
      (fun r => match r with
                | Resolved d => Ret d
                | Rejected reason => Throw (JsError reason)
                end).

(** [await call('DOM.getBoxModel', { backendNodeId: bid })] *)
Definition getBoxModel (bid : jsval) : prog box_model :=
  Vis (GetBoxModel bid)
      (fun r => match r with
                | BoxResolved bm => Ret bm
                | BoxRejected reason => Throw (JsError reason)
                end).

Definition now : prog Z := Vis Now Ret.

(** *** Running a program

    The environment answers each request and moves on; the run records the
    requests with their answers, in order. *)

Inductive observed : Type :=
| OCall (method : string) (params : jsval) (timeout : option Z) (r : reply)
| OBox (backendNodeId : jsval) (r : box_reply)
| ONow (t : Z)
| OSleep (ms : Z)
| OLog (line : console_line)
| OClose.

Definition observe {X : Type} (rq : request X) : X -> observed :=
  match rq in request X return X -> observed with
  | Call method params timeout => fun r => OCall method params timeout r
  | GetBoxModel bid => fun r => OBox bid r
  | Now => fun t => ONow t
  | Sleep ms => fun _ => OSleep ms
  | Log line => fun _ => OLog line
  | CloseSocket => fun _ => OClose
  end.

Inductive outcome (A : Type) : Type :=
| Returned (a : A)
| Thrown (e : error).

Arguments Returned {A} a.
Arguments Thrown {A} e.

Definition trace : Type := list observed.

Section Run.

Variable World : Type.
Variable answer : forall X : Type, request X -> World -> X * World.

Fixpoint run {A : Type} (p : prog A) (w : World) : trace * outcome A * World :=
  match p with
  | Ret a => ([], Returned a, w)
  | Throw e => ([], Thrown e, w)
  | Vis rq k =>
      let '(x, w1) := answer _ rq w in
      let '(tr, o, w2) := run (k x) w1 in
      (observe rq x :: tr, o, w2)
  end.

End Run.

(** An environment given by the answers it will make, in order; a request
    that finds no answer of its kind is answered by a rejection, the clock
    by 0. *)
Inductive scripted : Type :=
| Answer (r : reply)
| AnswerBox (r : box_reply)
| Clock (t : Z).

Definition replay (X : Type) (rq : request X) (w : list scripted) : X * list scripted :=
  match rq in request X return X * list scripted with
  | Call _ _ _ =>
      match w with
      | Answer r :: w' => (r, w')
      | _ => (Rejected "no answer", w)
      end
  | GetBoxModel _ =>
      match w with
      | AnswerBox r :: w' => (r, w')
      | _ => (BoxRejected "no answer", w)
      end
  | Now =>
      match w with
      | Clock t :: w' => (t, w')
      | _ => (0, w)
      end
  | Sleep _ => (tt, w)
  | Log _ => (tt, w)
  | CloseSocket => (tt, w)
  end.

End Script.

(** ** More of JavaScript: strings, iteration, property reads that throw *)

(** [hay.includes(needle)] on strings *)
Fixpoint str_includes (needle hay : string) : bool :=
  if String.prefix needle hay then true
  else match hay with
       | EmptyString => false
       | String _ rest => str_includes needle rest
       end.

Definition type_error (what : string) : Script.error := Script.JsError ("TypeError: " ++ what).

(** [v.k] *)
Definition get (v : jsval) (k : string) : Script.error + jsval :=
  match v with
  | JUndefined | JNull => inl (type_error ("Cannot read properties of nullish value, reading " ++ k))
  | _ => inr v?.k
  end.

(** [v.includes(needle)]: the method of strings and of arrays; other values
    have none. *)
Definition js_includes (v : jsval) (needle : string) : Script.error + bool :=
  match v with
  | JStr s => inr (str_includes needle s)
  | JArr l => inr (existsb (fun x => strict_eq_str x needle) l)
  | _ => inl (type_error "includes is not a function")
  end.

(** The values [for (const x of v)] visits.  A string yields its
    characters (here: its bytes, one-character strings). *)
Definition iterate (v : jsval) : Script.error + list jsval :=
  match v with
  | JArr l => inr l
  | JStr s => inr (List.map (fun c => JStr (String c EmptyString)) (list_ascii_of_string s))
  | _ => inl (type_error "value is not iterable")
  end.

(** The receiver of [v.filter(...)] and [v.map(...)] *)
Definition as_array (v : jsval) : Script.error + list jsval :=
  match v with
  | JArr l => inr l
  | _ => inl (type_error "filter is not a function")
  end.

Fixpoint jsize (v : jsval) : nat :=
  match v with
  | JArr l => S ((fix sum (l : list jsval) : nat :=
                    match l with
                    | [] => O
                    | x :: r => (jsize x + sum r)%nat
                    end) l)
  | JObj fs => S ((fix sum (fs : list (string * jsval)) : nat :=
                     match fs with
                     | [] => O
                     | (_, x) :: r => (jsize x + sum r)%nat
                     end) fs)
  | JStr s => S (String.length s)
  | _ => 1%nat
  end.

Definition Qltb (a b : Q) : bool := negb (Qle_bool b a).

(** [Math.round] *)
Definition Math_round (x : Q) : Z := Qfloor (x + (1 # 2)).

(** ** The new-chat opener ([src/js/1-newchat-opener.js]) *)

Module NewChat.
Import Script.

Definition failure : jsval := obj [("ok", JBool false)].

(** [{ bid, cx, cy, area }] and [{ bid, cx, cy }] of [pickNode] *)
Record candidate : Type := {
  c_bid : jsval;
  c_cx : Q;
  c_cy : Q;
  c_area : Q
}.

Record picked : Type := {
  bid : jsval;
  cx : Z;
  cy : Z
}.

(** [bm?.model?.content || bm?.model?.border || bm?.model?.margin]; an
    array is truthy whatever its length. *)
Definition quad_of (bm : box_model) : option (list Q) :=
  match content bm with
  | Some q => Some q
  | None => match border bm with
            | Some q => Some q
            | None => margin bm
            end
  end.

Definition at_ (q : list Q) (i : nat) : Q := nth i q 0%Q.

Definition min4 (a b c d : Q) : Q := Qmin (Qmin (Qmin a b) c) d.
Definition max4 (a b c d : Q) : Q := Qmax (Qmax (Qmax a b) c) d.

Definition quad_width (q : list Q) : Q :=
  Qmax 0 (max4 (at_ q 0) (at_ q 2) (at_ q 4) (at_ q 6)
          - min4 (at_ q 0) (at_ q 2) (at_ q 4) (at_ q 6)).

Definition quad_height (q : list Q) : Q :=
  Qmax 0 (max4 (at_ q 1) (at_ q 3) (at_ q 5) (at_ q 7)
          - min4 (at_ q 1) (at_ q 3) (at_ q 5) (at_ q 7)).

(** [width * height], and [(q[0] + q[2] + q[4] + q[6]) / 4] with its
    counterpart for [y]. *)
Definition quad_area (q : list Q) : Q := (quad_width q * quad_height q)%Q.
Definition quad_cx (q : list Q) : Q := ((at_ q 0 + at_ q 2 + at_ q 4 + at_ q 6) / 4)%Q.
Definition quad_cy (q : list Q) : Q := ((at_ q 1 + at_ q 3 + at_ q 5 + at_ q 7) / 4)%Q.

Definition candidate_of (b : jsval) (q : list Q) : candidate :=
  {| c_bid := b; c_cx := quad_cx q; c_cy := quad_cy q; c_area := quad_area q |}.

(** One turn of the loop of [pickNode], after the box model has arrived:
    the new value of [best]. *)
Definition consider (best : option candidate) (b : jsval) (bm : box_model)
  : option candidate :=
  match quad_of bm with
  | None => best
  | Some q =>
      if (List.length q <? 8)%nat then best
      else if Qltb (quad_width q) 1 || Qltb (quad_height q) 1 then best
      else match best with
           | None => Some (candidate_of b q)
           | Some old =>
               if Qltb (c_area old) (quad_area q)
               then Some (candidate_of b q)
               else best
           end
  end.

Fixpoint pickNode_from (best : option candidate) (backendIds : list jsval)
  : prog (option candidate) :=
  match backendIds with
  | [] => Ret best
  | b :: rest =>
      bm <- getBoxModel b ;;
      pickNode_from (consider best b bm) rest
  end.

Definition pickNode (backendIds : list jsval) : prog (option picked) :=
  best <- pickNode_from None backendIds ;;
  match best with
  | None => Ret None
  | Some best =>
      Ret (Some {| bid := c_bid best;
                   cx := Math_round (c_cx best);
                   cy := Math_round (c_cy best) |})
  end.

(** The texts handed to the page.  The program only passes them on; they
    are named here and not spelled out. *)
Definition node_text_function : string := "function(){ return (this.innerText||this.textContent||'') }".
Definition node_click_function : string := "function(){ this.scrollIntoView({block:'center',inline:'center'}); this.click() }".
Definition click_expression (via : string) : string := "(() => { /* find by text, click */ via: '" ++ via ++ "' })()".

Definition dispatchMouseEvent (type : string) (x y : jsval) : prog jsval :=
  call "Input.dispatchMouseEvent"
       (obj [("type", JStr type); ("x", x); ("y", y);
             ("button", JStr "left"); ("clickCount", jint 1)])
       None.

Definition clicked (p : picked) (via : string) : jsval :=
  obj [("ok", JBool true); ("backendNodeId", bid p);
       ("x", jint (cx p)); ("y", jint (cy p)); ("via", JStr via)].

Section Opener.

(** The constants [main] reads from the environment. *)
Variable AX_NAME : string.
Variable AX_ROLE : string.
Variable MAX_TOTAL_MS : Z.
Variable AX_TIMEOUT_MS : Z.
Variable FRAME_TIMEOUT_MS : Z.

(** The body of the loop over [nodes] in [clickByAX]: what is pushed to
    [cands], if anything. *)
Definition ax_candidate (n : jsval) : error + option (jsval * jsval) :=
  let role := n?."role"?."value" ||! JStr "" in
  let name := n?."name"?."value" ||! JStr "" in
  let b := n?."backendDOMNodeId" in
  let nid := n?."nodeId" in
  if negb (truthy (b ||! nid)) then inr None
  else if truthy name then
    match js_includes name AX_NAME with
    | inl e => inl e
    | inr true => if strict_eq_str role AX_ROLE then inr (Some (b, nid)) else inr None
    | inr false => inr None
    end
  else inr None.

Fixpoint ax_candidates (nodes : list jsval) : error + list (jsval * jsval) :=
  match nodes with
  | [] => inr []
  | n :: rest =>
      match ax_candidate n with
      | inl e => inl e
      | inr c =>
          match ax_candidates rest with
          | inl e => inl e
          | inr cs => inr (match c with Some c => c :: cs | None => cs end)
          end
      end
  end.

(** Lines 193-207 of [clickByAX]: the click on the node that was picked. *)
Definition clickByAX_picked (picked : picked) : prog jsval :=
  native <- try_catch
    (rn <- call "DOM.resolveNode" (obj [("backendNodeId", bid picked)]) None ;;
     let oid := rn?."object"?."objectId" in
     if truthy oid then
       txt <- call "Runtime.callFunctionOn"
                   (obj [("objectId", oid);
                         ("functionDeclaration", JStr node_text_function);
                         ("returnByValue", JBool true)]) None ;;
       let val := txt?."result"?."result"?."value" ||! JStr "" in
       found <- lift (js_includes val AX_NAME) ;;
       if (found : bool) then
         call "Runtime.callFunctionOn"
              (obj [("objectId", oid);
                    ("functionDeclaration", JStr node_click_function);
                    ("awaitPromise", JBool true)]) None ;;
         Ret (Some (clicked picked "callFunctionOn"))
       else Ret None
     else Ret None)
    (fun _ => Ret None) ;;
  match native with
  | Some r => Ret r
  | None =>
      dispatchMouseEvent "mousePressed" (jint (cx picked)) (jint (cy picked)) ;;
      dispatchMouseEvent "mouseReleased" (jint (cx picked)) (jint (cy picked)) ;;
      Ret (clicked picked "dispatchMouseEvent")
  end.

Definition clickByAX : prog jsval :=
  ax <- call "Accessibility.getFullAXTree" (obj []) (Some AX_TIMEOUT_MS) ;;
  nodes <- lift (iterate (ax?."nodes" ||! JArr [])) ;;
  cands <- lift (ax_candidates nodes) ;;
  let bids := filter truthy (List.map fst cands) in
  picked <- (if (List.length bids =? 0)%nat then Ret None else pickNode bids) ;;
  match picked with
  | None => Ret failure
  | Some picked => clickByAX_picked picked
  end.

Definition clickByDOM : prog jsval :=
  r <- call "Runtime.evaluate"
            (obj [("expression", JStr (click_expression "runtime"));
                  ("awaitPromise", JBool true); ("returnByValue", JBool true)]) None ;;
  let v := r?."result"?."result"?."value" in
  if negb (truthy v) || negb (truthy v?."ok") then Ret failure
  else Ret v.

(** The [while (stack.length)] loop of [clickByFrames].  The stack is
    kept with its top first: [stack.pop()] takes the head, and pushing
    the children in order leaves the last child on top. *)
Fixpoint collect_frames (fuel : nat) (stack frames : list jsval) : error + list jsval :=
  match stack with
  | [] => inr frames
  | n :: stack =>
      match fuel with
      | O => inl OutOfFuel
      | S fuel =>
          let frames := if truthy n?."frame"?."id"
                        then (frames ++ [n?."frame"?."id"])%list else frames in
          match iterate (n?."childFrames" ||! JArr []) with
          | inl e => inl e
          | inr ch => collect_frames fuel (rev ch ++ stack)%list frames
          end
      end
  end.

(** [for (const fid of frames) { try { ... if (v && v.ok) return v } catch {} }] *)
Fixpoint try_frames (frames : list jsval) : prog jsval :=
  match frames with
  | [] => Ret failure
  | fid :: rest =>
      found <- try_catch
        (iw <- call "Page.createIsolatedWorld"
                    (obj [("frameId", fid); ("worldName", JStr "newchat");
                          ("grantUniveralAccess", JBool true)])
                    (Some FRAME_TIMEOUT_MS) ;;
         rv <- call "Runtime.evaluate"
                    (obj [("expression", JStr (click_expression "frame"));
                          ("awaitPromise", JBool true); ("returnByValue", JBool true);
                          ("contextId", iw?."executionContextId")]) None ;;
         let v := rv?."result"?."result"?."value" in
         if truthy v && truthy v?."ok" then Ret (Some v) else Ret None)
        (fun _ => Ret None) ;;
      match found with
      | Some v => Ret v
      | None => try_frames rest
      end
  end.

Definition clickByFrames : prog jsval :=
  ft <- call "Page.getFrameTree" (obj []) None ;;
  let stack := filter truthy [ft?."frameTree"] in
  frames <- lift (collect_frames (S (jsize ft)) stack []) ;;
  try_frames frames.

(** [filtered.map(n => n.backendDOMNodeId || null)] *)
Fixpoint backend_ids (filtered : list jsval) : error + list jsval :=
  match filtered with
  | [] => inr []
  | n :: rest =>
      match get n "backendDOMNodeId" with
      | inl e => inl e
      | inr b =>
          match backend_ids rest with
          | inl e => inl e
          | inr bs => inr ((b ||! JNull) :: bs)
          end
      end
  end.

Definition clickByAXQuery : prog jsval :=
  doc <- call "DOM.getDocument" (obj [("depth", jint 0)]) None ;;
  let nid := doc?."root"?."nodeId" in
  if negb (truthy nid) then Ret failure
  else
    try_catch
      (q <- call "Accessibility.queryAXTree"
                 (obj [("nodeId", nid); ("accessibleName", JStr AX_NAME)])
                 (Some AX_TIMEOUT_MS) ;;
       arr <- lift (as_array (q?."nodes" ||! JArr [])) ;;
       let filtered :=
         filter (fun n => strict_eq_str (n?."role"?."value" ||! JStr "") AX_ROLE) arr in
       bids <- lift (backend_ids filtered) ;;
       let bids := filter truthy bids in
       if (List.length bids =? 0)%nat then Ret failure
       else
         picked <- pickNode bids ;;
         match picked with
         | None => Ret failure
         | Some picked =>
             native <- try_catch
               (rn <- call "DOM.resolveNode" (obj [("backendNodeId", bid picked)]) None ;;
                let oid := rn?."object"?."objectId" in
                if truthy oid then
                  call "Runtime.callFunctionOn"
                       (obj [("objectId", oid);
                             ("functionDeclaration", JStr node_click_function);
                             ("awaitPromise", JBool true)]) None ;;
                  Ret (Some (clicked picked "axQuery"))
                else Ret None)
               (fun _ => Ret None) ;;
             match native with
             | Some r => Ret r
             | None =>
                 dispatchMouseEvent "mousePressed" (jint (cx picked)) (jint (cy picked)) ;;
                 dispatchMouseEvent "mouseReleased" (jint (cx picked)) (jint (cy picked)) ;;
                 Ret (clicked picked "axQueryDispatch")
             end
         end)
      (fun _ => Ret failure).


(** [!r.ok] *)
Definition not_ok (r : jsval) : prog bool :=
  ok <- lift (get r "ok") ;;
  Ret (negb (truthy ok)).

(** Lines 348-351: one pass over the four strategies. *)
Definition strategy_chain : prog jsval :=
  r <- clickByAXQuery ;;
  failed <- not_ok r ;;
  r <- (if (failed : bool) then clickByAX else Ret r) ;;
  failed <- not_ok r ;;
  r <- (if (failed : bool) then clickByDOM else Ret r) ;;
  failed <- not_ok r ;;
  r <- (if (failed : bool) then clickByFrames else Ret r) ;;
  Ret r.




End Opener.
End NewChat.

(** ** The page the injected scripts run in

    The verification expression of the opener and the injected script of
    the chat injector are texts evaluated inside the page.  They are
    embedded as functions over a model of the document: a forest of
    elements with the properties the scripts read, the focused element,
    and the events dispatched so far.  An element is named by its path
    from the top of the document.  Listeners of the page are not part of
    the model: a dispatched event is recorded and changes nothing else,
    and [textContent] is a property of its own. *)

Module Page.

Record element : Type := {
  tagName : string;
  attributes : list (string * string);
  classList : list string;
  type : option string;
  isContentEditable : bool;
  focusable : bool;
  value : jsval;
  textContent : string
}.

Inductive node : Type :=
| Element (e : element) (children : list node).

Definition path : Type := list nat.

Inductive dom_event : Type :=
| InputEvent (type : string) (data : string)       (* new InputEvent(type, {data, inputType:'insertText'}) *)
| Event (type : string)                            (* new Event(type, {bubbles:true}) *)
| KeyboardEvent (type : string) (key : string)     (* new KeyboardEvent(type, {key, code}) *)
| MouseEvent (type : string).                      (* new MouseEvent(type, evInit) *)

Record page : Type := {
  document : list node;
  activeElement : option path;
  dispatched : list (path * dom_event);
  hasInputEvent : bool
}.

(** *** Selectors *)

Inductive attr_selector : Type :=
| HasAttr (name : string)                  (* [name] *)
| AttrIs (name value : string)             (* [name="value"] *)
| AttrContains (name value : string).      (* [name*="value"] *)

Record selector : Type := {
  sel_tag : option string;
  sel_class : option string;
  sel_attrs : list attr_selector
}.

Definition lower_ascii (c : ascii) : ascii :=
  let n := nat_of_ascii c in
  if ((65 <=? n) && (n <=? 90))%nat then ascii_of_nat (n + 32) else c.

(** [s.toLowerCase()], on the ASCII letters *)
Fixpoint toLowerCase (s : string) : string :=
  match s with
  | EmptyString => EmptyString
  | String c rest => String (lower_ascii c) (toLowerCase rest)
  end.

Fixpoint attr (name : string) (attrs : list (string * string)) : option string :=
  match attrs with
  | [] => None
  | (k, v) :: rest => if String.eqb k name then Some v else attr name rest
  end.

Definition attr_matches (e : element) (a : attr_selector) : bool :=
  match a with
  | HasAttr name => match attr name (attributes e) with Some _ => true | None => false end
  | AttrIs name v => match attr name (attributes e) with
                     | Some v' => String.eqb v' v
                     | None => false
                     end
  | AttrContains name v => match attr name (attributes e) with
                           | Some v' => str_includes v v'
                           | None => false
                           end
  end.

Definition matches (s : selector) (e : element) : bool :=
  match sel_tag s with
  | Some t => String.eqb (toLowerCase (tagName e)) t
  | None => true
  end
  && match sel_class s with
     | Some c => existsb (String.eqb c) (classList e)
     | None => true
     end
  && forallb (attr_matches e) (sel_attrs s).

Definition tag (t : string) : selector :=
  {| sel_tag := Some t; sel_class := None; sel_attrs := [] |}.
Definition class (c : string) : selector :=
  {| sel_tag := None; sel_class := Some c; sel_attrs := [] |}.
Definition attrs (l : list attr_selector) : selector :=
  {| sel_tag := None; sel_class := None; sel_attrs := l |}.
Definition tag_attrs (t : string) (l : list attr_selector) : selector :=
  {| sel_tag := Some t; sel_class := None; sel_attrs := l |}.

(** *** Walking the document *)

(** The elements below [nodes], in document order, with their paths. *)
Fixpoint elements_of (p : path) (n : node) {struct n} : list (path * element) :=
  match n with
  | Element e children =>
      (p, e) :: (fix under (i : nat) (l : list node) {struct l} : list (path * element) :=
                   match l with
                   | [] => []
                   | c :: rest => (elements_of (p ++ [i])%list c ++ under (S i) rest)%list
                   end) 0%nat children
  end.

Fixpoint elements_under (prefix : path) (i : nat) (nodes : list node) : list (path * element) :=
  match nodes with
  | [] => []
  | n :: rest =>
      (elements_of (prefix ++ [i])%list n ++ elements_under prefix (S i) rest)%list
  end.

Definition all_elements (doc : list node) : list (path * element) :=
  elements_under [] 0 doc.

Fixpoint node_at (nodes : list node) (p : path) : option node :=
  match p with
  | [] => None
  | i :: p' =>
      match nth_error nodes i with
      | None => None
      | Some (Element e children) =>
          match p' with
          | [] => Some (Element e children)
          | _ => node_at children p'
          end
      end
  end.

Definition element_at (doc : list node) (p : path) : option element :=
  match node_at doc p with
  | Some (Element e _) => Some e
  | None => None
  end.

Fixpoint is_prefix (p q : path) : bool :=
  match p, q with
  | [], _ => true
  | i :: p', j :: q' => (i =? j)%nat && is_prefix p' q'
  | _ :: _, [] => false
  end.

(** [q] lies strictly below [p]. *)
Definition below (p q : path) : bool :=
  is_prefix p q && (List.length p <? List.length q)%nat.

Definition first_match (s : selector) (l : list (path * element)) : option path :=
  option_map fst (find (fun pe => matches s (snd pe)) l).

(** [document.querySelector(s)] *)
Definition document_querySelector (doc : list node) (s : selector) : option path :=
  first_match s (all_elements doc).

(** [container.querySelector(s)]: the container is an element, or the
    document ([None]). *)
Definition querySelector (doc : list node) (container : option path) (s : selector)
  : option path :=
  match container with
  | None => document_querySelector doc s
  | Some c => first_match s (filter (fun pe => below c (fst pe)) (all_elements doc))
  end.

(** [el.parentElement] *)
Definition parentElement (p : path) : option path :=
  match removelast p with
  | [] => None
  | parent => Some parent
  end.

(** [el.closest(s)]: the element itself or its nearest ancestor matching
    [s]; [fuel] is the depth of [el]. *)
Fixpoint closest_from (fuel : nat) (doc : list node) (p : path) (s : selector) : option path :=
  match element_at doc p with
  | None => None
  | Some e =>
      if matches s e then Some p
      else match fuel with
           | O => None
           | S fuel => match parentElement p with
                       | None => None
                       | Some parent => closest_from fuel doc parent s
                       end
           end
  end.

Definition closest (doc : list node) (p : path) (s : selector) : option path :=
  closest_from (List.length p) doc p s.

(** Changing the element at a path. *)
Fixpoint update_at (f : node -> node) (nodes : list node) (p : path) : list node :=
  match p with
  | [] => nodes
  | i :: p' =>
      (fix at_index (i : nat) (nodes : list node) : list node :=
         match nodes with
         | [] => []
         | Element e children :: rest =>
             match i with
             | O => match p' with
                    | [] => f (Element e children) :: rest
                    | _ => Element e (update_at f children p') :: rest
                    end
             | S i' => Element e children :: at_index i' rest
             end
         end) i nodes
  end.

Definition with_value (v : string) (n : node) : node :=
  match n with
  | Element e children =>
      Element {| tagName := tagName e; attributes := attributes e; classList := classList e;
                 type := type e; isContentEditable := isContentEditable e;
                 focusable := focusable e; value := JStr v;
                 textContent := textContent e |} children
  end.

(** [el.textContent = s] replaces what the element contains. *)
Definition with_textContent (s : string) (n : node) : node :=
  match n with
  | Element e _ =>
      Element {| tagName := tagName e; attributes := attributes e; classList := classList e;
                 type := type e; isContentEditable := isContentEditable e;
                 focusable := focusable e; value := value e;
                 textContent := s |} []
  end.

(** *** Scripts

    A script runs to a value or an exception and leaves a page. *)

Definition script (A : Type) : Type := page -> (Script.error + A) * page.

Definition ret {A : Type} (a : A) : script A := fun pg => (inr a, pg).

Definition throw {A : Type} (e : Script.error) : script A := fun pg => (inl e, pg).

Definition bind {A B : Type} (m : script A) (f : A -> script B) : script B :=
  fun pg => match m pg with
            | (inr a, pg') => f a pg'
            | (inl e, pg') => (inl e, pg')
            end.

(** [try { m } catch {}] *)
Definition attempt (m : script unit) : script unit :=
  fun pg => match m pg with
            | (inr a, pg') => (inr a, pg')
            | (inl _, pg') => (inr tt, pg')
            end.

Declare Scope script_scope.
Delimit Scope script_scope with script.
Notation "x <- m ;; k" := (bind m (fun x => k))
  (at level 61, m at next level, right associativity) : script_scope.
Notation "m ;; k" := (bind m (fun _ => k))
  (at level 61, right associativity) : script_scope.

(** Reads *)

Definition select (container : option path) (s : selector) : script (option path) :=
  fun pg => (inr (querySelector (document pg) container s), pg).

Definition read {A : Type} (el : path) (property : element -> A) : script A :=
  fun pg => match element_at (document pg) el with
            | Some e => (inr (property e), pg)
            | None => (inl (type_error "element is gone"), pg)
            end.

Definition getAttribute (el : path) (name : string) : script (option string) :=
  read el (fun e => attr name (attributes e)).

Definition closestM (el : path) (s : selector) : script (option path) :=
  fun pg => (inr (closest (document pg) el s), pg).

Definition document_activeElement : script (option path) :=
  fun pg => (inr (activeElement pg), pg).

(** Writes *)

Definition focus (el : path) : script unit :=
  fun pg => match element_at (document pg) el with
            | Some e =>
                (inr tt,
                 if focusable e
                 then {| document := document pg; activeElement := Some el;
                         dispatched := dispatched pg; hasInputEvent := hasInputEvent pg |}
                 else pg)
            | None => (inl (type_error "element is gone"), pg)
            end.

Definition change (f : node -> node) (el : path) : script unit :=
  fun pg => (inr tt,
             {| document := update_at f (document pg) el; activeElement := activeElement pg;
                dispatched := dispatched pg; hasInputEvent := hasInputEvent pg |}).

Definition dispatchEvent (el : path) (ev : dom_event) : script unit :=
  fun pg => (inr tt,
             {| document := document pg; activeElement := activeElement pg;
                dispatched := (dispatched pg ++ [(el, ev)])%list;
                hasInputEvent := hasInputEvent pg |}).

(** [new InputEvent(...)] throws where the constructor is missing. *)
Definition dispatchInputEvent (el : path) (data : string) : script unit :=
  fun pg => if hasInputEvent pg
            then dispatchEvent el (InputEvent "input" data) pg
            else (inl (Script.JsError "ReferenceError: InputEvent is not defined"), pg).

(** [for (const q of sels) { const e = document.querySelector(q); if (e) { el = e; used = q; break } }] *)
Fixpoint first_selected (sels : list (string * selector)) : script (option (path * string)) :=
  match sels with
  | [] => ret None
  | (text, s) :: rest =>
      (e <- select None s ;;
       match e with
       | Some el => ret (Some (el, text))
       | None => first_selected rest
       end)%script
  end.

Definition is_space (c : ascii) : bool :=
  let n := nat_of_ascii c in
  ((n =? 32) || ((9 <=? n) && (n <=? 13)))%nat.

Fixpoint trimStart (s : string) : string :=
  match s with
  | EmptyString => EmptyString
  | String c rest => if is_space c then trimStart rest else s
  end.

Fixpoint rev_string (acc s : string) : string :=
  match s with
  | EmptyString => acc
  | String c rest => rev_string (String c acc) rest
  end.

(** [s.trim()], on the ASCII white space *)
Definition trim (s : string) : string :=
  rev_string "" (trimStart (rev_string "" (trimStart s))).

(** [v.trim()] *)
Definition js_trim (v : jsval) : Script.error + string :=
  match v with
  | JStr s => inr (trim s)
  | _ => inl (type_error "trim is not a function")
  end.

Definition lift {A : Type} (r : Script.error + A) : script A :=
  match r with
  | inl e => throw e
  | inr a => ret a
  end.

Open Scope script_scope.

(** *** The verification expression of [verifyNewChat]
    ([src/js/1-newchat-opener.js], lines 269-281) *)

Definition verify_selectors : list (string * selector) :=
  [ ("textarea", tag "textarea");
    ("[contenteditable=true]", attrs [AttrIs "contenteditable" "true"]);
    ("[role=textbox]", attrs [AttrIs "role" "textbox"]);
    ("input[type=text]", tag_attrs "input" [AttrIs "type" "text"]);
    (".ProseMirror", class "ProseMirror") ].

(** [/输入|消息|message|chat|send/i.test(ph)] *)
Definition placeholder_matches (ph : string) : bool :=
  existsb (fun word => str_includes word (toLowerCase ph))
          ["输入"; "消息"; "message"; "chat"; "send"].

Definition verified : jsval := obj [("ok", JBool true); ("via", JStr "verify")].
Definition not_verified : jsval := obj [("ok", JBool false)].

Definition verify : script jsval :=
  found <- first_selected verify_selectors ;;
  match found with
  | None => ret not_verified
  | Some (el, _) =>
      tagName <- read el tagName ;;
      let tag := toLowerCase tagName in
      type <- read el type ;;
      contentEditable <- read el isContentEditable ;;
      let editable :=
        String.eqb tag "textarea"
        || (String.eqb tag "input"
            && match type with Some t => String.eqb t "text" | None => false end)
        || contentEditable in
      value <- read el value ;;
      text <- read el textContent ;;
      val <- lift (js_trim (if negb (is_undefined value) then value else JStr text)) ;;
      placeholder <- getAttribute el "placeholder" ;;
      let ph := match placeholder with Some s => s | None => "" end in
      let phMatch := placeholder_matches ph in
      if editable && (String.length val =? 0)%nat && phMatch
      then ret verified
      else ret not_verified
  end.

(** *** The injected script of the chat injector
    ([src/2-chat-injector.js], [injection], lines 66-119) *)

Definition input_selectors : list (string * selector) :=
  [ ("textarea", tag "textarea");
    ("[contenteditable=true]", attrs [AttrIs "contenteditable" "true"]);
    ("[role=textbox]", attrs [AttrIs "role" "textbox"]);
    ("input[type=text]", tag_attrs "input" [AttrIs "type" "text"]);
    (".ProseMirror", class "ProseMirror");
    ("div[aria-label]", tag_attrs "div" [HasAttr "aria-label"]);
    ("div[placeholder]", tag_attrs "div" [HasAttr "placeholder"]);
    ("[data-slate-editor]", attrs [HasAttr "data-slate-editor"]);
    ("[data-testid*=editor]", attrs [AttrContains "data-testid" "editor"]);
    ("[data-lexical-editor]", attrs [HasAttr "data-lexical-editor"]) ].

Definition btnSels : list selector :=
  [ tag_attrs "button" [AttrIs "type" "submit"];
    tag_attrs "button" [AttrContains "aria-label" "发送"];
    tag_attrs "button" [AttrContains "aria-label" "Send"];
    attrs [AttrIs "role" "button"; AttrContains "aria-label" "发送"];
    attrs [AttrIs "role" "button"; AttrContains "aria-label" "Send"];
    attrs [AttrContains "data-testid" "send"];
    attrs [AttrContains "aria-label" "提交"];
    attrs [AttrContains "aria-label" "Submit"] ].

(** [for (const qs of btnSels) { btn = container.querySelector(qs) || document.querySelector(qs); if (btn) break }] *)
Fixpoint find_button (container : option path) (sels : list selector) : script (option path) :=
  match sels with
  | [] => ret None
  | qs :: rest =>
      inside <- select container qs ;;
      btn <- match inside with
             | Some b => ret (Some b)
             | None => select None qs
             end ;;
      match btn with
      | Some b => ret (Some b)
      | None => find_button container rest
      end
  end.

Definition press_enter (target : path) : script unit :=
  dispatchEvent target (KeyboardEvent "keydown" "Enter") ;;
  dispatchEvent target (KeyboardEvent "keyup" "Enter").

(** The text-entry branch of [injection]. *)
Definition enter_text (el : path) (tag : string) (type : option string)
           (contentEditable : bool) (text : string) : script unit :=
  if String.eqb tag "textarea"
     || (String.eqb tag "input"
         && match type with Some t => String.eqb t "text" | None => false end)
  then
    change (with_value text) el ;;
    attempt (dispatchInputEvent el text) ;;
    dispatchEvent el (Event "input") ;;
    dispatchEvent el (Event "change")
  else if contentEditable then
    change (with_textContent "") el ;;
    change (with_textContent text) el ;;
    attempt (dispatchInputEvent el text) ;;
    dispatchEvent el (Event "input")
  else
    change (with_textContent text) el ;;
    dispatchEvent el (Event "input").

(** Lines 74-117 of [injection]: what is done with the input control
    [el], found by the selector [used]. *)
Definition inject_into (text : string) (el : path) (used : string) : script jsval :=
  tagName <- read el tagName ;;
  let tag := toLowerCase tagName in
  focus el ;;
  type <- read el type ;;
  contentEditable <- read el isContentEditable ;;
  enter_text el tag type contentEditable text ;;
  press_enter el ;;
  form <- closestM el (Page.tag "form") ;;
  let container := match form with
                   | Some f => Some f
                   | None => parentElement el
                   end in
  btn <- find_button container btnSels ;;
  match btn with
  | Some btn =>
      dispatchEvent btn (MouseEvent "pointerdown") ;;
      dispatchEvent btn (MouseEvent "mousedown") ;;
      dispatchEvent btn (MouseEvent "click") ;;
      dispatchEvent btn (MouseEvent "mouseup")
  | None =>
      focused <- document_activeElement ;;
      let active := match focused with Some a => a | None => el end in
      press_enter active
  end ;;
  contentEditable <- read el isContentEditable ;;
  ret (obj [("ok", JBool true); ("selector", JStr used); ("tag", JStr tagName);
            ("contenteditable", JBool contentEditable)]).

Definition injection (text : string) : script jsval :=
  found <- first_selected input_selectors ;;
  match found with
  | None => ret (obj [("ok", JBool false); ("msg", JStr "no input")])
  | Some (el, used) => inject_into text el used
  end.

Close Scope script_scope.

End Page.

(** ** The frame tree ([clickByFrames]) *)

Module Frames.

(** The frame tree of [Page.getFrameTree]: a frame with its id, and its
    child frames. *)
Inductive frame_tree : Type :=
| Frame (id : string) (childFrames : list frame_tree).

(** A value of the reply that reads as the tree [t]: [n.frame.id] is the
    id, and [n.childFrames], an empty array when absent, holds values that
    read as the children. *)
Inductive reads_as : jsval -> frame_tree -> Prop :=
| reads_frame (n : jsval) (id : string) (items : list jsval) (children : list frame_tree) :
    n?."frame"?."id" = JStr id ->
    iterate (n?."childFrames" ||! JArr []) = inr items ->
    Forall2 reads_as items children ->
    reads_as n (Frame id children).

(** The frames of a tree, the frame itself first, then the subtrees from
    the last child to the first. *)
Fixpoint last_child_first (t : frame_tree) : list string :=
  match t with
  | Frame id children => id :: List.concat (rev (List.map last_child_first children))
  end.

End Frames.

(** ** The dialogue extractor ([src/2-chat-injector.js], from line 280)

    [extractQADialogue] sends the text of a saved page to the model in one
    request, or, when the text is longer than [htmlMaxChars], in batches
    ([extractQADialogueInBatches]).  The text is a sequence of the units
    that [length] and [slice] count; what the API answers is the
    environment's, read at the fields the code reads. *)

Module Dialogue.

Section Batching.

(** The text to be split, as the sequence of the units that [length] and
    [slice] count. *)
Variable unit16 : Type.

Definition length16 (s : list unit16) : Z := Z.of_nat (List.length s).

(** [s.slice(start, end)] *)
Definition slice (s : list unit16) (start stop : Z) : list unit16 :=
  let len := length16 s in
  let from := if start <? 0 then Z.max (len + start) 0 else Z.min start len in
  let to := if stop <? 0 then Z.max (len + stop) 0 else Z.min stop len in
  firstn (Z.to_nat (to - from)) (skipn (Z.to_nat from) s).

(** [{ content: batch, index: i, isLast: i + batchSize >= htmlContent.length }] *)
Record batch : Type := {
  content : list unit16;
  index : Z;
  isLast : bool
}.

(** [for (let i = 0; i < htmlContent.length; i += batchSize) { ... batches.push(...) }]
    from the value [i] on; [None] when the loop has not ended within
    [fuel] turns. *)
Fixpoint batches_from (fuel : nat) (htmlContent : list unit16) (batchSize i : Z)
  : option (list batch) :=
  if i <? length16 htmlContent then
    match fuel with
    | O => None
    | S fuel =>
        let b := {| content := slice htmlContent i (i + batchSize);
                    index := i;
                    isLast := length16 htmlContent <=? i + batchSize |} in
        match batches_from fuel htmlContent batchSize (i + batchSize) with
        | Some rest => Some (b :: rest)
        | None => None
        end
    end
  else Some [].

End Batching.

Arguments content {unit16} b.
Arguments index {unit16} b.
Arguments isLast {unit16} b.

(** [`${n}`] for an integer *)
Definition show (n : Z) : string := NilZero.string_of_int (Z.to_int n).

(** What the API answers with, read at the type the API gives it: the
    content of the first choice is a string when the response has one, and
    [usage.total_tokens] is an integer when it is there. *)
Record response : Type := {
  first_content : option string;
  total_tokens : option Z
}.

(** How [Promise.race([apiRequest, timeoutPromise])] ends. *)
Inductive raced : Type :=
| Responded (r : response)
| Rejected (message : string)
| TimedOut.

(** [response.usage?.total_tokens || 'N/A'], the batch total, which is a
    number or [NaN], and the [0] of a failed batch. *)
Inductive tokens : Type :=
| Tokens (n : Z)
| NotAvailable
| NaN.

(** [tokenUsage = response.usage?.total_tokens || 'N/A'] *)
Definition usage_of (r : response) : tokens :=
  match total_tokens r with
  | Some n => if n =? 0 then NotAvailable else Tokens n
  | None => NotAvailable
  end.

(** [totalTokenUsage += parseInt(tokenUsage)], for token counts below 10^21 *)
Definition add_tokens (total usage : tokens) : tokens :=
  match total, usage with
  | Tokens t, Tokens n => Tokens (t + n)
  | _, _ => NaN
  end.

(** The check of the response:
    [!response || !Array.isArray(response.choices) || response.choices.length === 0
     || !response.choices[0]?.message?.content]; an empty content is no content. *)
Definition valid_content (r : response) : option string :=
  match first_content r with
  | Some c => if String.eqb c "" then None else Some c
  | None => None
  end.

Section Extraction.

Variable unit16 : Type.

(** [OPENAI_CONFIG.timeout] and [OPENAI_CONFIG.htmlMaxChars] *)
Variable timeout : Z.
Variable htmlMaxChars : Z.

(** What a prompt is made of: the template of the batch is filled with
    [i + 1], [batches.length], [batch.content] and [batch.isLast]; the
    prompt of the whole content has the content only. *)
Inductive prompt : Type :=
| WholePrompt (htmlContent : list unit16)
| BatchPrompt (number total : Z) (fragment : list unit16) (last : bool).

Inductive line : Type :=
| LogLarge (length : Z)                      (* `HTML内容较大 (${length} 字符)，将分批处理...` *)
| LogRequest                                 (* '正在发送请求到LLM...' *)
| LogTimeoutSetting (ms : Z)                 (* `使用超时设置: ${timeout}ms` *)
| LogExtracted (result : string)             (* the three lines around the result *)
| LogUsage (usage : tokens)                  (* `Token使用情况: ${tokenUsage}` *)
| LogTimeout (message : string)              (* `请求超时: ${message}` and the advice *)
| LogFailure (message : string)              (* 'LLM处理失败:', message *)
| LogSplit (count batchSize : Z)             (* `将分为 ${count} 个批次进行处理，每批约 ${batchSize} 字符` *)
| LogBatch (number total length : Z)         (* `处理批次 ${number}/${total} (${length} 字符)...` *)
| LogSending (number : Z)                    (* `正在发送批次 ${number} 请求到LLM...` *)
| LogDone (number : Z) (usage : tokens)      (* `批次 ${number} 处理完成，Token使用: ${usage}` *)
| LogWaiting                                 (* '等待1秒后处理下一批次...' *)
| LogBatchFailed (number : Z) (message : string)  (* `批次 ${number} 处理失败:`, message *)
| LogAllDone (total : tokens).               (* the three closing lines with the total *)

Inductive request : Type -> Type :=
| Create (p : prompt) : request raced
| Wait (ms : Z) : request unit
| Log (l : line) : request unit.

Inductive prog (A : Type) : Type :=
| Ret (a : A)
| Throw (e : Script.error)
| Vis (X : Type) (rq : request X) (k : X -> prog A).

Arguments Ret {A} a.
Arguments Throw {A} e.
Arguments Vis {A X} rq k.

Fixpoint bind {A B : Type} (p : prog A) (f : A -> prog B) : prog B :=
  match p with
  | Ret a => f a
  | Throw e => Throw e
  | Vis rq k => Vis rq (fun x => bind (k x) f)
  end.

(** [try { p } catch (error) { h(error.message) }] *)
Fixpoint try_catch {A : Type} (p : prog A) (h : string -> prog A) : prog A :=
  match p with
  | Ret a => Ret a
  | Throw Script.OutOfFuel => Throw Script.OutOfFuel
  | Throw (Script.JsError message) => h message
  | Vis rq k => Vis rq (fun x => try_catch (k x) h)
  end.

Definition console (l : line) : prog unit := Vis (Log l) Ret.
Definition wait (ms : Z) : prog unit := Vis (Wait ms) Ret.
Definition throw {A : Type} (message : string) : prog A := Throw (Script.JsError message).

(** [await Promise.race([apiRequest, timeoutPromise])], then the check of
    the response: the content, or the exception. *)
Definition completion (p : prompt) (timeout_message invalid_message : string)
  : prog (string * tokens) :=
  Vis (Create p)
      (fun r => match r with
                | Responded r =>
                    match valid_content r with
                    | Some c => Ret (c, usage_of r)
                    | None => throw invalid_message
                    end
                | Rejected message => throw message
                | TimedOut => throw timeout_message
                end).

(** [{ batchIndex, content, tokenUsage }] *)
Record batch_result : Type := {
  batchIndex : Z;
  result_content : string;
  tokenUsage : tokens
}.

(** [{ content, tokenUsage, model, batchCount }], [batchCount] only from
    the batches. *)
Record extraction : Type := {
  extracted : string;
  used : tokens;
  batchCount : option Z
}.

Definition batch_timeout_message (number : Z) : string :=
  "批次 " ++ show number ++ " 请求超时 (" ++ show timeout ++ "ms)".

Definition batch_invalid_message (number : Z) : string :=
  "批次 " ++ show number ++ " LLM响应不包含有效的choices或内容".

Definition batch_failed_content (number : Z) (message : string) : string :=
  "错误: 批次 " ++ show number ++ " 处理失败 - " ++ message.

(** The second loop of [extractQADialogueInBatches] (lines 431-505), from
    the batch numbered [i] on. *)
Fixpoint process_batches (count i : Z) (batches : list (batch unit16))
         (results : list batch_result) (totalTokenUsage : tokens)
  : prog (list batch_result * tokens) :=
  match batches with
  | [] => Ret (results, totalTokenUsage)
  | b :: rest =>
      bind (console (LogBatch (i + 1) count (length16 unit16 (content b))))
           (fun _ =>
      bind (try_catch
              (bind (console (LogSending (i + 1))) (fun _ =>
               bind (completion (BatchPrompt (i + 1) count (content b) (isLast b))
                                (batch_timeout_message (i + 1))
                                (batch_invalid_message (i + 1)))
                    (fun answer =>
               let '(result, tokenUsage) := answer in
               let total := add_tokens totalTokenUsage tokenUsage in
               bind (console (LogDone (i + 1) tokenUsage)) (fun _ =>
               let results := (results ++ [{| batchIndex := i + 1;
                                              result_content := result;
                                              tokenUsage := tokenUsage |}])%list in
               bind (if i <? count - 1
                     then bind (console LogWaiting) (fun _ => wait 1000)
                     else Ret tt)
                    (fun _ => Ret (results, total))))))
              (fun message =>
                 bind (console (LogBatchFailed (i + 1) message)) (fun _ =>
                 Ret ((results ++ [{| batchIndex := i + 1;
                                      result_content := batch_failed_content (i + 1) message;
                                      tokenUsage := Tokens 0 |}])%list,
                      totalTokenUsage))))
           (fun state => process_batches count (i + 1) rest (fst state) (snd state)))
  end.

(** [extractQADialogueInBatches(htmlContent, client)] *)
Definition extractQADialogueInBatches (htmlContent : list unit16) : prog extraction :=
  let batchSize := htmlMaxChars in
  match batches_from unit16 (S (List.length htmlContent)) htmlContent batchSize 0 with
  | None => Throw Script.OutOfFuel
  | Some batches =>
      let count := Z.of_nat (List.length batches) in
      bind (console (LogSplit count batchSize)) (fun _ =>
      bind (process_batches count 0 batches [] (Tokens 0)) (fun state =>
      let mergedContent :=
        String.concat (String (ascii_of_nat 10) (String (ascii_of_nat 10) EmptyString))
                      (List.map result_content (fst state)) in
      bind (console (LogAllDone (snd state))) (fun _ =>
      Ret {| extracted := mergedContent; used := snd state; batchCount := Some count |})))
  end.


(** *** Running an extraction *)

Inductive observed : Type :=
| OCreate (p : prompt) (r : raced)
| OWait (ms : Z)
| OLog (l : line).

Definition observe {X : Type} (rq : request X) : X -> observed :=
  match rq in request X return X -> observed with
  | Create p => fun r => OCreate p r
  | Wait ms => fun _ => OWait ms
  | Log l => fun _ => OLog l
  end.

Variable World : Type.
Variable answer : forall X : Type, request X -> World -> X * World.

Fixpoint run {A : Type} (p : prog A) (w : World) : list observed * Script.outcome A * World :=
  match p with
  | Ret a => ([], Script.Returned a, w)
  | Throw e => ([], Script.Thrown e, w)
  | Vis rq k =>
      let '(x, w1) := answer _ rq w in
      let '(tr, o, w2) := run (k x) w1 in
      (observe rq x :: tr, o, w2)
  end.

End Extraction.

Arguments Ret unit16 {A} a.
Arguments Throw unit16 {A} e.
Arguments Vis unit16 {A X} rq k.

End Dialogue.

(** ** Finding the tab ([ensureTarget], [findDeepseekTarget])

    Both programs ask the browser for its targets over HTTP
    ([/json/list]) and look for one of the chat site; the opener asks for
    a new tab ([/json/new]) when there is none.  What [fetch] answers is
    the environment's: a rejection, or a response with its [ok] flag, its
    status, and its body: the text and what [JSON.parse] makes of it (a
    value, or the message of the error it throws), or the message of the
    rejection of [r.text()]. *)

Module Targets.

Local Open Scope list_scope.

Definition TARGET_URL : string := "https://chat.deepseek.com".

(** [encodeURIComponent(TARGET_URL)] *)
Definition encoded_target : string := "https%3A%2F%2Fchat.deepseek.com".

Definition site : string := "chat.deepseek.com".

Inductive content : Type :=
| Text (text : string) (parsed : string + jsval)
| Broken (message : string).

Record response : Type := {
  ok : bool;
  status : Z;
  body : content
}.

Inductive fetched : Type :=
| Fetched (r : response)
| Unreachable (message : string).

(** The lines written to the console, by their template and arguments. *)
Inductive line : Type :=
| Checking (url : string)
| ParseFailed (url text : string)
| FetchError (url message : string)
| FoundExisting (title : jsval)
| NoneFound (url : string)
| Created (title : jsval)
| NewParseFailed (text : string)
| EnsureFailed (message : string)
| EnsureChrome
| StartChrome.

Inductive observed : Type :=
| OFetch (url : string) (r : fetched)
| OLine (l : line).

(** [error.message]; an exception is known here by its message. *)
Definition message_of {A : Type} (r : Script.error + A) : string + A :=
  match r with
  | inl (Script.JsError message) => inl message
  | inl Script.OutOfFuel => inl ""
  | inr a => inr a
  end.

(** [x => x && x.type === 'page' && typeof x.url === 'string' &&
    x.url.includes('chat.deepseek.com')] *)
Definition opener_accepts (x : jsval) : string + bool :=
  inr (truthy x && strict_eq_str x?."type" "page" &&
       match x?."url" with
       | JStr url => str_includes site url
       | _ => false
       end).

(** [x => typeof x.url === 'string' && x.url.includes('chat.deepseek.com')] *)
Definition injector_accepts (x : jsval) : string + bool :=
  match message_of (get x "url") with
  | inl e => inl e
  | inr (JStr url) => inr (str_includes site url)
  | inr _ => inr false
  end.

(** [Array.prototype.find] *)
Fixpoint find_in (accepts : jsval -> string + bool) (l : list jsval) : string + jsval :=
  match l with
  | [] => inr JUndefined
  | x :: rest =>
      match accepts x with
      | inl e => inl e
      | inr true => inr x
      | inr false => find_in accepts rest
      end
  end.

(** [list.find(...)]: only an array has the method. *)
Definition find (accepts : jsval -> string + bool) (list : jsval) : string + jsval :=
  match list with
  | JArr l => find_in accepts l
  | JUndefined | JNull =>
      message_of (inl (type_error "Cannot read properties of nullish value, reading find"))
  | _ => message_of (inl (type_error "find is not a function"))
  end.

Section Tasks.

Variable World : Type.
Variable fetch : string -> World -> fetched * World.

(** An asynchronous function: what it writes and fetches, how it ends, and
    the environment after it. *)
Definition task (A : Type) : Type := World -> list observed * (string + A) * World.

Definition ret {A : Type} (a : A) : task A := fun w => ([], inr a, w).

Definition throw {A : Type} (message : string) : task A :=
  fun w => ([], inl message, w).

Definition bind {A B : Type} (m : task A) (f : A -> task B) : task B :=
  fun w =>
    match m w with
    | (tr, inl e, w1) => (tr, inl e, w1)
    | (tr, inr a, w1) =>
        let '(tr', r, w2) := f a w1 in (tr ++ tr', r, w2)
    end.

Definition try_catch {A : Type} (m : task A) (h : string -> task A) : task A :=
  fun w =>
    match m w with
    | (tr, inl e, w1) =>
        let '(tr', r, w2) := h e w1 in (tr ++ tr', r, w2)
    | (tr, inr a, w1) => (tr, inr a, w1)
    end.

Definition console (l : line) : task unit := fun w => ([OLine l], inr tt, w).

Definition lift {A : Type} (r : string + A) : task A := fun w => ([], r, w).

(** [await fetch(url)] *)
Definition fetch_url (url : string) : task response :=
  fun w =>
    let '(r, w1) := fetch url w in
    ([OFetch url r],
     match r with
     | Fetched r => inr r
     | Unreachable message => inl message
     end, w1).

(** [await r.text()] *)
Definition text_of (r : response) : task (string * (string + jsval)) :=
  match body r with
  | Text text parsed => ret (text, parsed)
  | Broken message => throw message
  end.

End Tasks.

Arguments ret {World A} a.
Arguments throw {World A} message.
Arguments bind {World A B} m f.
Arguments try_catch {World A} m h.
Arguments console {World} l.
Arguments lift {World A} r.
Arguments fetch_url {World} fetch url.
Arguments text_of {World} r.

Notation "x <- m ;; k" := (bind m (fun x => k))
  (at level 61, m at next level, right associativity).
Notation "m ;;; k" := (bind m (fun _ => k)) (at level 61, right associativity).

Module Opener.

Section Run.

(** [process.env.CHROME_MCP_URL || 'http://127.0.0.1:9222'] *)
Variable BASE : string.

Variable World : Type.
Variable fetch : string -> World -> fetched * World.

(** [j(path)] *)
Definition j (path : string) : task World jsval :=
  try_catch
    (r <- fetch_url fetch (BASE ++ path) ;;
     if negb (ok r) then throw ("HTTP error! status: " ++ Dialogue.show (status r))
     else
       body <- text_of r ;;
       match snd body with
       | inr v => ret v
       | inl parseError =>
           console (ParseFailed (BASE ++ path) (substring 0 200 (fst body))) ;;;
           throw ("Invalid JSON response: " ++ parseError)
       end)
    (fun error =>
       console (FetchError (BASE ++ path) error) ;;;
       throw error).

(** [ensureTarget()] *)
Definition ensureTarget : task World jsval :=
  try_catch
    (console (Checking (BASE ++ "/json/list")) ;;;
     list <- j "/json/list" ;;
     t <- lift (find opener_accepts list) ;;
     if truthy t then
       console (FoundExisting t?."title") ;;;
       ret t
     else
       console (NoneFound TARGET_URL) ;;;
       response <- fetch_url fetch (BASE ++ "/json/new?" ++ encoded_target) ;;
       if negb (ok response)
       then throw ("Failed to create new tab: " ++ Dialogue.show (status response))
       else
         body <- text_of response ;;
         try_catch
           (match snd body with
            | inl parseError => throw parseError
            | inr newTab =>
                title <- lift (message_of (get newTab "title")) ;;
                console (Created (title ||! JStr "Untitled")) ;;;
                ret newTab
            end)
           (fun parseError =>
              console (NewParseFailed (substring 0 200 (fst body))) ;;;
              throw ("Invalid JSON response: " ++ parseError)))
    (fun error =>
       console (EnsureFailed error) ;;;
       console EnsureChrome ;;;
       console StartChrome ;;;
       throw error).

End Run.

End Opener.

Module Injector.

Section Run.

Variable BASE : string.
Variable World : Type.
Variable fetch : string -> World -> fetched * World.

(** [j(path)]: [r.json()] without a look at [r.ok]. *)
Definition j (path : string) : task World jsval :=
  r <- fetch_url fetch (BASE ++ path) ;;
  body <- text_of r ;;
  match snd body with
  | inr v => ret v
  | inl parseError => throw parseError
  end.

(** [findDeepseekTarget()] *)
Definition findDeepseekTarget : task World jsval :=
  list <- j "/json/list" ;;
  lift (find injector_accepts list).

End Run.

End Injector.

End Targets.

(** * Properties *)

(** ** The multiplexer *)

Module MuxFacts.
Import Mux.

Lemma Qeq_bool_inject_Z (a b : Z) : Qeq_bool (inject_Z a) (inject_Z b) = (a =? b).
Proof. unfold Qeq_bool, inject_Z; simpl. now rewrite !Z.mul_1_r. Qed.

Lemma key_is_same (q : Q) (e1 e2 : Z * pending_call) :
  key_is q e1 = true -> key_is q e2 = true -> fst e1 = fst e2.
Proof.
  unfold key_is. intros H1 H2.
  apply Qeq_bool_iff in H1. apply Qeq_bool_iff in H2.
  assert (H : (inject_Z (fst e1) == inject_Z (fst e2))%Q) by (rewrite H1, H2; reflexivity).
  apply Qeq_bool_iff in H. rewrite Qeq_bool_inject_Z in H. now apply Z.eqb_eq.
Qed.

Lemma key_is_inject (k : Z) (e : Z * pending_call) : key_is (inject_Z k) e = (fst e =? k).
Proof. unfold key_is. apply Qeq_bool_inject_Z. Qed.

Lemma key_is_Qeq (q : Q) (k : Z) (e : Z * pending_call) :
  (q == inject_Z k)%Q -> key_is q e = (fst e =? k).
Proof.
  intros H. rewrite <- key_is_inject. unfold key_is.
  destruct (Qeq_bool (inject_Z (fst e)) (inject_Z k)) eqn:E.
  - apply Qeq_bool_iff. apply Qeq_bool_iff in E. now rewrite E, H.
  - destruct (Qeq_bool (inject_Z (fst e)) q) eqn:E'; [|reflexivity].
    apply Qeq_bool_iff in E'. rewrite H in E'. apply Qeq_bool_iff in E'. congruence.
Qed.

(** The first settlement recorded for promise [k]. *)
Definition first_for (k : Z) (l : list (Z * settlement)) : option settlement :=
  option_map snd (find (fun e => fst e =? k) l).

Lemma promise_state_first_for st k : promise_state st k = first_for k (callbacks st).
Proof. reflexivity. Qed.

Lemma first_for_app k l1 l2 :
  first_for k (l1 ++ l2)%list =
  match first_for k l1 with Some s => Some s | None => first_for k l2 end.
Proof.
  unfold first_for. induction l1 as [|e l1 IH]; simpl; [reflexivity|].
  destruct (fst e =? k); simpl; [reflexivity|exact IH].
Qed.

Lemma first_for_in k l s : first_for k l = Some s -> In (k, s) l.
Proof.
  unfold first_for. induction l as [|[k' s'] l IH]; simpl; [discriminate|].
  destruct (k' =? k) eqn:E; simpl.
  - intros [= <-]. apply Z.eqb_eq in E. subst. now left.
  - intros H. right. now apply IH.
Qed.

Lemma first_for_none k l : first_for k l = None -> forall s, ~ In (k, s) l.
Proof.
  unfold first_for. induction l as [|[k' s'] l IH]; simpl; [tauto|].
  destruct (k' =? k) eqn:E; simpl; [discriminate|].
  intros H s [[= -> ->]|Hin].
  - rewrite Z.eqb_refl in E. discriminate.
  - exact (IH H s Hin).
Qed.

Lemma first_for_not_in k l : (forall s, ~ In (k, s) l) -> first_for k l = None.
Proof.
  intros H. destruct (first_for k l) as [s|] eqn:E; [|reflexivity].
  apply first_for_in in E. now apply H in E.
Qed.

Lemma map_get_some m q e :
  map_get m q = Some e -> exists k, In (k, e) m /\ key_is q (k, e) = true.
Proof.
  unfold map_get. destruct (find (key_is q) m) as [[k e']|] eqn:F; simpl; [|discriminate].
  intros [= <-]. apply find_some in F. exists k. exact F.
Qed.

Lemma map_get_in m q k e :
  In (k, e) m -> key_is q (k, e) = true -> exists e', map_get m q = Some e'.
Proof.
  intros Hin Hk. unfold map_get.
  destruct (find (key_is q) m) as [[k' e']|] eqn:F; simpl; [now exists e'|].
  apply (find_none _ _ F) in Hin. congruence.
Qed.

Lemma map_delete_in m q k e :
  In (k, e) (map_delete m q) <-> In (k, e) m /\ key_is q (k, e) = false.
Proof. unfold map_delete. rewrite filter_In. now rewrite negb_true_iff. Qed.

Lemma map_set_in m k v k' e :
  In (k', e) (map_set m k v) -> In (k', e) m \/ (k' = k /\ e = v).
Proof.
  unfold map_set. destruct (map_has m (inject_Z k)).
  - rewrite in_map_iff. intros [[k0 e0] [Heq Hin]].
    rewrite key_is_inject in Heq. simpl in Heq.
    destruct (k0 =? k) eqn:E.
    + injection Heq as <- <-. right. apply Z.eqb_eq in E. now split.
    + injection Heq as <- <-. now left.
  - rewrite in_app_iff. simpl. intros [H|[[= <- <-]|[]]]; [now left|now right].
Qed.

Lemma set_timer_state_in s tid ts k t :
  In (k, t) (set_timer_state s tid ts) ->
  exists t0, In (k, t0) ts /\ t_owner t = t_owner t0 /\ (t_state t = t_state t0 \/ t_state t = s).
Proof.
  unfold set_timer_state. rewrite in_map_iff. intros [[k0 t0] [Heq Hin]]. simpl in Heq.
  destruct (k0 =? tid); injection Heq as <- <-; exists t0; simpl; auto.
Qed.

Lemma clearTimeout_in tid ts k t :
  In (k, t) (clearTimeout tid ts) ->
  exists t0, In (k, t0) ts /\ t_owner t = t_owner t0 /\ (t_state t = t_state t0 \/ t_state t = Cleared).
Proof.
  unfold clearTimeout. destruct (timer_lookup ts tid) as [t'|].
  - destruct (t_state t'); [apply set_timer_state_in| |]; intros H; exists t; auto.
  - intros H; exists t; auto.
Qed.

Lemma timer_lookup_in ts tid t : timer_lookup ts tid = Some t -> In (tid, t) ts.
Proof.
  unfold timer_lookup. destruct (find _ ts) as [[k t']|] eqn:F; simpl; [|discriminate].
  intros [= <-]. apply find_some in F as [Hin Hk]. simpl in Hk.
  apply Z.eqb_eq in Hk. now subst.
Qed.

(** What every reachable state of either multiplexer satisfies: an entry is
    filed under the number of the promise it settles, a resolved promise
    has no entry, and nothing refers to a call not yet issued. *)
Record consistent (st : mux) : Prop := {
  owner_is_key : forall k e, In (k, e) (map st) -> pc_owner e = k;
  keys_issued : forall k e, In (k, e) (map st) -> k <= id st;
  timers_issued : forall k t, In (k, t) (timers st) -> t_owner t <= id st;
  callbacks_issued : forall k s, In (k, s) (callbacks st) -> k <= id st;
  resolved_are_gone : forall k d e, In (k, Resolve d) (callbacks st) -> ~ In (k, e) (map st)
}.

Lemma consistent_init : consistent init.
Proof. split; simpl; intros; tauto. Qed.

Lemma clear_tid_fields tid st :
  id (clear_tid tid st) = id st /\ map (clear_tid tid st) = map st /\
  callbacks (clear_tid tid st) = callbacks st /\ issued (clear_tid tid st) = issued st.
Proof. destruct tid; simpl; auto. Qed.

Lemma consistent_clear_tid tid st : consistent st -> consistent (clear_tid tid st).
Proof.
  intros [H1 H2 H3 H4 H5]. destruct tid as [t|]; [|now split].
  split; simpl; auto.
  intros k t0 Hin. apply clearTimeout_in in Hin as [t1 [Hin [Ho _]]].
  rewrite Ho. eauto.
Qed.

Lemma consistent_log st line : consistent st -> consistent (log st line).
Proof. intros [H1 H2 H3 H4 H5]. split; simpl; auto. Qed.

(** Deleting entries and then invoking a callback of an entry's owner. *)
Lemma consistent_settle st q k s :
  consistent st ->
  k <= id st ->
  (forall d, s = Resolve d -> forall e, In (k, e) (map st) -> key_is q (k, e) = true) ->
  consistent (invoke_callback (with_map st (map_delete (map st) q)) k s).
Proof.
  intros [H1 H2 H3 H4 H5] Hk Hres. split; simpl.
  - intros k0 e Hin. apply map_delete_in in Hin as [Hin _]. eauto.
  - intros k0 e Hin. apply map_delete_in in Hin as [Hin _]. eauto.
  - auto.
  - intros k0 s0 Hin. apply in_app_iff in Hin as [Hin|[[= <- <-]|[]]]; eauto.
  - intros k0 d e Hin Hmap. apply map_delete_in in Hmap as [Hmap Hkey].
    apply in_app_iff in Hin as [Hin|[[= Hk0 Hs]|[]]].
    + exact (H5 _ _ _ Hin Hmap).
    + subst k0. rewrite (Hres d Hs e Hmap) in Hkey. discriminate.
Qed.

Lemma consistent_timer reason st tid : consistent st -> consistent (on_timer reason st tid).
Proof.
  intros C. unfold on_timer.
  destruct (timer_lookup (timers st) tid) as [t|] eqn:L; [|exact C].
  destruct (t_state t); try exact C.
  pose proof (timers_issued _ C _ _ (timer_lookup_in _ _ _ L)) as Ho.
  set (st1 := with_timers st (set_timer_state Fired tid (timers st))).
  assert (C1 : consistent st1).
  { destruct C as [H1 H2 H3 H4 H5]. split; simpl; auto.
    intros k t0 Hin. apply set_timer_state_in in Hin as [t1 [Hin [Ho' _]]].
    rewrite Ho'. eauto. }
  unfold timeout_callback. destruct (map_has (map st1) (inject_Z (id st1))); [|exact C1].
  apply (consistent_settle st1 (inject_Z (id st1)) (t_owner t)); auto.
  intros d [=].
Qed.

(** The loop of the error and close handlers, entry by entry. *)
Definition reject_entries (reason : string) (l : list (Z * pending_call)) (st : mux) : mux :=
  fold_left
    (fun st e =>
       let st := clear_tid (pc_tid (snd e)) st in
       let st := invoke_callback st (pc_owner (snd e)) (Reject reason) in
       with_map st (map_delete (map st) (inject_Z (fst e))))
    l st.

Lemma reject_all_entries reason st : Opener.reject_all reason st = reject_entries reason (map st) st.
Proof. reflexivity. Qed.

Lemma reject_entries_spec reason l : forall st,
  let st' := reject_entries reason l st in
  id st' = id st /\
  issued st' = issued st /\
  callbacks st' = (callbacks st ++ List.map (fun e => (pc_owner (snd e), Reject reason)) l)%list /\
  (forall k e, In (k, e) (map st') -> In (k, e) (map st) /\ forall e', ~ In (k, e') l) /\
  (forall k t, In (k, t) (timers st') ->
     exists t0, In (k, t0) (timers st) /\ t_owner t = t_owner t0 /\
                (t_state t = t_state t0 \/ t_state t = Cleared)).
Proof.
  induction l as [|[k0 e0] l IH]; intros st; simpl.
  - rewrite app_nil_r. repeat split; auto. intros k t Hin. exists t; auto.
  - match goal with |- context [reject_entries reason l ?s] => set (st1 := s) end.
    destruct (IH st1) as [Hid [Hiss [Hcb [Hmap Htm]]]].
    fold (reject_entries reason l st1).
    destruct (clear_tid_fields (pc_tid e0) st) as [Cid [Cmap [Ccb Ciss]]].
    repeat split.
    + rewrite Hid. subst st1; simpl. exact Cid.
    + rewrite Hiss. subst st1; simpl. exact Ciss.
    + rewrite Hcb. subst st1; simpl. rewrite Ccb, <- app_assoc. reflexivity.
    + apply Hmap in H as [H _]. subst st1; simpl in H.
      apply map_delete_in in H as [H _]. now rewrite Cmap in H.
    + intros e' [[= <- <-]|Hin].
      * apply Hmap in H as [H _]. subst st1; simpl in H.
        apply map_delete_in in H as [_ H]. rewrite key_is_inject in H. simpl in H.
        rewrite Z.eqb_refl in H. discriminate.
      * apply Hmap in H as [_ H]. exact (H e' Hin).
    + intros k t Hin. apply Htm in Hin as [t1 [Hin [Ho Hs]]].
      subst st1; simpl in Hin. destruct (pc_tid e0) as [tid|]; simpl in Hin.
      * apply clearTimeout_in in Hin as [t0 [Hin [Ho' Hs']]].
        exists t0. repeat split; auto; [congruence|].
        destruct Hs as [Hs|Hs]; [|now right]. rewrite Hs. exact Hs'.
      * exists t1; auto.
Qed.

Lemma reject_all_map reason st : map (Opener.reject_all reason st) = [].
Proof.
  rewrite reject_all_entries.
  destruct (reject_entries_spec reason (map st) st) as [_ [_ [_ [Hmap _]]]].
  destruct (map (reject_entries reason (map st) st)) as [|[k e] m]; [reflexivity|].
  exfalso. destruct (Hmap k e (or_introl eq_refl)) as [Hin Hno]. exact (Hno e Hin).
Qed.

Lemma consistent_reject_all reason st : consistent st -> consistent (Opener.reject_all reason st).
Proof.
  intros C. pose proof (reject_all_map reason st) as Hm.
  rewrite reject_all_entries in *.
  destruct (reject_entries_spec reason (map st) st) as [Hid [_ [Hcb [_ Htm]]]].
  destruct C as [H1 H2 H3 H4 H5].
  split; rewrite ?Hm, ?Hid; simpl; try tauto.
  - intros k t Hin. apply Htm in Hin as [t0 [Hin [Ho _]]]. rewrite Ho. eauto.
  - intros k s. rewrite Hcb, in_app_iff, in_map_iff.
    intros [Hin|[[k0 e0] [[= <- <-] Hin]]]; [eauto|]. simpl.
    rewrite (H1 _ _ Hin). eauto.
Qed.

Lemma consistent_opener_step T st ev : consistent st -> consistent (Opener.step T st ev).
Proof.
  intros C. destruct ev as [method params timeout send|m|message| |tid]; simpl.
  - unfold Opener.call. destruct C as [H1 H2 H3 H4 H5]. destruct send.
    + split; simpl.
      * intros k e Hin. apply map_set_in in Hin as [Hin|[-> ->]]; eauto.
      * intros k e Hin. apply map_set_in in Hin as [Hin|[-> ->]]; [|lia].
        apply H2 in Hin. lia.
      * intros k t Hin. apply in_app_iff in Hin as [Hin|[[= <- <-]|[]]]; simpl; [|lia].
        apply H3 in Hin. lia.
      * intros k s Hin. apply H4 in Hin. lia.
      * intros k d e Hin Hmap. apply map_set_in in Hmap as [Hmap|[-> ->]].
        -- exact (H5 _ _ _ Hin Hmap).
        -- apply H4 in Hin. lia.
    + split; simpl; auto.
      * intros k e Hin. apply H2 in Hin. lia.
      * intros k t Hin. apply H3 in Hin. lia.
      * intros k s Hin. apply in_app_iff in Hin as [Hin|[[= <- <-]|[]]]; [|lia].
        apply H4 in Hin. lia.
      * intros k d e Hin. apply in_app_iff in Hin as [Hin|[[=]|[]]]. eauto.
  - unfold Opener.on_message. destruct m as [raw|d]; [now repeat apply consistent_log|].
    destruct (if truthy d then d?."id" else JUndefined) as [| | |q| | |]; try exact C.
    destruct (map_get (map st) q) as [entry|] eqn:G; [|exact C].
    apply map_get_some in G as [k [Hin Hk]].
    pose proof (owner_is_key _ C _ _ Hin) as Ho.
    pose proof (keys_issued _ C _ _ Hin) as Hle.
    assert (C1 : forall s,
               (forall d0, s = Resolve d0 -> forall e, In (pc_owner entry, e) (map st) ->
                                                       key_is q (pc_owner entry, e) = true) ->
               consistent (invoke_callback
                             (clear_tid (pc_tid entry) (with_map st (map_delete (map st) q)))
                             (pc_owner entry) s)).
    { intros s Hs.
      pose proof (consistent_settle st q (pc_owner entry) s C ltac:(lia) Hs) as C2.
      destruct C2 as [H1 H2 H3 H4 H5].
      destruct (pc_tid entry) as [tid|]; split; simpl in *; auto.
      intros k0 t Hin0. apply clearTimeout_in in Hin0 as [t0 [Hin0 [Ho' _]]].
      rewrite Ho'. eauto. }
    destruct (truthy d?."error"); apply C1.
    + intros d0 [=].
    + intros d0 _ e _. rewrite Ho. exact Hk.
  - unfold Opener.on_error. now apply consistent_reject_all, consistent_log.
  - unfold Opener.on_close. now apply consistent_reject_all, consistent_log.
  - now apply consistent_timer.
Qed.

Lemma consistent_injector_step st ev : consistent st -> consistent (Injector.step st ev).
Proof.
  intros C. destruct ev as [method params timeout send|m|message| |tid]; simpl; auto.
  - unfold Injector.call. destruct C as [H1 H2 H3 H4 H5]. destruct send.
    + split; simpl.
      * intros k e Hin. apply map_set_in in Hin as [Hin|[-> ->]]; eauto.
      * intros k e Hin. apply map_set_in in Hin as [Hin|[-> ->]]; [|lia].
        apply H2 in Hin. lia.
      * intros k t Hin. apply in_app_iff in Hin as [Hin|[[= <- <-]|[]]]; simpl; [|lia].
        apply H3 in Hin. lia.
      * intros k s Hin. apply H4 in Hin. lia.
      * intros k d e Hin Hmap. apply map_set_in in Hmap as [Hmap|[-> ->]].
        -- exact (H5 _ _ _ Hin Hmap).
        -- apply H4 in Hin. lia.
    + split; simpl; auto.
      * intros k e Hin. apply H2 in Hin. lia.
      * intros k t Hin. apply H3 in Hin. lia.
      * intros k s Hin. apply in_app_iff in Hin as [Hin|[[= <- <-]|[]]]; [|lia].
        apply H4 in Hin. lia.
      * intros k d e Hin. apply in_app_iff in Hin as [Hin|[[=]|[]]]. eauto.
  - unfold Injector.on_message. destruct m as [raw|d]; [exact C|].
    destruct (if truthy d then d?."id" else JUndefined) as [| | |q| | |]; try exact C.
    destruct (map_get (map st) q) as [entry|] eqn:G; [|exact C].
    apply map_get_some in G as [k [Hin Hk]].
    pose proof (owner_is_key _ C _ _ Hin) as Ho.
    pose proof (keys_issued _ C _ _ Hin) as Hle.
    apply consistent_settle; auto; [lia|].
    intros d0 _ e _. rewrite Ho. exact Hk.
  - now apply consistent_timer.
Qed.

Lemma fold_left_invariant {S E : Type} (P : S -> Prop) (step : S -> E -> S) :
  (forall s e, P s -> P (step s e)) ->
  forall events s, P s -> P (fold_left step events s).
Proof. intros Hstep events. induction events as [|e events IH]; simpl; auto. Qed.

Lemma consistent_opener T events : consistent (Opener.cdp T events).
Proof.
  unfold Opener.cdp. apply fold_left_invariant; [|exact consistent_init].
  intros s e. apply consistent_opener_step.
Qed.

Lemma consistent_injector events : consistent (Injector.cdp events).
Proof.
  unfold Injector.cdp. apply fold_left_invariant; [|exact consistent_init].
  intros s e. apply consistent_injector_step.
Qed.

Lemma frame_with_id_is_truthy d q : d?."id" = JNum q -> truthy d = true.
Proof. destruct d; simpl; try discriminate; auto. Qed.

Lemma map_has_delete m q : map_has (map_delete m q) q = false.
Proof.
  unfold map_has, map_delete. induction m as [|e m IH]; simpl; [reflexivity|].
  destruct (key_is q e) eqn:E; simpl; [exact IH|]. now rewrite E.
Qed.

Lemma map_get_key st q key entry :
  consistent st -> (q == inject_Z key)%Q -> In (key, entry) (map st) ->
  exists e, map_get (map st) q = Some e /\ pc_owner e = key.
Proof.
  intros C Hq Hin.
  assert (Hk : key_is q (key, entry) = true)
    by (rewrite (key_is_Qeq q key) by exact Hq; apply Z.eqb_refl).
  destruct (map_get_in _ _ _ _ Hin Hk) as [e G]. exists e. split; [exact G|].
  apply map_get_some in G as [k [Hin' Hk']].
  rewrite (owner_is_key _ C _ _ Hin').
  exact (key_is_same q (k, e) (key, entry) Hk' Hk).
Qed.

(** A promise with an entry in the table is pending or was rejected. *)
Lemma tabled_not_resolved st key entry s :
  consistent st -> In (key, entry) (map st) -> promise_state st key = Some s ->
  exists reason, s = Reject reason.
Proof.
  intros C Hin Hs. destruct s as [d|reason]; [|now exists reason].
  exfalso. apply first_for_in in Hs.
  exact (resolved_are_gone _ C _ _ _ Hs Hin).
Qed.

Lemma first_for_rejections key reason (l : list (Z * pending_call)) :
  (exists e, In e l /\ pc_owner (snd e) = key) ->
  first_for key (List.map (fun e => (pc_owner (snd e), Reject reason)) l) = Some (Reject reason).
Proof.
  unfold first_for. induction l as [|e l IH]; intros [e0 [Hin Ho]]; [destruct Hin|].
  simpl. destruct (pc_owner (snd e) =? key) eqn:E; [reflexivity|].
  destruct Hin as [->|Hin]; [rewrite Ho, Z.eqb_refl in E; discriminate|].
  apply IH. now exists e0.
Qed.

(** A call nothing can settle any more: no entry and no armed timer holds
    its callbacks. *)
Definition orphaned (st : mux) (k : Z) : Prop :=
  In k (issued st) /\ k <= id st /\ promise_state st k = None /\
  (forall key e, In (key, e) (map st) -> pc_owner e <> k) /\
  (forall tid t, In (tid, t) (timers st) -> t_state t = Armed -> t_owner t <> k).

Lemma first_for_other k k' s l :
  k' <> k -> first_for k l = None -> first_for k (l ++ [(k', s)])%list = None.
Proof.
  intros Hne H. rewrite first_for_app, H. unfold first_for; simpl.
  destruct (k' =? k) eqn:E; [apply Z.eqb_eq in E; contradiction|reflexivity].
Qed.

Lemma orphaned_timer reason st tid k : orphaned st k -> orphaned (on_timer reason st tid) k.
Proof.
  intros O. unfold on_timer.
  destruct (timer_lookup (timers st) tid) as [t|] eqn:L; [|exact O].
  destruct (t_state t) eqn:S; try exact O.
  destruct O as [Hiss [Hle [Hp [Hm Ht]]]].
  pose proof (Ht _ _ (timer_lookup_in _ _ _ L) S) as Hne.
  assert (Ht' : forall tid0 t0,
             In (tid0, t0) (set_timer_state Fired tid (timers st)) ->
             t_state t0 = Armed -> t_owner t0 <> k).
  { intros tid0 t0 Hin Hs. apply set_timer_state_in in Hin as [t1 [Hin [Ho [Hs'|Hs']]]];
      [|congruence]. rewrite Ho. apply (Ht _ _ Hin). congruence. }
  unfold timeout_callback. simpl.
  destruct (map_has (map st) (inject_Z (id st))); repeat split; simpl; auto.
  - rewrite promise_state_first_for in *. simpl. now apply first_for_other.
  - intros key e Hin. apply map_delete_in in Hin as [Hin _]. eauto.
Qed.

Lemma orphaned_opener_step T st ev k : orphaned st k -> orphaned (Opener.step T st ev) k.
Proof.
  intros O. destruct ev as [method params timeout send|m|message| |tid]; simpl.
  - destruct O as [Hiss [Hle [Hp [Hm Ht]]]]. unfold Opener.call. destruct send.
    + repeat split; simpl; auto; try lia.
      * apply in_app_iff. now left.
      * intros key e Hin. apply map_set_in in Hin as [Hin|[-> ->]]; simpl; [eauto|lia].
      * intros tid t Hin. apply in_app_iff in Hin as [Hin|[[= <- <-]|[]]]; simpl; [eauto|].
        intros _. lia.
    + repeat split; simpl; auto; try lia.
      * apply in_app_iff. now left.
      * rewrite promise_state_first_for in *. simpl. apply first_for_other; [lia|exact Hp].
  - unfold Opener.on_message. destruct m as [raw|d].
    { destruct O as [Hiss [Hle [Hp [Hm Ht]]]]. repeat split; auto. }
    destruct (if truthy d then d?."id" else JUndefined) as [| | |q| | |]; try exact O.
    destruct (map_get (map st) q) as [entry|] eqn:G; [|exact O].
    apply map_get_some in G as [key [Hin _]].
    destruct O as [Hiss [Hle [Hp [Hm Ht]]]].
    pose proof (Hm _ _ Hin) as Hne.
    assert (O1 : forall s,
               orphaned (invoke_callback
                           (clear_tid (pc_tid entry) (with_map st (map_delete (map st) q)))
                           (pc_owner entry) s) k).
    { intros s.
      destruct (clear_tid_fields (pc_tid entry) (with_map st (map_delete (map st) q)))
        as [Cid [Cmap [Ccb Ciss]]].
      repeat split; simpl; rewrite ?Cid, ?Cmap, ?Ciss; simpl; auto.
      - rewrite promise_state_first_for in *. simpl. rewrite Ccb. simpl.
        now apply first_for_other.
      - intros key0 e Hin0. apply map_delete_in in Hin0 as [Hin0 _]. eauto.
      - intros tid t Hin0 Hs. destruct (pc_tid entry) as [tid0|]; simpl in Hin0; [|eauto].
        apply clearTimeout_in in Hin0 as [t0 [Hin0 [Ho [Hs'|Hs']]]]; [|congruence].
        rewrite Ho. apply (Ht _ _ Hin0). congruence. }
    destruct (truthy d?."error"); apply O1.
  - unfold Opener.on_error. rewrite reject_all_entries.
    set (st0 := log st _).
    destruct (reject_entries_spec "ws error" (map st0) st0) as [Hid [Hiss' [Hcb [Hmap Htm]]]].
    destruct O as [Hiss [Hle [Hp [Hm Ht]]]].
    repeat split.
    + rewrite Hiss'. exact Hiss.
    + rewrite Hid. exact Hle.
    + rewrite promise_state_first_for, Hcb, first_for_app.
      rewrite promise_state_first_for in Hp. simpl. rewrite Hp.
      apply first_for_not_in. intros s Hin. apply in_map_iff in Hin as [[k0 e0] [[= Ho _] Hin]].
      exact (Hm _ _ Hin Ho).
    + intros key e Hin. apply Hmap in Hin as [Hin _]. eauto.
    + intros tid t Hin Hs. apply Htm in Hin as [t0 [Hin [Ho [Hs'|Hs']]]]; [|congruence].
      rewrite Ho. apply (Ht _ _ Hin). congruence.
  - unfold Opener.on_close. rewrite reject_all_entries.
    set (st0 := log st _).
    destruct (reject_entries_spec "ws closed" (map st0) st0) as [Hid [Hiss' [Hcb [Hmap Htm]]]].
    destruct O as [Hiss [Hle [Hp [Hm Ht]]]].
    repeat split.
    + rewrite Hiss'. exact Hiss.
    + rewrite Hid. exact Hle.
    + rewrite promise_state_first_for, Hcb, first_for_app.
      rewrite promise_state_first_for in Hp. simpl. rewrite Hp.
      apply first_for_not_in. intros s Hin. apply in_map_iff in Hin as [[k0 e0] [[= Ho _] Hin]].
      exact (Hm _ _ Hin Ho).
    + intros key e Hin. apply Hmap in Hin as [Hin _]. eauto.
    + intros tid t Hin Hs. apply Htm in Hin as [t0 [Hin [Ho [Hs'|Hs']]]]; [|congruence].
      rewrite Ho. apply (Ht _ _ Hin). congruence.
  - now apply orphaned_timer.
Qed.

Lemma orphaned_injector_step st ev k : orphaned st k -> orphaned (Injector.step st ev) k.
Proof.
  intros O. destruct ev as [method params timeout send|m|message| |tid]; simpl; auto.
  - destruct O as [Hiss [Hle [Hp [Hm Ht]]]]. unfold Injector.call. destruct send.
    + repeat split; simpl; auto; try lia.
      * apply in_app_iff. now left.
      * intros key e Hin. apply map_set_in in Hin as [Hin|[-> ->]]; simpl; [eauto|lia].
      * intros tid t Hin. apply in_app_iff in Hin as [Hin|[[= <- <-]|[]]]; simpl; [eauto|].
        intros _. lia.
    + repeat split; simpl; auto; try lia.
      * apply in_app_iff. now left.
      * rewrite promise_state_first_for in *. simpl. apply first_for_other; [lia|exact Hp].
  - unfold Injector.on_message. destruct m as [raw|d]; [exact O|].
    destruct (if truthy d then d?."id" else JUndefined) as [| | |q| | |]; try exact O.
    destruct (map_get (map st) q) as [entry|] eqn:G; [|exact O].
    apply map_get_some in G as [key [Hin _]].
    destruct O as [Hiss [Hle [Hp [Hm Ht]]]].
    pose proof (Hm _ _ Hin) as Hne.
    repeat split; simpl; auto.
    + rewrite promise_state_first_for in *. simpl. now apply first_for_other.
    + intros key0 e Hin0. apply map_delete_in in Hin0 as [Hin0 _]. eauto.
  - now apply orphaned_timer.
Qed.

Lemma orphaned_is_pending st k : orphaned st k -> is_pending st k = true.
Proof.
  intros [Hiss [_ [Hp _]]]. unfold is_pending. rewrite Hp, andb_true_r.
  apply existsb_exists. exists k. split; [exact Hiss|apply Z.eqb_refl].
Qed.

(** *** One call at a time

    [main] awaits each call before it issues the next.  Under that use of
    the opener's multiplexer the shared counter names the only entry of the
    table, and a call that is still pending has its timer still armed: no
    call outlives its deadline. *)

Local Open Scope list_scope.

(** The caller invokes only when nothing is in flight. *)
Definition awaited (st : mux) (ev : event) : Prop :=
  match ev with
  | Invoke _ _ _ _ => map st = []
  | _ => True
  end.

Fixpoint one_at_a_time (T : Z) (st : mux) (events : list event) : Prop :=
  match events with
  | [] => True
  | ev :: rest => awaited st ev /\ one_at_a_time T (Opener.step T st ev) rest
  end.

Definition armed_timer (st : mux) (k : Z) : Prop :=
  exists t, In (k, t) (timers st) /\ t_state t = Armed.

Record in_step (st : mux) : Prop := {
  timer_keys : NoDup (List.map fst (timers st));
  timer_range : forall tid t, In (tid, t) (timers st) -> tid <= id st /\ t_owner t = tid;
  table_shape : map st = [] \/
                exists method,
                  map st = [(id st, {| pc_owner := id st; pc_tid := Some (id st);
                                       pc_method := method |})];
  armed_is_current : forall tid, armed_timer st tid -> tid = id st /\ map st <> [];
  pending_is_current : forall k, In k (issued st) -> promise_state st k = None ->
                                 k = id st /\ map st <> [] /\ armed_timer st k
}.

Lemma set_timer_state_keys s tid ts :
  List.map fst (set_timer_state s tid ts) = List.map fst ts.
Proof.
  unfold set_timer_state. rewrite List.map_map. apply map_ext.
  intros [k t]. simpl. destruct (k =? tid); reflexivity.
Qed.

Lemma clearTimeout_keys tid ts : List.map fst (clearTimeout tid ts) = List.map fst ts.
Proof.
  unfold clearTimeout. destruct (timer_lookup ts tid) as [t|]; [|reflexivity].
  destruct (t_state t); try reflexivity. apply set_timer_state_keys.
Qed.

Lemma timer_lookup_unique ts k t :
  NoDup (List.map fst ts) -> In (k, t) ts -> timer_lookup ts k = Some t.
Proof.
  unfold timer_lookup. induction ts as [|[k' t'] ts IH]; simpl; [tauto|].
  intros Hnd Hin. inversion Hnd as [|? ? Hnot Hnd']; subst.
  destruct Hin as [[= -> ->]|Hin].
  - now rewrite Z.eqb_refl.
  - destruct (Z.eqb_spec k' k) as [->|Hne]; [|now apply IH].
    exfalso. apply Hnot. apply in_map_iff. now exists (k, t).
Qed.

Lemma set_timer_state_not_armed s tid ts k t :
  s <> Armed -> In (k, t) (set_timer_state s tid ts) -> t_state t = Armed ->
  k <> tid /\ In (k, t) ts.
Proof.
  unfold set_timer_state. intros Hs Hin Ha. apply in_map_iff in Hin as [[k0 t0] [Heq Hin]].
  simpl in Heq. destruct (Z.eqb_spec k0 tid) as [->|Hne]; injection Heq as <- <-.
  - simpl in Ha. congruence.
  - auto.
Qed.

Lemma clearTimeout_not_armed tid ts k t :
  NoDup (List.map fst ts) ->
  In (k, t) (clearTimeout tid ts) -> t_state t = Armed -> k <> tid /\ In (k, t) ts.
Proof.
  intros Hnd Hin Ha. unfold clearTimeout in Hin.
  destruct (timer_lookup ts tid) as [t0|] eqn:L.
  - destruct (t_state t0) eqn:S0.
    + apply (set_timer_state_not_armed Cleared tid ts k t); [discriminate|exact Hin|exact Ha].
    + split; [|exact Hin]. intros ->.
      rewrite (timer_lookup_unique ts tid t Hnd Hin) in L. congruence.
    + split; [|exact Hin]. intros ->.
      rewrite (timer_lookup_unique ts tid t Hnd Hin) in L. congruence.
  - split; [|exact Hin]. intros ->.
    rewrite (timer_lookup_unique ts tid t Hnd Hin) in L. discriminate.
Qed.

Lemma in_step_init : in_step init.
Proof.
  split; simpl.
  - constructor.
  - tauto.
  - now left.
  - intros tid [t [[] _]].
  - tauto.
Qed.

(** The state after the one call in flight has been settled with [s] and
    its timer [next] is no longer armed. *)
Lemma in_step_settled st st' s :
  in_step st ->
  map st <> [] ->
  id st' = id st -> map st' = [] -> issued st' = issued st ->
  callbacks st' = callbacks st ++ [(id st, s)] ->
  List.map fst (timers st') = List.map fst (timers st) ->
  (forall k t, In (k, t) (timers st') ->
               (exists t0, In (k, t0) (timers st) /\ t_owner t = t_owner t0) /\
               (t_state t = Armed -> k <> id st /\ In (k, t) (timers st))) ->
  in_step st'.
Proof.
  intros [H1 H2 H3 H4 H5] Hne Hid Hmap Hiss Hcb Hkeys Htm. split.
  - now rewrite Hkeys.
  - intros tid t Hin. destruct (Htm _ _ Hin) as [[t0 [Hin0 Ho]] _].
    rewrite Hid, Ho. exact (H2 _ _ Hin0).
  - now left.
  - intros tid [t [Hin Ha]]. destruct (Htm _ _ Hin) as [_ Harm].
    destruct (Harm Ha) as [Hk Hin0]. exfalso. apply Hk.
    exact (proj1 (H4 tid (ex_intro _ t (conj Hin0 Ha)))).
  - intros k Hin Hp. rewrite Hiss in Hin.
    rewrite promise_state_first_for, Hcb, first_for_app in Hp.
    destruct (first_for k (callbacks st)) eqn:E; [discriminate|].
    destruct (H5 k Hin E) as [-> _]. unfold first_for in Hp. simpl in Hp.
    rewrite Z.eqb_refl in Hp. discriminate.
Qed.

Lemma NoDup_snoc {A : Type} (l : list A) (x : A) :
  ~ In x l -> NoDup l -> NoDup (l ++ [x]).
Proof.
  intros Hx Hl. induction Hl as [|y l Hy Hl IH]; simpl.
  - constructor; [tauto|constructor].
  - constructor.
    + rewrite in_app_iff. simpl. intros [H|[H|[]]]; [contradiction|].
      subst. apply Hx. now left.
    + apply IH. intros H. apply Hx. now right.
Qed.

Lemma in_step_log st line : in_step st -> in_step (log st line).
Proof. intros [H1 H2 H3 H4 H5]. split; auto. Qed.

Lemma in_step_reject reason st : in_step st -> in_step (Opener.reject_all reason st).
Proof.
  intros I. pose proof I as [H1 H2 H3 H4 H5].
  unfold Opener.reject_all.
  destruct H3 as [Hm|[method Hm]]; rewrite Hm; [exact I|]. simpl.
  assert (Hne : map st <> []) by (rewrite Hm; discriminate).
  eapply (in_step_settled st); [exact I|exact Hne|reflexivity| |reflexivity|reflexivity|
                                apply clearTimeout_keys|].
  - simpl. rewrite Hm. unfold map_delete. simpl. rewrite key_is_inject. simpl.
    now rewrite Z.eqb_refl.
  - simpl. intros k t Hin. split.
    + apply clearTimeout_in in Hin as [t0 [Hin0 [Ho _]]]. now exists t0.
    + intros Ha. exact (clearTimeout_not_armed _ _ _ _ H1 Hin Ha).
Qed.

Lemma in_step_step T st ev : in_step st -> awaited st ev -> in_step (Opener.step T st ev).
Proof.
  intros I Haw. pose proof I as [H1 H2 H3 H4 H5].
  assert (Hidle : map st = [] -> forall k, In k (issued st) -> promise_state st k <> None).
  { intros Hm k Hin Hp. destruct (H5 k Hin Hp) as [_ [Hne _]]. contradiction. }
  destruct ev as [method params timeout send|m|message| |tid]; simpl in *.
  - (* a call, the table being empty *)
    unfold Opener.call. destruct send; split; simpl; rewrite ?Haw; simpl.
    + rewrite map_app. simpl. apply NoDup_snoc; [|exact H1].
      intros Hin. apply in_map_iff in Hin as [[k t] [Hk Hin]]. simpl in Hk. subst k.
      apply H2 in Hin. lia.
    + intros k t Hin. apply in_app_iff in Hin as [Hin|[[= <- <-]|[]]]; simpl; [|lia].
      apply H2 in Hin. lia.
    + right. now exists method.
    + intros k [t [Hin Ha]]. apply in_app_iff in Hin as [Hin|[[= <- <-]|[]]].
      * destruct (H4 k (ex_intro _ t (conj Hin Ha))) as [_ Hne]. contradiction.
      * split; [reflexivity|discriminate].
    + intros k Hin Hp. rewrite promise_state_first_for in Hp. simpl in Hp.
      apply in_app_iff in Hin as [Hin|[<-|[]]].
      * exfalso. exact (Hidle Haw k Hin Hp).
      * split; [reflexivity|]. split; [discriminate|].
        eexists. split; [apply in_app_iff; right; left; reflexivity|reflexivity].
    + exact H1.
    + intros k t Hin. apply H2 in Hin. lia.
    + now left.
    + intros k [t [Hin Ha]].
      destruct (H4 k (ex_intro _ t (conj Hin Ha))) as [_ Hne]. contradiction.
    + intros k Hin Hp. rewrite promise_state_first_for in Hp. simpl in Hp.
      rewrite first_for_app in Hp.
      apply in_app_iff in Hin as [Hin|[<-|[]]].
      * exfalso. apply (Hidle Haw k Hin). rewrite promise_state_first_for.
        destruct (first_for k (callbacks st)); [discriminate|reflexivity].
      * exfalso. destruct (first_for (id st + 1) (callbacks st)); [discriminate|].
        unfold first_for in Hp. simpl in Hp. rewrite Z.eqb_refl in Hp. discriminate.
  - (* a frame *)
    unfold Opener.on_message. destruct m as [raw|d].
    { split; simpl; auto. }
    destruct (if truthy d then d?."id" else JUndefined) as [| | |q| | |]; try exact I.
    destruct (map_get (map st) q) as [entry|] eqn:G; [|exact I].
    destruct H3 as [Hm|[method Hm]]; [rewrite Hm in G; discriminate|].
    assert (Hentry : entry = {| pc_owner := id st; pc_tid := Some (id st); pc_method := method |}
                     /\ key_is q (id st, entry) = true).
    { apply map_get_some in G as [k [Hin Hk]]. rewrite Hm in Hin.
      destruct Hin as [[= <- <-]|[]]. auto. }
    destruct Hentry as [-> Hkey].
    assert (Hdel : map_delete (map st) q = []).
    { rewrite Hm. unfold map_delete. simpl. now rewrite Hkey. }
    assert (Hne : map st <> []) by (rewrite Hm; discriminate).
    destruct (truthy d?."error");
      (eapply (in_step_settled st); [exact I|exact Hne|reflexivity|exact Hdel|reflexivity
                                     |reflexivity|apply clearTimeout_keys|]);
      (intros k t Hin; split;
       [apply clearTimeout_in in Hin as [t0 [Hin0 [Ho _]]]; now exists t0
       |intros Ha; exact (clearTimeout_not_armed _ _ _ _ H1 Hin Ha)]).
  - (* the socket errors *)
    unfold Opener.on_error. now apply in_step_reject, in_step_log.
  - (* the socket closes *)
    unfold Opener.on_close. now apply in_step_reject, in_step_log.
  - (* a timer comes due *)
    unfold on_timer. destruct (timer_lookup (timers st) tid) as [t|] eqn:L; [|exact I].
    destruct (t_state t) eqn:S; try exact I.
    pose proof (timer_lookup_in _ _ _ L) as Hin.
    destruct (H4 tid (ex_intro _ t (conj Hin S))) as [-> Hne].
    destruct H3 as [Hm|[method Hm]]; [contradiction|].
    unfold timeout_callback. cbn [map id with_timers]. rewrite Hm. unfold map_has.
    cbn [existsb]. rewrite key_is_inject. cbn [fst]. rewrite Z.eqb_refl. cbn [orb].
    destruct (H2 _ _ Hin) as [_ Ho].
    eapply (in_step_settled st); [exact I|exact Hne|reflexivity| |reflexivity| |
                                  apply set_timer_state_keys|].
    + simpl. unfold map_delete. simpl. rewrite key_is_inject. simpl.
      now rewrite Z.eqb_refl.
    + simpl. now rewrite Ho.
    + simpl. intros k t' Hin'. split.
      * apply set_timer_state_in in Hin' as [t0 [Hin0 [Ho' _]]]. now exists t0.
      * intros Ha. apply (set_timer_state_not_armed Fired (id st) (timers st));
          [discriminate|exact Hin'|exact Ha].
Qed.

Lemma one_at_a_time_in_step T events : forall st,
  in_step st -> one_at_a_time T st events -> in_step (fold_left (Opener.step T) events st).
Proof.
  induction events as [|ev rest IH]; intros st I Hseq; simpl; [exact I|].
  destruct Hseq as [Haw Hrest]. apply IH; [now apply in_step_step|exact Hrest].
Qed.

(** X1: used one call at a time, the opener's multiplexer settles every call
    by its deadline: a call that is still pending is the one in the table,
    and its timer is still armed. *)
Lemma awaited_calls_settle_by_deadline T events :
  one_at_a_time T init events ->
  forall k,
    In k (issued (Opener.cdp T events)) ->
    promise_state (Opener.cdp T events) k = None ->
    armed_timer (Opener.cdp T events) k /\
    exists entry, map (Opener.cdp T events) = [(k, entry)].
Proof.
  intros Hseq k Hin Hp.
  pose proof (one_at_a_time_in_step T events init in_step_init Hseq) as I.
  fold (Opener.cdp T events) in I.
  destruct (pending_is_current _ I k Hin Hp) as [-> [Hne Ha]].
  split; [exact Ha|].
  destruct (table_shape _ I) as [Hm|[method Hm]]; [contradiction|]. eauto.
Qed.

(** A call that is awaited before the next is made. *)
Lemma awaited_calls_settle_by_deadline_witness :
  let events := [ Invoke "Runtime.enable" no_params None Sent;
                  Message (Parsed (reply_frame 1 no_params));
                  Invoke "DOM.enable" no_params (Some 500) Sent ] in
  one_at_a_time 10000 init events /\
  promise_state (Opener.cdp 10000 events) 2 = None /\
  armed_timer (Opener.cdp 10000 events) 2.
Proof.
  intros events.
  assert (Hseq : one_at_a_time 10000 init events) by (simpl; auto).
  split; [exact Hseq|]. split; [reflexivity|].
  exact (proj1 (awaited_calls_settle_by_deadline 10000 events Hseq 2
                  ltac:(simpl; auto) eq_refl)).
Defined.

Lemma awaited_calls_example :
  let events := [ Invoke "Runtime.enable" no_params None Sent;
                  Message (Parsed (reply_frame 1 no_params));
                  Invoke "DOM.enable" no_params (Some 500) Sent;
                  TimerFires 2;
                  Message (Parsed (reply_frame 2 no_params)) ] in
  one_at_a_time 10000 init events /\
  promise_state (Opener.cdp 10000 events) 1 = Some (Resolve (reply_frame 1 no_params)) /\
  promise_state (Opener.cdp 10000 events) 2 = Some (Reject "cdp timeout for DOM.enable").
Proof. simpl. repeat split; reflexivity. Qed.

(** Two calls in flight and no reply: the schedule on which the timer of
    the first call finds the entry of the second. *)
Definition two_calls_time_out : list event :=
  [ Invoke "Runtime.enable" no_params None Sent;
    Invoke "Page.bringToFront" no_params None Sent;
    TimerFires 1;
    TimerFires 2 ].

(** C1: "the returned promise is settled exactly once ... never zero once the
    call's timeout deadline has passed, including when several calls are in
    flight concurrently".  The opener's multiplexer at two concurrent calls
    that get no reply: the timer of call 1 reads the shared counter, which
    is 2 by then, deletes the entry of call 2 and rejects call 1; the timer
    of call 2 then finds no entry.  Call 2 was issued, its timer has fired,
    and whatever happens on the connection afterwards its promise stays
    pending. *)
Theorem concurrent_timeout_orphans_a_call :
  forall (CDP_TIMEOUT_MS : Z) (later : list event),
    let st := Opener.cdp CDP_TIMEOUT_MS two_calls_time_out in
    In 2 (issued st) /\
    option_map t_state (timer_lookup (timers st) 2) = Some Fired /\
    promise_state st 1 = Some (Reject "cdp timeout for Runtime.enable") /\
    is_pending (fold_left (Opener.step CDP_TIMEOUT_MS) later st) 2 = true.
Proof.
  intros T later st.
  repeat split; try reflexivity.
  - simpl. auto.
  - apply orphaned_is_pending.
    apply fold_left_invariant; [intros s e; apply orphaned_opener_step|].
    unfold orphaned. repeat split.
    + simpl. auto.
    + simpl. lia.
    + simpl. intros key e [[= <- <-]|[]]. simpl. lia.
    + simpl. intros tid t [[= <- <-]|[[= <- <-]|[]]]; simpl; discriminate.
Qed.

(** The same defect in the injector, where timers are never cancelled: one
    call at a time is enough.  Call 1 is answered; call 2 is still waiting
    when the timer of call 1 comes due; the reply to call 2 arrives
    afterwards and is dropped. *)
Lemma injector_stale_timer_orphans_a_call :
  forall later : list event,
    let st := Injector.cdp
                [ Invoke "Runtime.enable" no_params None Sent;
                  Message (Parsed (reply_frame 1 no_params));
                  Invoke "Runtime.evaluate" no_params None Sent;
                  TimerFires 1;
                  Message (Parsed (reply_frame 2 no_params));
                  TimerFires 2 ] in
    promise_state st 1 = Some (Resolve (reply_frame 1 no_params)) /\
    is_pending (fold_left Injector.step later st) 2 = true.
Proof.
  intros later st. split; [reflexivity|].
  apply orphaned_is_pending.
  apply fold_left_invariant; [intros s e; apply orphaned_injector_step|].
  unfold orphaned. repeat split.
  - simpl. auto.
  - simpl. lia.
  - simpl. tauto.
  - simpl. intros tid t [[= <- <-]|[[= <- <-]|[]]]; simpl; discriminate.
Qed.

(** C2, as stated, fails on the injector's multiplexer: the frame
    [{id: 1, error: {...}}] resolves call 1, with the frame as its value. *)
Lemma injector_resolves_error_frame :
  let st := Injector.cdp [ Invoke "Runtime.evaluate" no_params None Sent;
                           Message (Parsed (error_frame 1 "Cannot find context")) ] in
  promise_state st 1 = Some (Resolve (error_frame 1 "Cannot find context")).
Proof. reflexivity. Qed.

(** C2 (amended): in the opener's multiplexer a frame that matches a call
    in the table and whose [error] field is truthy leaves that call
    rejected and out of the table; a call that was still pending is
    rejected with the frame's error message.  The injector's multiplexer
    makes no such check: it resolves the pending call with the frame. *)
Theorem error_frame_settlement :
  forall (events : list event) (d : jsval) (q : Q) (key : Z) (entry : pending_call),
    d?."id" = JNum q ->
    (q == inject_Z key)%Q ->
    truthy d?."error" = true ->
    (forall CDP_TIMEOUT_MS : Z,
        let st := Opener.cdp CDP_TIMEOUT_MS events in
        let st' := Opener.step CDP_TIMEOUT_MS st (Message (Parsed d)) in
        In (key, entry) (map st) ->
        (exists reason, promise_state st' key = Some (Reject reason)) /\
        (promise_state st key = None ->
         promise_state st' key = Some (Reject (Opener.error_reason d?."error"))) /\
        map_has (map st') q = false)
    /\
    (let st := Injector.cdp events in
     let st' := Injector.step st (Message (Parsed d)) in
     In (key, entry) (map st) ->
     promise_state st key = None ->
     promise_state st' key = Some (Resolve d)).
Proof.
  intros events d q key entry Hid Hq Herr. split.
  - intros T st st' Hin.
    pose proof (consistent_opener T events) as C. fold st in C.
    destruct (map_get_key st q key entry C Hq Hin) as [e [G Ho]].
    assert (Hst' : st' = invoke_callback
                           (clear_tid (pc_tid e) (with_map st (map_delete (map st) q)))
                           key (Reject (Opener.error_reason d?."error"))).
    { unfold st'. simpl. unfold Opener.on_message.
      rewrite (frame_with_id_is_truthy d q Hid), Hid, G, Herr, Ho. reflexivity. }
    destruct (clear_tid_fields (pc_tid e) (with_map st (map_delete (map st) q)))
      as [_ [Cmap [Ccb _]]].
    assert (Hp : promise_state st' key =
                 match promise_state st key with
                 | Some s => Some s
                 | None => Some (Reject (Opener.error_reason d?."error"))
                 end).
    { rewrite Hst', !promise_state_first_for. simpl. rewrite Ccb. simpl.
      rewrite first_for_app. unfold first_for at 2. simpl. now rewrite Z.eqb_refl. }
    repeat split.
    + rewrite Hp. destruct (promise_state st key) as [s|] eqn:E; [|eauto].
      destruct (tabled_not_resolved st key entry s C Hin E) as [reason ->]. eauto.
    + intros Hnone. now rewrite Hp, Hnone.
    + rewrite Hst'. simpl. rewrite Cmap. simpl. apply map_has_delete.
  - intros st st' Hin Hnone.
    pose proof (consistent_injector events) as C. fold st in C.
    destruct (map_get_key st q key entry C Hq Hin) as [e [G Ho]].
    unfold st'. simpl. unfold Injector.on_message.
    rewrite (frame_with_id_is_truthy d q Hid), Hid, G, Ho.
    rewrite promise_state_first_for in *. simpl.
    rewrite first_for_app, Hnone. unfold first_for. simpl. now rewrite Z.eqb_refl.
Qed.

Lemma error_frame_settlement_witness :
  let events := [Invoke "Runtime.evaluate" no_params None Sent] in
  let d := error_frame 1 "Cannot find context" in
  promise_state (Opener.step 10000 (Opener.cdp 10000 events) (Message (Parsed d))) 1
  = Some (Reject "Cannot find context")
  /\ promise_state (Injector.step (Injector.cdp events) (Message (Parsed d))) 1
     = Some (Resolve d).
Proof.
  intros events d.
  destruct (error_frame_settlement events d (inject_Z 1) 1
              {| pc_owner := 1; pc_tid := Some 1; pc_method := "Runtime.evaluate" |}
              eq_refl ltac:(reflexivity) eq_refl) as [Hopener _].
  destruct (error_frame_settlement events d (inject_Z 1) 1
              {| pc_owner := 1; pc_tid := None; pc_method := "Runtime.evaluate" |}
              eq_refl ltac:(reflexivity) eq_refl) as [_ Hinjector].
  split.
  - destruct (Hopener 10000 ltac:(simpl; auto)) as [_ [H _]]. exact (H eq_refl).
  - exact (Hinjector ltac:(simpl; auto) eq_refl).
Defined.

(** C3, as stated, fails on the injector's multiplexer, which listens to
    ['message'] only: after the socket has closed, call 1 is still in the
    table and still pending. *)
Lemma injector_close_leaves_call_pending :
  let st := Injector.cdp [ Invoke "Runtime.evaluate" no_params None Sent; WsClose ] in
  map_has (map st) (inject_Z 1) = true /\ is_pending st 1 = true.
Proof. split; reflexivity. Qed.

(** C3 (amended): in the opener's multiplexer, when the socket closes or
    errors the table is emptied, and every call that was in it is left
    rejected; one that was still pending is rejected with the reason of
    the handler.  The injector's multiplexer has no handler for either
    event: its state, table included, is what it was. *)
Theorem close_and_error_reject_the_table :
  (forall (CDP_TIMEOUT_MS : Z) (events : list event) (ev : event) (reason : string)
          (key : Z) (entry : pending_call),
      (ev = WsClose /\ reason = "ws closed") \/
      (exists message, ev = WsError message /\ reason = "ws error") ->
      let st := Opener.cdp CDP_TIMEOUT_MS events in
      let st' := Opener.step CDP_TIMEOUT_MS st ev in
      In (key, entry) (map st) ->
      map st' = [] /\
      (exists r, promise_state st' key = Some (Reject r)) /\
      (promise_state st key = None -> promise_state st' key = Some (Reject reason)))
  /\
  (forall (st : mux) (message : string),
      Injector.step st WsClose = st /\ Injector.step st (WsError message) = st).
Proof.
  split; [|intros st message; split; reflexivity].
  intros T events ev reason key entry Hev st st' Hin.
  pose proof (consistent_opener T events) as C. fold st in C.
  assert (Hst' : exists line, st' = Opener.reject_all reason (log st line)).
  { destruct Hev as [[-> ->]|[message [-> ->]]]; eexists; reflexivity. }
  destruct Hst' as [line Hst']. rewrite Hst'. clear Hst' st'.
  split; [apply reject_all_map|].
  rewrite reject_all_entries.
  destruct (reject_entries_spec reason (map (log st line)) (log st line))
    as [_ [_ [Hcb _]]].
  assert (Hp : promise_state (reject_entries reason (map (log st line)) (log st line)) key =
               match promise_state st key with
               | Some s => Some s
               | None => Some (Reject reason)
               end).
  { rewrite !promise_state_first_for, Hcb, first_for_app. simpl.
    destruct (first_for key (callbacks st)); [reflexivity|].
    apply first_for_rejections. exists (key, entry). split; [exact Hin|].
    exact (owner_is_key _ C _ _ Hin). }
  split.
  - rewrite Hp. destruct (promise_state st key) as [s|] eqn:E; [|eauto].
    destruct (tabled_not_resolved st key entry s C Hin E) as [r ->]. eauto.
  - intros Hnone. now rewrite Hp, Hnone.
Qed.

Lemma close_and_error_reject_the_table_witness :
  let events := [ Invoke "Runtime.enable" no_params None Sent;
                  Invoke "DOM.enable" no_params (Some 500) Sent ] in
  let st' := Opener.step 10000 (Opener.cdp 10000 events) WsClose in
  map st' = [] /\ promise_state st' 2 = Some (Reject "ws closed").
Proof.
  intros events st'.
  destruct close_and_error_reject_the_table as [Hopener _].
  destruct (Hopener 10000 events WsClose "ws closed" 2
              {| pc_owner := 2; pc_tid := Some 2; pc_method := "DOM.enable" |}
              (or_introl (conj eq_refl eq_refl))
              ltac:(simpl; auto)) as [Hmap [_ Hp]].
  split; [exact Hmap|exact (Hp eq_refl)].
Defined.

End MuxFacts.

(** ** Runs of programs *)

Module ScriptFacts.
Import Script.

Section Run.

Variable World : Type.
Variable answer : forall X : Type, request X -> World -> X * World.

Lemma run_bind {A B : Type} (p : prog A) (f : A -> prog B) (w : World) :
  run World answer (bind p f) w =
  let '(tr1, o1, w1) := run World answer p w in
  match o1 with
  | Returned a =>
      let '(tr2, o2, w2) := run World answer (f a) w1 in
      ((tr1 ++ tr2)%list, o2, w2)
  | Thrown e => (tr1, Thrown e, w1)
  end.
Proof.
  revert w. induction p as [a|e|X rq k IH]; intros w; simpl.
  - destruct (run World answer (f a) w) as [[tr2 o2] w2]. reflexivity.
  - reflexivity.
  - destruct (answer X rq w) as [x w1]. rewrite IH.
    destruct (run World answer (k x) w1) as [[tr1 o1] w1'].
    destruct o1 as [a|e]; [|reflexivity].
    destruct (run World answer (f a) w1') as [[tr2 o2] w2]. reflexivity.
Qed.


End Run.

End ScriptFacts.

(** ** The geometry selector *)

Module GeometryFacts.
Import Script NewChat.






(** The loop body on a candidate that has its quadrilateral. *)
Definition select (best : option candidate) (c : jsval * list Q) : option candidate :=
  if Qltb (quad_width (snd c)) 1 || Qltb (quad_height (snd c)) 1 then best
  else match best with
       | None => Some (candidate_of (fst c) (snd c))
       | Some old =>
           if Qltb (c_area old) (quad_area (snd c))
           then Some (candidate_of (fst c) (snd c))
           else best
       end.


Section Run.

Variable World : Type.
Variable answer : forall X : Type, request X -> World -> X * World.


End Run.









End GeometryFacts.

(** ** The injected scripts *)

Module PageFacts.
Import Page.

(** A script that leaves the page as it found it. *)
Definition read_only {A : Type} (m : script A) : Prop :=
  forall pg, snd (m pg) = pg.

Lemma read_only_ret {A : Type} (a : A) : read_only (ret a).
Proof. intros pg. reflexivity. Qed.

Lemma read_only_throw {A : Type} (e : Script.error) : read_only (throw (A := A) e).
Proof. intros pg. reflexivity. Qed.

Lemma read_only_bind {A B : Type} (m : script A) (f : A -> script B) :
  read_only m -> (forall a, read_only (f a)) -> read_only (bind m f).
Proof.
  intros Hm Hf pg. unfold bind. specialize (Hm pg).
  destruct (m pg) as [[e|a] pg1]; simpl in *; subst; [reflexivity|apply Hf].
Qed.

Lemma read_only_lift {A : Type} (r : Script.error + A) : read_only (lift r).
Proof. destruct r; [apply read_only_throw|apply read_only_ret]. Qed.

Lemma read_only_select container s : read_only (select container s).
Proof. intros pg. reflexivity. Qed.

Lemma read_only_read {A : Type} el (property : element -> A) : read_only (read el property).
Proof. intros pg. unfold read. destruct (element_at (document pg) el); reflexivity. Qed.

Lemma read_only_getAttribute el name : read_only (getAttribute el name).
Proof. apply read_only_read. Qed.

Lemma read_only_first_selected sels : read_only (first_selected sels).
Proof.
  induction sels as [|[text s] rest IH]; simpl; [apply read_only_ret|].
  apply read_only_bind; [apply read_only_select|].
  intros [el|]; [apply read_only_ret|exact IH].
Qed.

Lemma verify_read_only : read_only verify.
Proof.
  unfold verify.
  apply read_only_bind; [apply read_only_first_selected|].
  intros [[el used]|]; [|apply read_only_ret].
  repeat (apply read_only_bind;
          [first [apply read_only_read | apply read_only_getAttribute | apply read_only_lift]|];
          intros ?).
  destruct (_ && _ && _); apply read_only_ret.
Qed.


(** C8: the verification expression only reads: the page after it is the
    page before it, so evaluating it again at once gives the same answer,
    and so does the verifier built on it. *)
Theorem verify_is_read_only_and_idempotent :
  forall pg : page,
    let first := verify pg in
    let second := verify (snd first) in
    snd first = pg /\ snd second = pg /\ fst second = fst first.
Proof.
  intros pg first second.
  assert (H1 : snd first = pg) by apply verify_read_only.
  split; [exact H1|]. unfold second. rewrite H1. split; [apply verify_read_only|reflexivity].
Qed.

(** *** What the injected script dispatches, on any page *)

Local Open Scope list_scope.

Definition succeeded {A : Type} (r : Script.error + A) : Prop :=
  match r with
  | inr _ => True
  | inl _ => False
  end.

(** [appends m P]: a run of [m] adds events to those already dispatched,
    and the events added by a run that ends without exception are in [P]. *)
Definition appends {A : Type} (m : script A) (P : list (path * dom_event) -> Prop) : Prop :=
  forall pg, exists evs,
    dispatched (snd (m pg)) = dispatched pg ++ evs /\ (succeeded (fst (m pg)) -> P evs).

Definition silent (evs : list (path * dom_event)) : Prop := evs = [].

Lemma appends_read_only {A : Type} (m : script A) : read_only m -> appends m silent.
Proof.
  intros H pg. exists []. rewrite (H pg), app_nil_r. split; [reflexivity|]. intros _. reflexivity.
Qed.

Lemma appends_seq {A B : Type} (m : script A) (f : A -> script B)
      (P1 P2 P : list (path * dom_event) -> Prop) :
  appends m P1 ->
  (forall a, appends (f a) P2) ->
  (forall e1 e2, P1 e1 -> P2 e2 -> P (e1 ++ e2)) ->
  appends (bind m f) P.
Proof.
  intros Hm Hf HP pg. unfold bind.
  destruct (Hm pg) as [e1 [H1 Q1]].
  destruct (m pg) as [[e|a] pg1]; simpl in *.
  - exists e1. split; [exact H1|]. intros [].
  - destruct (Hf a pg1) as [e2 [H2 Q2]].
    exists (e1 ++ e2). rewrite H2, H1, app_assoc. split; [reflexivity|].
    intros Hs. apply HP; [apply Q1; exact I|apply Q2; exact Hs].
Qed.

Lemma appends_weaken {A : Type} (m : script A) (P P' : list (path * dom_event) -> Prop) :
  (forall evs, P evs -> P' evs) -> appends m P -> appends m P'.
Proof.
  intros HP Hm pg. destruct (Hm pg) as [evs [H Q]]. exists evs. split; [exact H|]. auto.
Qed.

(** A read, then the rest. *)
Lemma appends_after_read {A B : Type} (m : script A) (f : A -> script B)
      (P : list (path * dom_event) -> Prop) :
  read_only m -> (forall a, appends (f a) P) -> appends (bind m f) P.
Proof.
  intros Hm Hf. apply (appends_seq m f silent P P); [now apply appends_read_only|exact Hf|].
  intros e1 e2 -> H. exact H.
Qed.

Lemma appends_ret {A : Type} (a : A) : appends (ret a) silent.
Proof. apply appends_read_only, read_only_ret. Qed.

Lemma appends_focus el : appends (focus el) silent.
Proof.
  intros pg. exists []. rewrite app_nil_r. unfold focus.
  destruct (element_at (document pg) el) as [e|]; [destruct (focusable e)|]; simpl; auto;
    split; try reflexivity; intros _; reflexivity.
Qed.

Lemma appends_change f el : appends (change f el) silent.
Proof. intros pg. exists []. rewrite app_nil_r. split; [reflexivity|]. intros _. reflexivity. Qed.

Lemma appends_dispatch el ev : appends (dispatchEvent el ev) (fun evs => evs = [(el, ev)]).
Proof. intros pg. exists [(el, ev)]. split; [reflexivity|]. intros _. reflexivity. Qed.

Lemma appends_input_event el data :
  appends (attempt (dispatchInputEvent el data))
          (fun evs => evs = [] \/ evs = [(el, InputEvent "input" data)]).
Proof.
  intros pg. unfold attempt, dispatchInputEvent.
  destruct (hasInputEvent pg); simpl.
  - exists [(el, InputEvent "input" data)]. split; [reflexivity|]. intros _. now right.
  - exists []. rewrite app_nil_r. split; [reflexivity|]. intros _. now left.
Qed.

Lemma read_only_closest el s : read_only (closestM el s).
Proof. intros pg. reflexivity. Qed.

Lemma read_only_activeElement : read_only document_activeElement.
Proof. intros pg. reflexivity. Qed.

Lemma read_only_find_button container sels : read_only (find_button container sels).
Proof.
  induction sels as [|qs rest IH]; simpl; [apply read_only_ret|].
  apply read_only_bind; [apply read_only_select|]. intros inside.
  apply read_only_bind.
  - destruct inside; [apply read_only_ret|apply read_only_select].
  - intros [b|]; [apply read_only_ret|exact IH].
Qed.

Definition enter_pair (target : path) : list (path * dom_event) :=
  [(target, KeyboardEvent "keydown" "Enter"); (target, KeyboardEvent "keyup" "Enter")].

Definition activation (btn : path) : list (path * dom_event) :=
  [(btn, MouseEvent "pointerdown"); (btn, MouseEvent "mousedown");
   (btn, MouseEvent "click"); (btn, MouseEvent "mouseup")].

(** The events of text entry: input and change events at the element. *)
Definition text_entry (el : path) (evs : list (path * dom_event)) : Prop :=
  Forall (fun e => fst e = el /\
                   match snd e with
                   | InputEvent _ _ | Event _ => True
                   | _ => False
                   end) evs.

Lemma appends_press_enter target : appends (press_enter target) (fun evs => evs = enter_pair target).
Proof.
  unfold press_enter.
  eapply appends_seq; [apply appends_dispatch|intros _; apply appends_dispatch|].
  intros e1 e2 -> ->. reflexivity.
Qed.

Lemma appends_enter_text el tag type contentEditable text :
  appends (enter_text el tag type contentEditable text) (text_entry el).
Proof.
  assert (Hin : forall evs, evs = [] \/ evs = [(el, InputEvent "input" text)] -> text_entry el evs).
  { intros evs [->| ->]; repeat constructor. }
  assert (Hev : forall name evs, evs = [(el, Event name)] -> text_entry el evs).
  { intros name evs ->. repeat constructor. }
  assert (Happ : forall e1 e2, text_entry el e1 -> text_entry el e2 -> text_entry el (e1 ++ e2)).
  { intros e1 e2 H1 H2. apply Forall_app. now split. }
  assert (Hsil : forall evs, silent evs -> text_entry el evs).
  { intros evs ->. constructor. }
  unfold enter_text.
  destruct (_ || _); [|destruct contentEditable].
  - eapply appends_seq; [apply appends_change| |intros e1 e2 H1 H2; apply Happ; [apply Hsil, H1|exact H2]].
    intros _. eapply appends_seq; [apply appends_input_event| |intros e1 e2 H1 H2; apply Happ; [apply Hin, H1|exact H2]].
    intros _. eapply appends_seq; [apply appends_dispatch| |intros e1 e2 H1 H2; apply Happ; [eapply Hev, H1|exact H2]].
    intros _. eapply appends_weaken; [|apply appends_dispatch]. intros evs H. eapply Hev, H.
  - eapply appends_seq; [apply appends_change| |intros e1 e2 H1 H2; apply Happ; [apply Hsil, H1|exact H2]].
    intros _. eapply appends_seq; [apply appends_change| |intros e1 e2 H1 H2; apply Happ; [apply Hsil, H1|exact H2]].
    intros _. eapply appends_seq; [apply appends_input_event| |intros e1 e2 H1 H2; apply Happ; [apply Hin, H1|exact H2]].
    intros _. eapply appends_weaken; [|apply appends_dispatch]. intros evs H. eapply Hev, H.
  - eapply appends_seq; [apply appends_change| |intros e1 e2 H1 H2; apply Happ; [apply Hsil, H1|exact H2]].
    intros _. eapply appends_weaken; [|apply appends_dispatch]. intros evs H. eapply Hev, H.
Qed.

(** How the script ends: it activates a submit control, or presses Enter
    once more, at the focused element. *)
Definition submission (evs : list (path * dom_event)) : Prop :=
  (exists btn, evs = activation btn) \/ (exists active, evs = enter_pair active).

(** What [injection] dispatches when it has found an input control [el]:
    the text entry, then Enter at [el], then the submission. *)
Definition injected (el : path) (evs : list (path * dom_event)) : Prop :=
  exists entry submit,
    evs = entry ++ enter_pair el ++ submit /\ text_entry el entry /\ submission submit.

Lemma inject_into_dispatches text el used :
  appends (inject_into text el used) (injected el).
Proof.
  unfold inject_into.
  apply appends_after_read; [apply read_only_read|]. intros tagName.
  eapply appends_seq; [apply appends_focus| |intros e1 e2 -> H; exact H].
  intros _.
  apply appends_after_read; [apply read_only_read|]. intros type.
  apply appends_after_read; [apply read_only_read|]. intros contentEditable.
  eapply appends_seq
    with (P2 := fun evs => exists submit, evs = enter_pair el ++ submit /\ submission submit);
    [apply appends_enter_text| |intros e1 e2 H1 [e3 [-> H3]]; exists e1, e3; auto].
  intros _.
  eapply appends_seq with (P2 := submission);
    [apply appends_press_enter| |intros e1 e2 -> H2; exists e2; auto].
  intros _.
  apply appends_after_read; [apply read_only_closest|]. intros form.
  apply appends_after_read; [apply read_only_find_button|]. intros btn.
  eapply appends_seq with (P1 := submission) (P2 := silent);
    [| |intros e1 e2 H1 ->; now rewrite app_nil_r].
  - destruct btn as [btn|].
    + eapply appends_weaken with (P := fun evs => evs = activation btn);
        [intros evs ->; left; now exists btn|].
      eapply appends_seq
        with (P2 := fun evs => evs = [(btn, MouseEvent "mousedown"); (btn, MouseEvent "click");
                                      (btn, MouseEvent "mouseup")]);
        [apply appends_dispatch| |intros e1 e2 -> ->; reflexivity].
      intros _.
      eapply appends_seq
        with (P2 := fun evs => evs = [(btn, MouseEvent "click"); (btn, MouseEvent "mouseup")]);
        [apply appends_dispatch| |intros e1 e2 -> ->; reflexivity].
      intros _.
      eapply appends_seq
        with (P2 := fun evs => evs = [(btn, MouseEvent "mouseup")]);
        [apply appends_dispatch|intros _; apply appends_dispatch
         |intros e1 e2 -> ->; reflexivity].
    + apply appends_after_read; [apply read_only_activeElement|]. intros focused.
      eapply appends_weaken; [|apply appends_press_enter].
      intros evs ->. right. eexists. reflexivity.
  - intros _. apply appends_after_read; [apply read_only_read|]. intros c.
    apply appends_ret.
Qed.

(** Whatever the page: when the injected script finds an input control
    and ends well, what it has dispatched is the text entry, then
    keydown/keyup Enter at the input control, then the submission; the
    Enter pair at the input control does not depend on whether a submit
    control exists. *)
Lemma injection_dispatches text pg r :
  fst (injection text pg) = inr r ->
  truthy r?."ok" = true ->
  exists el used,
    fst (first_selected input_selectors pg) = inr (Some (el, used)) /\
    exists evs, dispatched (snd (injection text pg)) = dispatched pg ++ evs /\ injected el evs.
Proof.
  unfold injection, bind.
  pose proof (read_only_first_selected input_selectors pg) as Hro.
  destruct (first_selected input_selectors pg) as [[e|[[el used]|]] pg1]; simpl in Hro; subst pg1.
  - discriminate.
  - intros Hr Hok. exists el, used. split; [reflexivity|].
    destruct (inject_into_dispatches text el used pg) as [evs [Hd Hp]].
    exists evs. split; [exact Hd|]. apply Hp. rewrite Hr. exact I.
  - simpl. intros [= <-]. discriminate.
Qed.

(** A chat page: a form holding the message box and a submit button. *)
Definition plain (tagName : string) (attributes : list (string * string)) : element :=
  {| tagName := tagName; attributes := attributes; classList := []; type := None;
     isContentEditable := false; focusable := false; value := JUndefined;
     textContent := "" |}.

Definition message_box : element :=
  {| tagName := "TEXTAREA"; attributes := [("placeholder", "Message DeepSeek")];
     classList := []; type := Some "textarea"; isContentEditable := false;
     focusable := true; value := JStr ""; textContent := "" |}.

Definition send_button : element :=
  {| tagName := "BUTTON"; attributes := [("type", "submit"); ("aria-label", "Send")];
     classList := []; type := Some "submit"; isContentEditable := false;
     focusable := true; value := JStr ""; textContent := "" |}.

Definition chat_page : page :=
  {| document :=
       [Element (plain "HTML" [])
          [Element (plain "BODY" [])
             [Element (plain "FORM" [])
                [Element message_box []; Element send_button []]]]];
     activeElement := None;
     dispatched := [];
     hasInputEvent := true |}.

Definition box_path : path := [0; 0; 0; 0]%nat.
Definition button_path : path := [0; 0; 0; 1]%nat.

(** C6: "a synthetic Enter key event pair is dispatched at the currently
    focused element only if no such submit control is found".  On a page
    with a message box and a submit button the injected script focuses the
    box, enters the text, and dispatches keydown/keyup Enter at the box
    before it looks for any submit control; it then finds the button and
    activates it as well. *)
Theorem injection_presses_enter_before_submit :
  let result := injection "hello" chat_page in
  fst result = inr (obj [("ok", JBool true); ("selector", JStr "textarea");
                         ("tag", JStr "TEXTAREA"); ("contenteditable", JBool false)]) /\
  activeElement (snd result) = Some box_path /\
  querySelector (document (snd result)) (closest (document (snd result)) box_path (tag "form"))
                (tag_attrs "button" [AttrIs "type" "submit"]) = Some button_path /\
  dispatched (snd result) =
  [ (box_path, InputEvent "input" "hello");
    (box_path, Event "input");
    (box_path, Event "change");
    (box_path, KeyboardEvent "keydown" "Enter");
    (box_path, KeyboardEvent "keyup" "Enter");
    (button_path, MouseEvent "pointerdown");
    (button_path, MouseEvent "mousedown");
    (button_path, MouseEvent "click");
    (button_path, MouseEvent "mouseup") ].
Proof. repeat split; reflexivity. Qed.

End PageFacts.

(** ** The strategies, the chain and the retry loop *)

Module ChainFacts.
Import Script NewChat.

(** [sat Q P p]: whatever the answers, every request [p] makes is observed
    in [Q], every value it returns is in [P], and the fuel of the model
    never runs out. *)
Fixpoint sat {A : Type} (Q : observed -> Prop) (P : A -> Prop) (p : prog A) : Prop :=
  match p with
  | Ret a => P a
  | Throw e => e <> OutOfFuel
  | Vis rq k => forall x, Q (observe rq x) /\ sat Q P (k x)
  end.

Lemma sat_bind {A B : Type} (Q : observed -> Prop) (P1 : A -> Prop) (P2 : B -> Prop)
      (p : prog A) (f : A -> prog B) :
  sat Q P1 p -> (forall a, P1 a -> sat Q P2 (f a)) -> sat Q P2 (bind p f).
Proof.
  intros Hp Hf. induction p as [a|e|X rq k IH]; simpl in *; auto.
  intros x. destruct (Hp x) as [Hq Hk]. split; auto.
Qed.

Lemma sat_bind_any {A B : Type} (Q : observed -> Prop) (P : B -> Prop)
      (p : prog A) (f : A -> prog B) :
  sat Q (fun _ => True) p -> (forall a, sat Q P (f a)) -> sat Q P (bind p f).
Proof. intros Hp Hf. apply (sat_bind Q (fun _ => True)); auto. Qed.

Lemma sat_try_catch {A : Type} (Q : observed -> Prop) (P : A -> Prop)
      (p : prog A) (h : error -> prog A) :
  sat Q P p -> (forall e, sat Q P (h e)) -> sat Q P (try_catch p h).
Proof.
  intros Hp Hh. induction p as [a|e|X rq k IH]; simpl in *; auto.
  - destruct e; [apply Hh|congruence].
  - intros x. destruct (Hp x) as [Hq Hk]. split; auto.
Qed.


Lemma sat_lift {A : Type} (Q : observed -> Prop) (P : A -> Prop) (r : error + A) :
  r <> inl OutOfFuel -> (forall a, r = inr a -> P a) -> sat Q P (lift r).
Proof. destruct r as [e|a]; simpl; intros H1 H2; [congruence|auto]. Qed.

Lemma sat_call (Q : observed -> Prop) (P : jsval -> Prop) method params timeout :
  (forall r, Q (OCall method params timeout r)) -> (forall d, P d) ->
  sat Q P (call method params timeout).
Proof.
  intros HQ HP. simpl. intros [d|reason]; split; simpl; auto. discriminate.
Qed.

Section Run.

Variable World : Type.
Variable answer : forall X : Type, request X -> World -> X * World.

Lemma sat_run {A : Type} (Q : observed -> Prop) (P : A -> Prop) (p : prog A) :
  sat Q P p ->
  forall w,
    Forall Q (fst (fst (run World answer p w))) /\
    match snd (fst (run World answer p w)) with
    | Returned a => P a
    | Thrown e => e <> OutOfFuel
    end.
Proof.
  induction p as [a|e|X rq k IH]; simpl; intros Hp w; auto.
  destruct (answer X rq w) as [x w1]. destruct (Hp x) as [Hq Hk].
  specialize (IH x Hk w1).
  destruct (run World answer (k x) w1) as [[tr o] w2]. simpl in *.
  destruct IH as [Htr Ho]. split; auto.
Qed.

End Run.

(** The requests of the strategies: calls through the multiplexer. *)
Definition is_call (o : observed) : Prop :=
  match o with
  | OCall _ _ _ _ | OBox _ _ => True
  | _ => False
  end.

(** The results of the strategies: the literal [{ ok: false }], or an
    object whose [ok] is truthy. *)
Definition ok_or_failure (r : jsval) : Prop :=
  r = failure \/ truthy r?."ok" = true.

Definition anything {A : Type} (_ : A) : Prop := True.

Lemma sat_call_any method params timeout :
  sat is_call anything (call method params timeout).
Proof. apply sat_call; intros; exact I. Qed.

Lemma sat_pickNode_from ids : forall best, sat is_call anything (pickNode_from best ids).
Proof.
  induction ids as [|b rest IH]; intros best; simpl; [exact I|].
  intros [bm|reason]; split; simpl; auto. discriminate.
Qed.

Lemma sat_pickNode ids : sat is_call anything (pickNode ids).
Proof.
  unfold pickNode. apply sat_bind_any; [apply sat_pickNode_from|].
  intros [best|]; exact I.
Qed.

Lemma get_not_fuel v k : get v k <> inl OutOfFuel.
Proof. destruct v; discriminate. Qed.

Lemma js_includes_not_fuel v s : js_includes v s <> inl OutOfFuel.
Proof. destruct v; discriminate. Qed.

Lemma iterate_not_fuel v : iterate v <> inl OutOfFuel.
Proof. destruct v; discriminate. Qed.

Lemma as_array_not_fuel v : as_array v <> inl OutOfFuel.
Proof. destruct v; discriminate. Qed.

Ltac sat_step :=
  match goal with
  | |- sat _ _ (bind _ _) => apply sat_bind_any
  | |- sat _ _ (try_catch _ _) => apply sat_try_catch
  | |- sat _ anything (call _ _ _) => apply sat_call_any
  | |- sat _ anything (dispatchMouseEvent _ _ _) => apply sat_call_any
  | |- sat _ anything (pickNode _) => apply sat_pickNode
  | |- sat _ _ (if ?b then _ else _) => destruct b
  | |- sat _ _ (match ?x with _ => _ end) => destruct x
  | |- sat _ _ (Ret _) => simpl
  | |- forall _, _ => intro
  end.

Section Strategies.

Variable AX_NAME : string.
Variable AX_ROLE : string.
Variable MAX_TOTAL_MS : Z.
Variable AX_TIMEOUT_MS : Z.
Variable FRAME_TIMEOUT_MS : Z.

Lemma clicked_ok p via : ok_or_failure (clicked p via).
Proof. right. reflexivity. Qed.

Lemma failure_ok : ok_or_failure failure.
Proof. now left. Qed.

Lemma ax_candidate_not_fuel n : ax_candidate AX_NAME AX_ROLE n <> inl OutOfFuel.
Proof.
  unfold ax_candidate.
  destruct (negb _); [discriminate|].
  destruct (truthy _); [|discriminate].
  pose proof (js_includes_not_fuel (n?."name"?."value" ||! JStr "") AX_NAME) as H.
  destruct (js_includes _ AX_NAME) as [e|[|]]; try discriminate.
  - congruence.
  - destruct (strict_eq_str _ _); discriminate.
Qed.

Lemma ax_candidates_not_fuel nodes : ax_candidates AX_NAME AX_ROLE nodes <> inl OutOfFuel.
Proof.
  induction nodes as [|n rest IH]; simpl; [discriminate|].
  pose proof (ax_candidate_not_fuel n) as H.
  destruct (ax_candidate AX_NAME AX_ROLE n) as [e|c]; [congruence|].
  destruct (ax_candidates AX_NAME AX_ROLE rest) as [e|cs]; [congruence|discriminate].
Qed.

Definition opt_ok (r : option jsval) : Prop :=
  match r with
  | Some r => ok_or_failure r
  | None => True
  end.

Lemma sat_dispatch (p : picked) via :
  sat is_call ok_or_failure
      (dispatchMouseEvent "mousePressed" (jint (cx p)) (jint (cy p)) ;;
       dispatchMouseEvent "mouseReleased" (jint (cx p)) (jint (cy p)) ;;
       Ret (clicked p via)).
Proof.
  apply sat_bind_any; [apply sat_call_any|]. intros _.
  apply sat_bind_any; [apply sat_call_any|]. intros _.
  apply clicked_ok.
Qed.

Lemma sat_clickByAX_picked p : sat is_call ok_or_failure (clickByAX_picked AX_NAME p).
Proof.
  unfold clickByAX_picked.
  apply (sat_bind is_call opt_ok).
  - apply sat_try_catch; [|intros e; exact I].
    apply sat_bind_any; [apply sat_call_any|]. intros rn.
    destruct (truthy _); [|exact I].
    apply sat_bind_any; [apply sat_call_any|]. intros txt.
    apply sat_bind_any.
    + apply sat_lift; [apply js_includes_not_fuel|intros; exact I].
    + intros [|]; [|exact I].
      apply sat_bind_any; [apply sat_call_any|]. intros _. apply clicked_ok.
  - intros [r|] H; [exact H|]. apply sat_dispatch.
Qed.

Lemma sat_clickByAX : sat is_call ok_or_failure (clickByAX AX_NAME AX_ROLE AX_TIMEOUT_MS).
Proof.
  unfold clickByAX.
  apply sat_bind_any; [apply sat_call_any|]. intros ax.
  apply sat_bind_any; [apply sat_lift; [apply iterate_not_fuel|intros; exact I]|].
  intros nodes.
  apply sat_bind_any; [apply sat_lift; [apply ax_candidates_not_fuel|intros; exact I]|].
  intros cands.
  apply sat_bind_any.
  - destruct (_ =? _)%nat; [exact I|apply sat_pickNode].
  - intros [p|]; [apply sat_clickByAX_picked|apply failure_ok].
Qed.

Lemma sat_clickByDOM : sat is_call ok_or_failure clickByDOM.
Proof.
  unfold clickByDOM.
  apply sat_bind_any; [apply sat_call_any|]. intros r.
  destruct (negb (truthy _) || negb (truthy _)) eqn:E; [apply failure_ok|].
  apply orb_false_iff in E as [_ E]. apply negb_false_iff in E. now right.
Qed.


(** The frame walk ends within its fuel: each node popped puts back less
    than it weighed. *)
Definition weight (n : jsval) : nat :=
  match n with
  | JStr _ => 1%nat
  | _ => jsize n
  end.

Definition weights (l : list jsval) : nat := list_sum (List.map weight l).

Lemma jsize_pos v : (1 <= jsize v)%nat.
Proof. destruct v; simpl; lia. Qed.

Lemma weight_pos v : (1 <= weight v)%nat.
Proof. destruct v; simpl; lia. Qed.

Lemma weight_le_jsize v : (weight v <= jsize v)%nat.
Proof. destruct v; simpl; lia. Qed.

Lemma weights_items l : (S (weights l) <= jsize (JArr l))%nat.
Proof.
  unfold weights. induction l as [|x l IH]; simpl in *; [lia|].
  pose proof (weight_le_jsize x). lia.
Qed.

Lemma weights_chars s :
  weights (List.map (fun c => JStr (String c EmptyString)) (list_ascii_of_string s))
  = String.length s.
Proof. unfold weights. induction s as [|c s IH]; simpl in *; [reflexivity|now rewrite IH]. Qed.

Lemma jsize_field k fs :
  truthy (assoc k fs) = true -> (jsize (assoc k fs) < jsize (JObj fs))%nat.
Proof.
  induction fs as [|[k' v] r IH]; simpl in *; [discriminate|].
  destruct (String.eqb k' k); [lia|]. intros H. specialize (IH H). lia.
Qed.

Lemma weights_children n ch :
  iterate (n?."childFrames" ||! JArr []) = inr ch -> (weights ch < weight n)%nat.
Proof.
  pose proof (weight_pos n) as Hpos.
  destruct n as [| |b|q|s|l|fs]; simpl; try (intros [= <-]; exact Hpos).
  unfold js_or. destruct (truthy (assoc "childFrames" fs)) eqn:T.
  - pose proof (jsize_field _ _ T) as Hlt. simpl in Hlt.
    destruct (assoc "childFrames" fs) as [| |b|q|s|l|fs']; simpl; try discriminate.
    + intros [= <-]. rewrite weights_chars. simpl in Hlt. lia.
    + intros [= <-]. pose proof (weights_items l). lia.
  - simpl. intros [= <-]. unfold weights; simpl. lia.
Qed.

Lemma weights_app l1 l2 : weights (l1 ++ l2) = (weights l1 + weights l2)%nat.
Proof. unfold weights. now rewrite map_app, list_sum_app. Qed.

Lemma weights_rev l : weights (rev l) = weights l.
Proof.
  induction l as [|x l IH]; simpl; [reflexivity|].
  rewrite weights_app, IH. unfold weights; simpl. lia.
Qed.




Lemma backend_ids_not_fuel l : backend_ids l <> inl OutOfFuel.
Proof.
  induction l as [|n rest IH]; simpl; [discriminate|].
  pose proof (get_not_fuel n "backendDOMNodeId") as H.
  destruct (get n "backendDOMNodeId") as [e|b]; [congruence|].
  destruct (backend_ids rest) as [e|bs]; [congruence|discriminate].
Qed.

Lemma sat_clickByAXQuery :
  sat is_call ok_or_failure (clickByAXQuery AX_NAME AX_ROLE AX_TIMEOUT_MS).
Proof.
  unfold clickByAXQuery.
  apply sat_bind_any; [apply sat_call_any|]. intros doc.
  destruct (negb (truthy _)); [apply failure_ok|].
  apply sat_try_catch; [|intros e; apply failure_ok].
  apply sat_bind_any; [apply sat_call_any|]. intros q.
  apply sat_bind_any; [apply sat_lift; [apply as_array_not_fuel|intros; exact I]|].
  intros arr.
  apply sat_bind_any; [apply sat_lift; [apply backend_ids_not_fuel|intros; exact I]|].
  intros bids.
  destruct (_ =? _)%nat; [apply failure_ok|].
  apply sat_bind_any; [apply sat_pickNode|].
  intros [p|]; [|apply failure_ok].
  apply (sat_bind is_call opt_ok).
  - apply sat_try_catch; [|intros e; exact I].
    apply sat_bind_any; [apply sat_call_any|]. intros rn.
    destruct (truthy _); [|exact I].
    apply sat_bind_any; [apply sat_call_any|]. intros _. apply clicked_ok.
  - intros [r|] H; [exact H|]. apply sat_dispatch.
Qed.


Lemma get_ok r : ok_or_failure r -> get r "ok" = inr r?."ok".
Proof.
  intros [->|H]; [reflexivity|]. destruct r; simpl in *; try discriminate; reflexivity.
Qed.



Variable World : Type.
Variable answer : forall X : Type, request X -> World -> X * World.

Local Abbreviation run := (Script.run World answer).
Local Abbreviation trace_of p w := (fst (fst (Script.run World answer p w))).
Local Abbreviation outcome_of p w := (snd (fst (Script.run World answer p w))).


Lemma run_bind_ret {A : Type} (p : prog A) w : run (bind p Ret) w = run p w.
Proof.
  rewrite ScriptFacts.run_bind. destruct (run p w) as [[tr o] w1].
  destruct o; simpl; [now rewrite app_nil_r|reflexivity].
Qed.

Lemma run_not_ok r w :
  ok_or_failure r -> run (not_ok r) w = ([], Returned (negb (truthy r?."ok")), w).
Proof. intros H. unfold not_ok. rewrite (get_ok r H). reflexivity. Qed.

(** [if (!r.ok) r = await s()], followed by [K]. *)
Lemma run_unless_ok (s : prog jsval) (K : jsval -> prog jsval) r w :
  ok_or_failure r ->
  run (failed <- not_ok r ;; r' <- (if (failed : bool) then s else Ret r) ;; K r') w
  = if truthy r?."ok" then run (K r) w else run (r' <- s ;; K r') w.
Proof.
  intros H. rewrite ScriptFacts.run_bind, (run_not_ok r w H). simpl.
  destruct (truthy r?."ok"); simpl.
  - destruct (run (K r) w) as [[tr o] w1]. reflexivity.
  - destruct (run (r' <- s ;; K r') w) as [[tr o] w1]. reflexivity.
Qed.

(** *** The order of the strategies *)

(** The outcome of a strategy that returned a failure result. *)
Definition returned_failure (o : outcome jsval) : Prop :=
  exists r, o = Returned r /\ truthy r?."ok" = false.

(** [chain_run strategies w result]: [result] is what comes of running the
    strategies from [w], each at most once, in the order of the list, a
    strategy starting where its predecessor left the environment and only
    if the predecessor returned a failure result; the outcome is that of
    the last strategy run. *)
Inductive chain_run : list (prog jsval) -> World -> trace * outcome jsval * World -> Prop :=
| chain_stops (s : prog jsval) (rest : list (prog jsval)) (w : World) :
    rest = [] \/ ~ returned_failure (outcome_of s w) ->
    chain_run (s :: rest) w (run s w)
| chain_advances (s : prog jsval) (rest : list (prog jsval)) (w : World)
                 (tr1 : trace) (r : jsval) (w1 : World)
                 (tr2 : trace) (o : outcome jsval) (w2 : World) :
    rest <> [] ->
    run s w = (tr1, Returned r, w1) ->
    truthy r?."ok" = false ->
    chain_run rest w1 (tr2, o, w2) ->
    chain_run (s :: rest) w ((tr1 ++ tr2)%list, o, w2).

Lemma chain_stops_at (s : prog jsval) (rest : list (prog jsval)) w result :
  run s w = result ->
  rest = [] \/ ~ returned_failure (snd (fst result)) ->
  chain_run (s :: rest) w result.
Proof. intros <-. apply chain_stops. Qed.

Lemma chain_link (s : prog jsval) (rest : list (prog jsval)) (K : jsval -> prog jsval) w :
  sat is_call ok_or_failure s ->
  rest <> [] ->
  (forall r w1, truthy r?."ok" = true -> run (K r) w1 = ([], Returned r, w1)) ->
  (forall r w1, ok_or_failure r -> truthy r?."ok" = false -> chain_run rest w1 (run (K r) w1)) ->
  chain_run (s :: rest) w (run (r <- s ;; K r) w).
Proof.
  intros Hs Hrest Hok Hfail. rewrite ScriptFacts.run_bind.
  pose proof (sat_run World answer _ _ s Hs w) as [_ Ho].
  destruct (run s w) as [[tr1 o1] w1] eqn:E. simpl in Ho.
  destruct o1 as [r1|e].
  - destruct (truthy r1?."ok") eqn:T.
    + rewrite (Hok r1 w1 T). simpl. rewrite app_nil_r.
      apply chain_stops_at; [exact E|]. right. simpl.
      intros [r [[= <-] H]]. congruence.
    + specialize (Hfail r1 w1 Ho T).
      destruct (run (K r1) w1) as [[tr2 o2] w2].
      now apply (chain_advances s rest w tr1 r1 w1).
  - apply chain_stops_at; [exact E|]. right. simpl. intros [r [[=] _]].
Qed.

(** C4: within one attempt the strategies run in the order accessibility
    query, full accessibility scan, in-page script, per-frame query; each
    runs at most once; a later one runs only if every earlier one returned
    a failure result; the result of the attempt is the first result that is
    not a failure, or the failure result of the last strategy. *)
Theorem strategies_run_in_order :
  forall w : World,
    chain_run [ clickByAXQuery AX_NAME AX_ROLE AX_TIMEOUT_MS;
                clickByAX AX_NAME AX_ROLE AX_TIMEOUT_MS;
                clickByDOM;
                clickByFrames FRAME_TIMEOUT_MS ]
              w
              (run (strategy_chain AX_NAME AX_ROLE AX_TIMEOUT_MS FRAME_TIMEOUT_MS) w).
Proof.
  intros w. unfold strategy_chain.
  apply chain_link; [apply sat_clickByAXQuery|discriminate| |].
  { intros r w1 T. rewrite !run_unless_ok, T by now right. reflexivity. }
  intros r1 w1 H1 T1. rewrite run_unless_ok, T1 by exact H1.
  apply chain_link; [apply sat_clickByAX|discriminate| |].
  { intros r w2 T. rewrite !run_unless_ok, T by now right. reflexivity. }
  intros r2 w2 H2 T2. rewrite run_unless_ok, T2 by exact H2.
  apply chain_link; [apply sat_clickByDOM|discriminate| |].
  { intros r w3 T. rewrite !run_unless_ok, T by now right. reflexivity. }
  intros r3 w3 H3 T3. rewrite run_unless_ok, T3 by exact H3.
  rewrite run_bind_ret. apply chain_stops. now left.
Qed.

(** *** The retry loop *)

Local Open Scope list_scope.















(** *** The click on the picked node *)













(** *** Failure results and the fallback branch of [main] *)











End Strategies.

(** *** Concrete runs *)









End ChainFacts.

(** ** Invariants of the multiplexer *)

Module MuxInvariants.
Import Mux MuxFacts.

Local Open Scope list_scope.

(** *** What the handlers leave alone *)

Lemma reject_entries_sent reason l : forall st, sent (reject_entries reason l st) = sent st.
Proof.
  induction l as [|e l IH]; intros st; simpl; [reflexivity|].
  fold (reject_entries reason l). rewrite IH. simpl.
  destruct (pc_tid (snd e)); reflexivity.
Qed.

Lemma on_timer_fields reason st tid :
  id (on_timer reason st tid) = id st /\
  issued (on_timer reason st tid) = issued st /\
  sent (on_timer reason st tid) = sent st.
Proof.
  unfold on_timer. destruct (timer_lookup (timers st) tid) as [t|]; [|auto].
  destruct (t_state t); auto. unfold timeout_callback. simpl.
  destruct (map_has (map st) (inject_Z (id st))); auto.
Qed.

Lemma opener_on_message_fields st m :
  id (Opener.on_message st m) = id st /\
  issued (Opener.on_message st m) = issued st /\
  sent (Opener.on_message st m) = sent st.
Proof.
  unfold Opener.on_message. destruct m as [raw|d]; [auto|].
  destruct (if truthy d then d?."id" else JUndefined); auto.
  destruct (map_get (map st) q) as [entry|]; auto.
  destruct (truthy d?."error"); simpl; destruct (pc_tid entry); auto.
Qed.

Lemma injector_on_message_fields st m :
  id (Injector.on_message st m) = id st /\
  issued (Injector.on_message st m) = issued st /\
  sent (Injector.on_message st m) = sent st.
Proof.
  unfold Injector.on_message. destruct m as [raw|d]; [auto|].
  destruct (if truthy d then d?."id" else JUndefined); auto.
  destruct (map_get (map st) q) as [entry|]; auto.
Qed.

Lemma reject_all_fields reason st :
  id (Opener.reject_all reason st) = id st /\
  issued (Opener.reject_all reason st) = issued st /\
  sent (Opener.reject_all reason st) = sent st.
Proof.
  rewrite reject_all_entries.
  destruct (reject_entries_spec reason (map st) st) as [Hid [Hiss _]].
  rewrite reject_entries_sent. auto.
Qed.

(** *** Correlation ids *)

(** The calls made so far, whether their frame could be sent or not. *)
Definition is_invoke (ev : event) : bool :=
  match ev with Invoke _ _ _ _ => true | _ => false end.

Definition invocations (events : list event) : nat :=
  List.length (filter is_invoke events).

(** The ids of the frames handed to [ws.send], in the order of sending. *)
Definition sent_ids (st : mux) : list jsval := List.map (fun m => m?."id") (sent st).

(** The counter is the number of calls made; the calls are numbered
    1, 2, ... in the order they were made; the frames sent carry the
    numbers of their calls, so each id goes out once and ids grow. *)
Record numbered (n : nat) (st : mux) : Prop := {
  counter_counts : id st = Z.of_nat n;
  issued_in_order : issued st = List.map Z.of_nat (seq 1 n);
  frames_in_order : exists ks, sent_ids st = List.map jint ks /\
                               StronglySorted Z.lt ks /\
                               Forall (fun k => 1 <= k <= id st) ks
}.

Lemma numbered_init : numbered 0 init.
Proof.
  split; [reflexivity|reflexivity|]. exists []. repeat split; constructor.
Qed.

Lemma numbered_same n st st' :
  id st' = id st -> issued st' = issued st -> sent st' = sent st ->
  numbered n st -> numbered n st'.
Proof.
  intros Hid Hiss Hsent [H1 H2 H3]. unfold sent_ids in *.
  split; unfold sent_ids; rewrite ?Hid, ?Hiss, ?Hsent; assumption.
Qed.

Lemma sorted_snoc (ks : list Z) (k : Z) :
  StronglySorted Z.lt ks -> Forall (fun x => x < k) ks -> StronglySorted Z.lt (ks ++ [k]).
Proof.
  induction 1 as [|x ks Hs IH Hx]; intros Hk; simpl.
  - repeat constructor.
  - inversion Hk as [|? ? Hxk Hk']; subst. constructor; [now apply IH|].
    apply Forall_app. split; [exact Hx|]. now constructor.
Qed.

Lemma numbered_call n st k sent' :
  numbered n st ->
  k = id st + 1 ->
  (sent' = sent st \/ exists method params, sent' = sent st ++ [request k method params]) ->
  forall st', id st' = k -> issued st' = issued st ++ [k] -> sent st' = sent' ->
  numbered (S n) st'.
Proof.
  intros [H1 H2 [ks [Hks [Hsorted Hrange]]]] -> Hsent st' Hid Hiss Hs.
  split.
  - rewrite Hid, H1. lia.
  - rewrite Hiss, H2, H1. rewrite seq_S, map_app. simpl. do 3 f_equal. lia.
  - unfold sent_ids in *. rewrite Hs, Hid.
    destruct Hsent as [->|[method [params ->]]].
    + exists ks. repeat split; [exact Hks|exact Hsorted|].
      eapply Forall_impl; [|exact Hrange]. simpl. intros; lia.
    + exists (ks ++ [id st + 1]). rewrite !map_app, Hks. simpl. repeat split.
      * apply sorted_snoc; [exact Hsorted|].
        eapply Forall_impl; [|exact Hrange]. simpl. intros; lia.
      * apply Forall_app. split.
        -- eapply Forall_impl; [|exact Hrange]. simpl. intros; lia.
        -- constructor; [lia|constructor].
Qed.

Lemma numbered_opener_step T n st ev :
  numbered n st ->
  numbered (if is_invoke ev then S n else n) (Opener.step T st ev).
Proof.
  intros N. destruct ev as [method params timeout send|m|message| |tid]; simpl.
  - unfold Opener.call. destruct send.
    + eapply (numbered_call n st (id st + 1)); [exact N|reflexivity| |reflexivity..].
      right. now exists method, params.
    + eapply (numbered_call n st (id st + 1)); [exact N|reflexivity| |reflexivity..].
      now left.
  - destruct (opener_on_message_fields st m) as [H1 [H2 H3]].
    exact (numbered_same n st _ H1 H2 H3 N).
  - unfold Opener.on_error.
    destruct (reject_all_fields "ws error" (log st ("WebSocket error in CDP: " ++ message)))
      as [H1 [H2 H3]].
    exact (numbered_same n st _ H1 H2 H3 N).
  - unfold Opener.on_close.
    destruct (reject_all_fields "ws closed" (log st "WebSocket connection closed"))
      as [H1 [H2 H3]].
    exact (numbered_same n st _ H1 H2 H3 N).
  - destruct (on_timer_fields Opener.timeout_reason st tid) as [H1 [H2 H3]].
    exact (numbered_same n st _ H1 H2 H3 N).
Qed.

Lemma numbered_injector_step n st ev :
  numbered n st ->
  numbered (if is_invoke ev then S n else n) (Injector.step st ev).
Proof.
  intros N. destruct ev as [method params timeout send|m|message| |tid]; simpl; auto.
  - unfold Injector.call. destruct send.
    + eapply (numbered_call n st (id st + 1)); [exact N|reflexivity| |reflexivity..].
      right. now exists method, params.
    + eapply (numbered_call n st (id st + 1)); [exact N|reflexivity| |reflexivity..].
      now left.
  - destruct (injector_on_message_fields st m) as [H1 [H2 H3]].
    exact (numbered_same n st _ H1 H2 H3 N).
  - destruct (on_timer_fields Injector.timeout_reason st tid) as [H1 [H2 H3]].
    exact (numbered_same n st _ H1 H2 H3 N).
Qed.

Lemma numbered_fold (step : mux -> event -> mux) :
  (forall n st ev, numbered n st -> numbered (if is_invoke ev then S n else n) (step st ev)) ->
  forall events n st,
    numbered n st -> numbered (invocations events + n) (fold_left step events st).
Proof.
  intros Hstep events. induction events as [|ev rest IH]; intros n st N; simpl; [exact N|].
  specialize (IH _ _ (Hstep n st ev N)). unfold invocations in *. simpl.
  destruct ev; simpl in *; try exact IH.
  now rewrite Nat.add_succ_r in IH.
Qed.

(** X2: every call gets the next number, and the frames that go out carry
    growing ids: no id is used for two calls of one connection. *)
Theorem calls_are_numbered_in_order :
  forall events : list event,
    (forall CDP_TIMEOUT_MS : Z, numbered (invocations events) (Opener.cdp CDP_TIMEOUT_MS events)) /\
    numbered (invocations events) (Injector.cdp events).
Proof.
  intros events. split; [intros T|].
  - unfold Opener.cdp. rewrite <- (Nat.add_0_r (invocations events)).
    apply numbered_fold; [intros; now apply numbered_opener_step|exact numbered_init].
  - unfold Injector.cdp. rewrite <- (Nat.add_0_r (invocations events)).
    apply numbered_fold; [intros; now apply numbered_injector_step|exact numbered_init].
Qed.

(** *** Replies reach the call they answer *)

(** The frame [d] carries the number [k] as its [id]. *)
Definition answers (k : Z) (d : jsval) : Prop :=
  exists q, d?."id" = JNum q /\ (q == inject_Z k)%Q.

Definition correlated (P : jsval -> Prop) (st : mux) : Prop :=
  forall k d, In (k, Resolve d) (callbacks st) -> answers k d /\ P d.

Definition rejections (l : list (Z * settlement)) : Prop :=
  Forall (fun e => exists reason, snd e = Reject reason) l.

Lemma correlated_rejections P st st' l :
  callbacks st' = callbacks st ++ l -> rejections l -> correlated P st -> correlated P st'.
Proof.
  intros Hcb Hl C k d Hin. rewrite Hcb in Hin. apply in_app_iff in Hin as [Hin|Hin]; [auto|].
  unfold rejections in Hl. rewrite Forall_forall in Hl.
  destruct (Hl _ Hin) as [reason Hr]. discriminate.
Qed.

Lemma correlated_same P st st' :
  callbacks st' = callbacks st -> correlated P st -> correlated P st'.
Proof.
  intros Hcb. apply (correlated_rejections P st st' []); [now rewrite app_nil_r|constructor].
Qed.

Lemma correlated_timer P reason st tid : correlated P st -> correlated P (on_timer reason st tid).
Proof.
  unfold on_timer. destruct (timer_lookup (timers st) tid) as [t|]; [|auto].
  destruct (t_state t); auto. unfold timeout_callback. simpl.
  destruct (map_has (map st) (inject_Z (id st))).
  - apply (correlated_rejections P _ _ [(t_owner t, Reject (reason (t_method t)))]);
      [reflexivity|]. repeat constructor. now eexists.
  - now apply (correlated_same _ st).
Qed.

Lemma correlated_reject_all P reason st :
  correlated P st -> correlated P (Opener.reject_all reason st).
Proof.
  rewrite reject_all_entries.
  destruct (reject_entries_spec reason (map st) st) as [_ [_ [Hcb _]]].
  apply (correlated_rejections P _ _ _ Hcb).
  apply Forall_forall. intros e Hin. apply in_map_iff in Hin as [e0 [<- _]]. now eexists.
Qed.

(** A frame that finds an entry carries the key of that entry. *)
Lemma matched_frame st d q entry :
  consistent st ->
  (if truthy d then d?."id" else JUndefined) = JNum q ->
  map_get (map st) q = Some entry ->
  answers (pc_owner entry) d.
Proof.
  intros C Hid G. apply map_get_some in G as [k [Hin Hk]].
  rewrite (owner_is_key _ C _ _ Hin).
  exists q. split.
  - destruct (truthy d); [exact Hid|discriminate].
  - unfold key_is in Hk. simpl in Hk. apply Qeq_bool_iff in Hk. now symmetry.
Qed.

Definition no_error (d : jsval) : Prop := truthy d?."error" = false.
Definition any_frame (d : jsval) : Prop := True.

Lemma correlated_opener_step T st ev :
  consistent st -> correlated no_error st -> correlated no_error (Opener.step T st ev).
Proof.
  intros C K. destruct ev as [method params timeout send|m|message| |tid]; simpl.
  - unfold Opener.call. destruct send.
    + now apply (correlated_same _ st).
    + apply (correlated_rejections _ st _ [(id st + 1, Reject ("Failed to send CDP message: " ++ message))]);
        [reflexivity| |exact K]. repeat constructor. now eexists.
  - unfold Opener.on_message. destruct m as [raw|d]; [now apply (correlated_same _ st)|].
    destruct (if truthy d then d?."id" else JUndefined) as [| | |q| | |] eqn:Hid; try exact K.
    destruct (map_get (map st) q) as [entry|] eqn:G; [|exact K].
    destruct (clear_tid_fields (pc_tid entry) (with_map st (map_delete (map st) q)))
      as [_ [_ [Ccb _]]].
    destruct (truthy d?."error") eqn:E.
    + apply (correlated_rejections _ st _ [(pc_owner entry, Reject (Opener.error_reason d?."error"))]);
        [simpl; now rewrite Ccb| |exact K]. repeat constructor. now eexists.
    + intros k d0 Hin. simpl in Hin. rewrite Ccb in Hin. simpl in Hin.
      apply in_app_iff in Hin as [Hin|[[= <- <-]|[]]]; [auto|].
      split; [exact (matched_frame st d q entry C Hid G)|exact E].
  - unfold Opener.on_error. apply correlated_reject_all. now apply (correlated_same _ st).
  - unfold Opener.on_close. apply correlated_reject_all. now apply (correlated_same _ st).
  - now apply correlated_timer.
Qed.

Lemma correlated_injector_step st ev :
  consistent st -> correlated any_frame st -> correlated any_frame (Injector.step st ev).
Proof.
  intros C K. destruct ev as [method params timeout send|m|message| |tid]; simpl; auto.
  - unfold Injector.call. destruct send.
    + now apply (correlated_same _ st).
    + apply (correlated_rejections _ st _ [(id st + 1, Reject message)]);
        [reflexivity| |exact K]. repeat constructor. now eexists.
  - unfold Injector.on_message. destruct m as [raw|d]; [exact K|].
    destruct (if truthy d then d?."id" else JUndefined) as [| | |q| | |] eqn:Hid; try exact K.
    destruct (map_get (map st) q) as [entry|] eqn:G; [|exact K].
    intros k d0 Hin. simpl in Hin.
    apply in_app_iff in Hin as [Hin|[[= <- <-]|[]]]; [auto|].
    split; [exact (matched_frame st d q entry C Hid G)|exact I].
  - now apply correlated_timer.
Qed.

Lemma fold_left_invariant2 {S E : Type} (P Q : S -> Prop) (step : S -> E -> S) :
  (forall s e, P s -> P (step s e)) ->
  (forall s e, P s -> Q s -> Q (step s e)) ->
  forall events s, P s -> Q s -> Q (fold_left step events s).
Proof.
  intros HP HQ events. induction events as [|e events IH]; simpl; auto.
Qed.

Lemma correlated_opener T events : correlated no_error (Opener.cdp T events).
Proof.
  unfold Opener.cdp.
  apply (fold_left_invariant2 consistent);
    [intros s e; apply consistent_opener_step|intros s e; apply correlated_opener_step
     |exact consistent_init|intros k d []].
Qed.

Lemma correlated_injector events : correlated any_frame (Injector.cdp events).
Proof.
  unfold Injector.cdp.
  apply (fold_left_invariant2 consistent);
    [intros s e; apply consistent_injector_step|intros s e; apply correlated_injector_step
     |exact consistent_init|intros k d []].
Qed.

(** X3: whatever happened on the connection, a call that was resolved was
    resolved with a frame that carries the call's own id; in the opener
    that frame has no truthy [error]. *)
Theorem replies_reach_their_own_call :
  forall (events : list event) (k : Z) (d : jsval),
    (forall CDP_TIMEOUT_MS : Z,
        promise_state (Opener.cdp CDP_TIMEOUT_MS events) k = Some (Resolve d) ->
        (exists q, d?."id" = JNum q /\ (q == inject_Z k)%Q) /\ truthy d?."error" = false)
    /\
    (promise_state (Injector.cdp events) k = Some (Resolve d) ->
     exists q, d?."id" = JNum q /\ (q == inject_Z k)%Q).
Proof.
  intros events k d. split.
  - intros T H. apply first_for_in in H. exact (correlated_opener T events k d H).
  - intros H. apply first_for_in in H. exact (proj1 (correlated_injector events k d H)).
Qed.

Lemma replies_reach_their_own_call_witness :
  let events := [ Invoke "Runtime.enable" no_params None Sent;
                  Invoke "DOM.enable" no_params None Sent;
                  Message (Parsed (reply_frame 2 no_params));
                  Message (Parsed (reply_frame 1 (JStr "late"))) ] in
  promise_state (Opener.cdp 10000 events) 1 = Some (Resolve (reply_frame 1 (JStr "late"))) /\
  (exists q, (reply_frame 1 (JStr "late"))?."id" = JNum q /\ (q == inject_Z 1)%Q).
Proof.
  intros events. split; [reflexivity|].
  exact (proj1 (proj1 (replies_reach_their_own_call events 1 (reply_frame 1 (JStr "late")))
                  10000 eq_refl)).
Defined.

(** *** The table *)

(** Every entry of the table is filed under the number of a call that was
    made. *)
Definition filed (st : mux) : Prop :=
  forall key entry, In (key, entry) (map st) -> In key (issued st).

Lemma filed_shrinks st st' :
  (forall key entry, In (key, entry) (map st') -> In (key, entry) (map st)) ->
  issued st' = issued st -> filed st -> filed st'.
Proof. intros Hm Hi F key entry Hin. rewrite Hi. eauto. Qed.

Lemma filed_call st st' k v :
  map st' = map st \/ map st' = map_set (map st) k v ->
  issued st' = issued st ++ [k] -> filed st -> filed st'.
Proof.
  intros Hm Hi F key entry Hin. rewrite Hi. apply in_app_iff.
  destruct Hm as [Hm|Hm]; rewrite Hm in Hin.
  - left. eauto.
  - apply map_set_in in Hin as [Hin|[-> _]]; [left; eauto|right; now left].
Qed.

Lemma filed_timer reason st tid : filed st -> filed (on_timer reason st tid).
Proof.
  unfold on_timer. destruct (timer_lookup (timers st) tid) as [t|]; [|auto].
  destruct (t_state t); auto. unfold timeout_callback. simpl.
  destruct (map_has (map st) (inject_Z (id st))); [|now apply (filed_shrinks st)].
  apply filed_shrinks; [|reflexivity]. simpl. intros key entry Hin.
  now apply map_delete_in in Hin.
Qed.

Lemma filed_reject_all reason st : filed (Opener.reject_all reason st).
Proof.
  intros key entry Hin. rewrite (reject_all_map reason st) in Hin. destruct Hin.
Qed.

Lemma filed_opener_step T st ev : filed st -> filed (Opener.step T st ev).
Proof.
  intros F. destruct ev as [method params timeout send|m|message| |tid]; simpl.
  - unfold Opener.call. destruct send.
    + eapply (filed_call st _ (id st + 1)); [right; reflexivity|reflexivity|exact F].
    + eapply (filed_call st _ (id st + 1) {| pc_owner := 0; pc_tid := None; pc_method := "" |});
        [left; reflexivity|reflexivity|exact F].
  - unfold Opener.on_message. destruct m as [raw|d]; [now apply (filed_shrinks st)|].
    destruct (if truthy d then d?."id" else JUndefined) as [| | |q| | |]; try exact F.
    destruct (map_get (map st) q) as [entry|]; [|exact F].
    destruct (clear_tid_fields (pc_tid entry) (with_map st (map_delete (map st) q)))
      as [_ [Cmap [_ Ciss]]].
    destruct (truthy d?."error"); (apply (filed_shrinks st); [|exact Ciss|exact F]);
      simpl; rewrite Cmap; simpl; intros key e Hin; now apply map_delete_in in Hin.
  - apply filed_reject_all.
  - apply filed_reject_all.
  - now apply filed_timer.
Qed.

Lemma filed_injector_step st ev : filed st -> filed (Injector.step st ev).
Proof.
  intros F. destruct ev as [method params timeout send|m|message| |tid]; simpl; auto.
  - unfold Injector.call. destruct send.
    + eapply (filed_call st _ (id st + 1)); [right; reflexivity|reflexivity|exact F].
    + eapply (filed_call st _ (id st + 1) {| pc_owner := 0; pc_tid := None; pc_method := "" |});
        [left; reflexivity|reflexivity|exact F].
  - unfold Injector.on_message. destruct m as [raw|d]; [exact F|].
    destruct (if truthy d then d?."id" else JUndefined) as [| | |q| | |]; try exact F.
    destruct (map_get (map st) q) as [entry|]; [|exact F].
    apply (filed_shrinks st); [|reflexivity|exact F].
    simpl. intros key e Hin. now apply map_delete_in in Hin.
  - now apply filed_timer.
Qed.

Lemma filed_init : filed init.
Proof. intros key entry []. Qed.

(** What an entry of the table says about its call. *)
Definition tabled (st : mux) (key : Z) (entry : pending_call) : Prop :=
  pc_owner entry = key /\ In key (issued st) /\
  forall d, promise_state st key <> Some (Resolve d).

(** X4: in both multiplexers an entry of the table is filed under the id of a
    call that was made, holds the callbacks of that very call, and that
    call has not been resolved: a call that got its answer has left the
    table. *)
Theorem table_holds_unanswered_calls :
  forall (events : list event) (key : Z) (entry : pending_call),
    (forall CDP_TIMEOUT_MS : Z,
        In (key, entry) (map (Opener.cdp CDP_TIMEOUT_MS events)) ->
        tabled (Opener.cdp CDP_TIMEOUT_MS events) key entry)
    /\
    (In (key, entry) (map (Injector.cdp events)) -> tabled (Injector.cdp events) key entry).
Proof.
  intros events key entry. split.
  - intros T Hin. pose proof (consistent_opener T events) as C.
    assert (F : filed (Opener.cdp T events)).
    { unfold Opener.cdp. apply fold_left_invariant; [intros s e; apply filed_opener_step|].
      exact filed_init. }
    repeat split; [exact (owner_is_key _ C _ _ Hin)|exact (F _ _ Hin)|].
    intros d H. apply first_for_in in H. exact (resolved_are_gone _ C _ _ _ H Hin).
  - intros Hin. pose proof (consistent_injector events) as C.
    assert (F : filed (Injector.cdp events)).
    { unfold Injector.cdp. apply fold_left_invariant; [intros s e; apply filed_injector_step|].
      exact filed_init. }
    repeat split; [exact (owner_is_key _ C _ _ Hin)|exact (F _ _ Hin)|].
    intros d H. apply first_for_in in H. exact (resolved_are_gone _ C _ _ _ H Hin).
Qed.

Lemma table_holds_unanswered_calls_witness :
  let events := [ Invoke "Runtime.enable" no_params None Sent;
                  Invoke "DOM.enable" no_params None Sent;
                  Message (Parsed (reply_frame 1 no_params)) ] in
  let entry := {| pc_owner := 2; pc_tid := Some 2; pc_method := "DOM.enable" |} in
  map (Opener.cdp 10000 events) = [(2, entry)] /\
  tabled (Opener.cdp 10000 events) 2 entry.
Proof.
  intros events entry. split; [reflexivity|].
  apply (proj1 (table_holds_unanswered_calls events 2 entry) 10000). simpl. auto.
Defined.

(** *** Timers of the opener *)

(** The timer of a call is filed under the number of the call and holds
    the [reject] of that call; an entry names the timer of its own call;
    and the timer of a call that has been settled is no longer armed. *)
Record timed (st : mux) : Prop := {
  timer_keys_distinct : NoDup (List.map fst (timers st));
  timer_of_call : forall tid t, In (tid, t) (timers st) -> tid <= id st /\ t_owner t = tid;
  entry_names_timer : forall key e, In (key, e) (map st) -> pc_tid e = Some key;
  settled_disarmed : forall k s t,
      In (k, s) (callbacks st) -> In (k, t) (timers st) -> t_state t <> Armed
}.

Lemma timed_init : timed init.
Proof. split; simpl; try tauto. constructor. Qed.

(** Settling call [k] and disarming its timer. *)
Lemma timed_settle st st' k cb :
  timed st ->
  id st' = id st ->
  (forall key e, In (key, e) (map st') -> In (key, e) (map st)) ->
  List.map fst (timers st') = List.map fst (timers st) ->
  (forall k' t, In (k', t) (timers st') ->
                exists t0, In (k', t0) (timers st) /\ t_owner t = t_owner t0) ->
  (forall k' t, In (k', t) (timers st') -> t_state t = Armed ->
                In (k', t) (timers st) /\ (cb <> [] -> k' <> k)) ->
  callbacks st' = callbacks st ++ cb ->
  (forall e, In e cb -> fst e = k) ->
  timed st'.
Proof.
  intros [H1 H2 H3 H4] Hid Hmap Hkeys Hown Harm Hcb Hk. split.
  - now rewrite Hkeys.
  - intros tid t Hin. destruct (Hown _ _ Hin) as [t0 [Hin0 Ho]]. rewrite Hid, Ho. eauto.
  - eauto.
  - intros k' s t Hin Ht Ha. destruct (Harm _ _ Ht Ha) as [Ht0 Hne].
    rewrite Hcb in Hin. apply in_app_iff in Hin as [Hin|Hin].
    + exact (H4 _ _ _ Hin Ht0 Ha).
    + apply Hne; [intros ->; destruct Hin|]. exact (Hk _ Hin).
Qed.

Lemma timed_log st line : timed st -> timed (log st line).
Proof. intros [H1 H2 H3 H4]. split; auto. Qed.

Lemma timed_clear st st' k cb :
  timed st ->
  id st' = id st ->
  (forall key e, In (key, e) (map st') -> In (key, e) (map st)) ->
  timers st' = clearTimeout k (timers st) ->
  callbacks st' = callbacks st ++ cb ->
  (forall e, In e cb -> fst e = k) ->
  timed st'.
Proof.
  intros Tm Hid Hmap Htm Hcb Hk.
  apply (timed_settle st st' k cb); auto; rewrite Htm.
  - apply clearTimeout_keys.
  - intros k' t Hin. apply clearTimeout_in in Hin as [t0 [Hin0 [Ho _]]]. eauto.
  - intros k' t Hin Ha.
    destruct (clearTimeout_not_armed _ _ _ _ (timer_keys_distinct _ Tm) Hin Ha). auto.
Qed.

Lemma timed_reject_entries reason l : forall st,
  timed st ->
  (forall key e, In (key, e) l -> pc_tid e = Some key /\ pc_owner e = key) ->
  timed (reject_entries reason l st).
Proof.
  induction l as [|[key e] l IH]; intros st Tm Hl; simpl; [exact Tm|].
  fold (reject_entries reason l). apply IH; [|intros; apply Hl; now right].
  destruct (Hl key e (or_introl eq_refl)) as [Htid Ho]. rewrite Htid, Ho.
  apply (timed_clear st _ key [(key, Reject reason)]); simpl; auto.
  - intros key0 e0 Hin. now apply map_delete_in in Hin.
  - intros e0 [<-|[]]. reflexivity.
Qed.

Lemma timed_reject_all reason st :
  consistent st -> timed st -> timed (Opener.reject_all reason st).
Proof.
  intros C Tm. rewrite reject_all_entries. apply timed_reject_entries; [exact Tm|].
  intros key e Hin. split; [exact (entry_names_timer _ Tm _ _ Hin)|exact (owner_is_key _ C _ _ Hin)].
Qed.

Lemma timed_opener_step T st ev : consistent st -> timed st -> timed (Opener.step T st ev).
Proof.
  intros C Tm. pose proof Tm as [H1 H2 H3 H4].
  destruct ev as [method params timeout send|m|message| |tid]; simpl.
  - unfold Opener.call. destruct send; split; simpl.
    + rewrite map_app. simpl. apply NoDup_snoc; [|exact H1].
      intros Hin. apply in_map_iff in Hin as [[k t] [Hk Hin]]. simpl in Hk. subst k.
      apply H2 in Hin. lia.
    + intros tid t Hin. apply in_app_iff in Hin as [Hin|[[= <- <-]|[]]]; simpl; [|lia].
      apply H2 in Hin. lia.
    + intros key e Hin. apply map_set_in in Hin as [Hin|[-> ->]]; [eauto|reflexivity].
    + intros k s t Hin Ht. apply in_app_iff in Ht as [Ht|[[= <- <-]|[]]]; [eauto|].
      apply (callbacks_issued _ C) in Hin. lia.
    + exact H1.
    + intros tid t Hin. apply H2 in Hin. lia.
    + exact H3.
    + intros k s t Hin Ht. apply in_app_iff in Hin as [Hin|[[= <- <-]|[]]]; [eauto|].
      apply H2 in Ht. lia.
  - unfold Opener.on_message. destruct m as [raw|d]; [now repeat apply timed_log|].
    destruct (if truthy d then d?."id" else JUndefined) as [| | |q| | |]; try exact Tm.
    destruct (map_get (map st) q) as [entry|] eqn:G; [|exact Tm].
    apply map_get_some in G as [key [Hin Hk]].
    rewrite (H3 _ _ Hin), (owner_is_key _ C _ _ Hin).
    destruct (truthy d?."error");
      (eapply (timed_clear st _ key); [exact Tm|reflexivity| |reflexivity|reflexivity|]);
      simpl; try (intros e [<-|[]]; reflexivity);
      intros key0 e0 Hin0; now apply map_delete_in in Hin0.
  - unfold Opener.on_error. apply timed_reject_all; [now apply consistent_log|now apply timed_log].
  - unfold Opener.on_close. apply timed_reject_all; [now apply consistent_log|now apply timed_log].
  - unfold on_timer. destruct (timer_lookup (timers st) tid) as [t|] eqn:L; [|exact Tm].
    destruct (t_state t) eqn:S; try exact Tm.
    pose proof (timer_lookup_in _ _ _ L) as Hin. destruct (H2 _ _ Hin) as [_ Ho].
    unfold timeout_callback. cbn [map id with_timers].
    destruct (map_has (map st) (inject_Z (id st))).
    + rewrite Ho.
      apply (timed_settle st _ tid [(tid, Reject (Opener.timeout_reason (t_method t)))]);
        simpl; auto.
      * intros key e Hin0. now apply map_delete_in in Hin0.
      * apply set_timer_state_keys.
      * intros k' t' Hin'. apply set_timer_state_in in Hin' as [t0 [Hin0 [Ho' _]]]. eauto.
      * intros k' t' Hin' Ha.
        destruct (set_timer_state_not_armed Fired tid (timers st) k' t') as [Hne Hin0];
          [discriminate|exact Hin'|exact Ha|]. auto.
      * intros e [<-|[]]. reflexivity.
    + apply (timed_settle st _ tid []); simpl; auto.
      * apply set_timer_state_keys.
      * intros k' t' Hin'. apply set_timer_state_in in Hin' as [t0 [Hin0 [Ho' _]]]. eauto.
      * intros k' t' Hin' Ha.
        destruct (set_timer_state_not_armed Fired tid (timers st) k' t') as [Hne Hin0];
          [discriminate|exact Hin'|exact Ha|]. split; [exact Hin0|]. intros H. now destruct H.
      * now rewrite app_nil_r.
      * intros e [].
Qed.

Lemma timed_opener T events : timed (Opener.cdp T events).
Proof.
  unfold Opener.cdp.
  apply (fold_left_invariant2 consistent);
    [intros s e; apply consistent_opener_step|intros s e; apply timed_opener_step
     |exact consistent_init|exact timed_init].
Qed.

(** X5: in the opener every timer holds the [reject] of the call whose number
    it is filed under, and a timer that is still armed belongs to a call
    that is still pending: a call settled by a frame, by the end of the
    connection or by a failed send has no timer that could run. *)
Theorem armed_timers_belong_to_pending_calls :
  forall (CDP_TIMEOUT_MS : Z) (events : list event) (tid : Z) (t : timer),
    let st := Opener.cdp CDP_TIMEOUT_MS events in
    In (tid, t) (timers st) ->
    t_owner t = tid /\ (t_state t = Armed -> promise_state st tid = None).
Proof.
  intros T events tid t st Hin.
  pose proof (timed_opener T events) as Tm. fold st in Tm.
  split; [exact (proj2 (timer_of_call _ Tm _ _ Hin))|].
  intros Ha. destruct (promise_state st tid) as [s|] eqn:E; [|reflexivity].
  apply first_for_in in E. exfalso. exact (settled_disarmed _ Tm _ _ _ E Hin Ha).
Qed.

Lemma armed_timers_belong_to_pending_calls_witness :
  let events := [ Invoke "Runtime.enable" no_params None Sent;
                  Invoke "DOM.enable" no_params (Some 500) Sent;
                  Message (Parsed (reply_frame 1 no_params)) ] in
  let t := {| t_owner := 2; t_method := "DOM.enable"; t_delay := 500; t_state := Armed |} in
  In (2, t) (timers (Opener.cdp 10000 events)) /\
  promise_state (Opener.cdp 10000 events) 2 = None.
Proof.
  intros events t.
  assert (Hin : In (2, t) (timers (Opener.cdp 10000 events))) by (simpl; auto).
  split; [exact Hin|].
  exact (proj2 (armed_timers_belong_to_pending_calls 10000 events 2 t Hin) eq_refl).
Defined.

End MuxInvariants.

(** ** The queries and the point of [pickNode] *)

Module PickFacts.
Import Script NewChat GeometryFacts.

Local Open Scope list_scope.

(** *** The queries of [pickNode] *)

(** The answered queries for the ids [ids], in order. *)
Definition queries (ids : list jsval) (bms : list box_model) : trace :=
  List.map (fun c => OBox (fst c) (BoxResolved (snd c))) (combine ids bms).

(** [best] after the candidates [ids] with the box models [bms]. *)
Definition best_of (best : option candidate) (ids : list jsval) (bms : list box_model)
  : option candidate :=
  fold_left (fun best c => consider best (fst c) (snd c)) (combine ids bms) best.

Definition rounded (best : option candidate) : option picked :=
  match best with
  | None => None
  | Some best => Some {| bid := c_bid best; cx := Math_round (c_cx best);
                         cy := Math_round (c_cy best) |}
  end.

(** How a run of the loop can go: every query is answered, or the first
    rejection ends it. *)
Inductive queried {A : Type} (finish : option candidate -> A) (best : option candidate)
          (ids : list jsval) : trace -> outcome A -> Prop :=
| all_answered (bms : list box_model) :
    List.length bms = List.length ids ->
    queried finish best ids (queries ids bms) (Returned (finish (best_of best ids bms)))
| one_rejected (bms : list box_model) (b : jsval) (reason : string) :
    nth_error ids (List.length bms) = Some b ->
    queried finish best ids
            (queries (firstn (List.length bms) ids) bms ++ [OBox b (BoxRejected reason)])
            (Thrown (JsError reason)).

Section Run.

Variable World : Type.
Variable answer : forall X : Type, request X -> World -> X * World.

Lemma run_pickNode_from_queried ids : forall best w,
  queried (fun c => c) best ids
          (fst (fst (run World answer (pickNode_from best ids) w)))
          (snd (fst (run World answer (pickNode_from best ids) w))).
Proof.
  induction ids as [|b rest IH]; intros best w; simpl.
  - exact (all_answered (fun c => c) best [] [] eq_refl).
  - destruct (answer box_reply (GetBoxModel b) w) as [[bm|reason] w1]; simpl.
    + specialize (IH (consider best b bm) w1).
      destruct (run World answer (pickNode_from (consider best b bm) rest) w1) as [[tr o] w2].
      simpl in *. inversion IH as [bms Hlen Htr Ho|bms b' reason Hnth Htr Ho]; subst.
      * refine (all_answered (fun c => c) best (b :: rest) (bm :: bms) _).
        simpl. now rewrite Hlen.
      * exact (one_rejected (fun c => c) best (b :: rest) (bm :: bms) b' reason Hnth).
    + exact (one_rejected (fun c => c) best (b :: rest) [] b reason eq_refl).
Qed.

Lemma run_pickNode_queried (w : World) (ids : list jsval) :
  queried rounded None ids
          (fst (fst (run World answer (pickNode ids) w)))
          (snd (fst (run World answer (pickNode ids) w))).
Proof.
  unfold pickNode. rewrite ScriptFacts.run_bind.
  pose proof (run_pickNode_from_queried ids None w) as H.
  destruct (run World answer (pickNode_from None ids) w) as [[tr o] w1]. simpl in H.
  inversion H as [bms Hlen Htr Ho|bms b reason Hnth Htr Ho]; subst.
  - destruct (best_of None ids bms) as [c|] eqn:E; simpl; rewrite app_nil_r.
    + pose proof (all_answered rounded None ids bms Hlen) as Q. now rewrite E in Q.
    + pose proof (all_answered rounded None ids bms Hlen) as Q. now rewrite E in Q.
  - simpl. exact (one_rejected rounded None ids bms b reason Hnth).
Qed.

(** X6: [pickNode] asks for the box model of each id once, in the order of
    the list; when every query is answered it returns the rounded best
    candidate; the first query that is rejected ends it with that
    rejection, and the ids after it are not asked for. *)
Theorem pickNode_stops_at_first_rejection :
  forall (w : World) (ids : list jsval),
    queried rounded None ids
            (fst (fst (run World answer (pickNode ids) w)))
            (snd (fst (run World answer (pickNode ids) w))).
Proof. intros w ids. apply run_pickNode_queried. Qed.

End Run.

(** *** Where the click lands *)










Section Picked.

Variable World : Type.
Variable answer : forall X : Type, request X -> World -> X * World.


End Picked.


End PickFacts.

(** ** Errors and order in the strategies and in [main] *)

Module StrategyFacts.
Import Script NewChat ChainFacts Frames.

Local Open Scope list_scope.

(** [returns P p]: whatever the answers, [p] ends by returning a value in
    [P]; it never throws. *)
Fixpoint returns {A : Type} (P : A -> Prop) (p : prog A) : Prop :=
  match p with
  | Ret a => P a
  | Throw _ => False
  | Vis _ k => forall x, returns P (k x)
  end.

Lemma returns_bind {A B : Type} (P1 : A -> Prop) (P2 : B -> Prop) (p : prog A) (f : A -> prog B) :
  returns P1 p -> (forall a, P1 a -> returns P2 (f a)) -> returns P2 (bind p f).
Proof. intros Hp Hf. induction p as [a|e|X rq k IH]; simpl in *; try contradiction; auto. Qed.

(** A [try] whose handler returns: nothing gets out. *)
Lemma returns_try_catch {A : Type} (Q : observed -> Prop) (P : A -> Prop)
      (p : prog A) (h : error -> prog A) :
  sat Q P p -> (forall e, returns P (h e)) -> returns P (try_catch p h).
Proof.
  intros Hp Hh. induction p as [a|e|X rq k IH]; simpl in *; auto.
  - destruct e; [apply Hh|congruence].
  - intros x. apply IH. exact (proj2 (Hp x)).
Qed.

Lemma sat_after_call {A : Type} (Q : observed -> Prop) (P : A -> Prop) method params timeout
      (f : jsval -> prog A) :
  sat Q P (bind (call method params timeout) f) -> forall d, sat Q P (f d).
Proof. intros S d. exact (proj2 (S (Resolved d))). Qed.

Lemma sat_of_try_catch {A : Type} (Q : observed -> Prop) (P : A -> Prop)
      (p : prog A) (h : error -> prog A) :
  sat Q P (try_catch p h) -> (forall e, returns P (h e)) -> returns P (try_catch p h).
Proof.
  intros Hp Hh. induction p as [a|e|X rq k IH]; simpl in *; auto.
  - destruct e; [apply Hh|congruence].
  - intros x. apply IH. exact (proj2 (Hp x)).
Qed.

Section Run.

Variable World : Type.
Variable answer : forall X : Type, request X -> World -> X * World.

Local Abbreviation run := (Script.run World answer).
Local Abbreviation trace_of p w := (fst (fst (Script.run World answer p w))).
Local Abbreviation outcome_of p w := (snd (fst (Script.run World answer p w))).

Lemma returns_run {A : Type} (P : A -> Prop) (p : prog A) :
  returns P p -> forall w, exists a, outcome_of p w = Returned a /\ P a.
Proof.
  induction p as [a|e|X rq k IH]; simpl; intros Hp w.
  - now exists a.
  - contradiction.
  - destruct (answer X rq w) as [x w1]. specialize (IH x (Hp x) w1).
    destruct (run (k x) w1) as [[tr o] w2]. exact IH.
Qed.

(** A program that can fail only at its first call. *)
Definition fails_only_at {A : Type} (first : reply -> observed) (P : A -> Prop)
           (tr : trace) (o : outcome A) : Prop :=
  match o with
  | Returned a => P a
  | Thrown e => exists reason, e = JsError reason /\ tr = [first (Rejected reason)]
  end.

Lemma run_fails_only_at_call {A : Type} (P : A -> Prop) method params timeout
      (f : jsval -> prog A) :
  (forall d, returns P (f d)) ->
  forall w, fails_only_at (OCall method params timeout) P
                          (trace_of (bind (call method params timeout) f) w)
                          (outcome_of (bind (call method params timeout) f) w).
Proof.
  intros Hf w. unfold call. cbn [bind Script.run].
  destruct (answer reply _ w) as [[d|reason] w1]; cbn [bind].
  - destruct (returns_run P (f d) (Hf d) w1) as [a [Ho Ha]].
    destruct (run (f d) w1) as [[tr o] w2]. simpl in *. now rewrite Ho.
  - simpl. now exists reason.
Qed.

Variable AX_NAME : string.
Variable AX_ROLE : string.
Variable AX_TIMEOUT_MS : Z.
Variable FRAME_TIMEOUT_MS : Z.

(** X8: [clickByAXQuery] throws only when [DOM.getDocument] is rejected,
    and then nothing else has been asked of the page; once the document
    is there, every failure on the way (a rejected query, a reply of the
    wrong shape, a rejected click) ends in a result, which is
    [{ ok: false }] or has a truthy [ok]. *)
Theorem clickByAXQuery_fails_only_at_getDocument :
  forall w : World,
    fails_only_at (OCall "DOM.getDocument" (obj [("depth", jint 0)]) None) ok_or_failure
                  (trace_of (clickByAXQuery AX_NAME AX_ROLE AX_TIMEOUT_MS) w)
                  (outcome_of (clickByAXQuery AX_NAME AX_ROLE AX_TIMEOUT_MS) w).
Proof.
  intros w. pose proof (sat_clickByAXQuery AX_NAME AX_ROLE AX_TIMEOUT_MS) as S.
  unfold clickByAXQuery in *.
  apply run_fails_only_at_call. intros doc.
  pose proof (sat_after_call _ _ _ _ _ _ S doc) as Sd. cbv beta in Sd.
  destruct (negb (truthy doc?."root"?."nodeId")); [exact Sd|].
  apply (sat_of_try_catch _ _ _ _ Sd). intros e. exact failure_ok.
Qed.

(** *** The frames, one by one *)

(** The frames for which an isolated world was asked, in the order of the
    requests. *)
Definition worlds_requested (tr : trace) : list jsval :=
  flat_map (fun o => match o with
                     | OCall method params _ _ =>
                         if String.eqb method "Page.createIsolatedWorld"
                         then [params?."frameId"] else []
                     | _ => []
                     end) tr.

(** What a pass over the frames comes to: a result, the frames tried
    being the first [n] of the list, at two calls each at most. *)
Definition frames_tried (frames : list jsval) (tr : trace) (o : outcome jsval) : Prop :=
  exists (r : jsval) (n : nat),
    o = Returned r /\ ok_or_failure r /\
    (n <= List.length frames)%nat /\
    worlds_requested tr = firstn n frames /\
    (List.length tr <= 2 * n)%nat /\
    (truthy r?."ok" = false -> n = List.length frames).

(** X9: the loop over the frames of [clickByFrames] never throws: a frame
    whose isolated world or whose evaluation is rejected is passed over
    and the next frame is tried.  The frames are tried in the order of the
    list, at two calls each at most, up to the first that reports a truthy
    [ok]; a result without it means every frame was tried. *)
Theorem frame_failures_are_contained :
  forall (frames : list jsval) (w : World),
    frames_tried frames (trace_of (try_frames FRAME_TIMEOUT_MS frames) w)
                 (outcome_of (try_frames FRAME_TIMEOUT_MS frames) w).
Proof.
  intros frames. induction frames as [|fid rest IH]; intros w.
  - exists failure, 0%nat. simpl. repeat split; auto using failure_ok.
  - assert (Hnext : forall (pre : trace) w',
               worlds_requested pre = [fid] -> (List.length pre <= 2)%nat ->
               frames_tried (fid :: rest)
                            (pre ++ trace_of (try_frames FRAME_TIMEOUT_MS rest) w')
                            (outcome_of (try_frames FRAME_TIMEOUT_MS rest) w')).
    { intros pre w' Hpre Hlen. destruct (IH w') as [r [n [Ho [Hr [Hn [Hw [Hl Hall]]]]]]].
      exists r, (S n). repeat split; auto.
      - simpl. lia.
      - unfold worlds_requested in *. rewrite flat_map_app, Hpre, Hw. reflexivity.
      - rewrite length_app. lia.
      - intros Hf. simpl. now rewrite (Hall Hf). }
    cbn [try_frames]. unfold call. cbn [bind try_catch Script.run].
    destruct (answer reply _ w) as [[iw|reason] w1]; cbn [bind try_catch Script.run fst snd observe].
    2:{ specialize (Hnext [OCall "Page.createIsolatedWorld"
                                 (obj [("frameId", fid); ("worldName", JStr "newchat");
                                       ("grantUniveralAccess", JBool true)])
                                 (Some FRAME_TIMEOUT_MS) (Rejected reason)] w1
                          eq_refl ltac:(simpl; lia)).
        destruct (Script.run World answer (try_frames FRAME_TIMEOUT_MS rest) w1) as [[tr o] w2].
        exact Hnext. }
    destruct (answer reply _ w1) as [[rv|reason] w2]; cbn [bind try_catch Script.run fst snd observe].
    2:{ specialize (Hnext [OCall "Page.createIsolatedWorld"
                                 (obj [("frameId", fid); ("worldName", JStr "newchat");
                                       ("grantUniveralAccess", JBool true)])
                                 (Some FRAME_TIMEOUT_MS) (Resolved iw);
                           OCall "Runtime.evaluate"
                                 (obj [("expression", JStr (click_expression "frame"));
                                       ("awaitPromise", JBool true); ("returnByValue", JBool true);
                                       ("contextId", iw?."executionContextId")])
                                 None (Rejected reason)] w2
                          eq_refl ltac:(simpl; lia)).
        destruct (Script.run World answer (try_frames FRAME_TIMEOUT_MS rest) w2) as [[tr o] w3].
        exact Hnext. }
    destruct (truthy rv?."result"?."result"?."value" &&
              truthy rv?."result"?."result"?."value"?."ok") eqn:E;
      cbn [bind try_catch Script.run fst snd].
    + apply andb_true_iff in E as [_ E].
      exists rv?."result"?."result"?."value", 1%nat. simpl.
      repeat split; auto; try lia; [now right|congruence].
    + specialize (Hnext [OCall "Page.createIsolatedWorld"
                                 (obj [("frameId", fid); ("worldName", JStr "newchat");
                                       ("grantUniveralAccess", JBool true)])
                                 (Some FRAME_TIMEOUT_MS) (Resolved iw);
                           OCall "Runtime.evaluate"
                                 (obj [("expression", JStr (click_expression "frame"));
                                       ("awaitPromise", JBool true); ("returnByValue", JBool true);
                                       ("contextId", iw?."executionContextId")])
                                 None (Resolved rv)] w2
                          eq_refl ltac:(simpl; lia)).
      destruct (Script.run World answer (try_frames FRAME_TIMEOUT_MS rest) w2) as [[tr o] w3].
      exact Hnext.
Qed.

End Run.

(** *** The order of the frames *)

Definition named (id : string) : bool := negb (String.eqb id "").

(** The ids [clickByFrames] collects from a tree. *)
Definition frame_ids (ts : list frame_tree) : list jsval :=
  List.map JStr (filter named (List.concat (List.map last_child_first ts))).

Lemma Forall2_rev {A B : Type} (R : A -> B -> Prop) (l1 : list A) (l2 : list B) :
  Forall2 R l1 l2 -> Forall2 R (rev l1) (rev l2).
Proof.
  induction 1 as [|a b l1 l2 Hab H IH]; simpl; [constructor|].
  apply Forall2_app; [exact IH|repeat constructor; exact Hab].
Qed.

Lemma collect_frames_walk (fuel : nat) : forall stack ts frames,
  Forall2 reads_as stack ts ->
  (weights stack <= fuel)%nat ->
  collect_frames fuel stack frames = inr (frames ++ frame_ids ts).
Proof.
  induction fuel as [|fuel IH]; intros stack ts frames Hst Hw.
  - destruct Hst as [|n t stack ts Hn Hst]; [simpl; now rewrite app_nil_r|].
    exfalso. pose proof (weight_pos n). unfold weights in Hw. simpl in Hw. lia.
  - destruct Hst as [|n t stack ts Hn Hst]; [simpl; now rewrite app_nil_r|].
    destruct Hn as [n id items children Hid Hitems Hch].
    cbn [collect_frames]. rewrite Hid, Hitems.
    pose proof (weights_children n items Hitems) as Hlt.
    rewrite (IH (rev items ++ stack) (rev children ++ ts)).
    + unfold frame_ids. cbn [List.map last_child_first List.concat].
      rewrite map_app, concat_app, map_rev. cbn [app filter truthy]. unfold named at 2.
      destruct (String.eqb id ""); cbn [negb List.map];
        rewrite ?filter_app, ?map_app, <- ?app_assoc; reflexivity.
    + apply Forall2_app; [now apply Forall2_rev|exact Hst].
    + rewrite weights_app, weights_rev. unfold weights in *. simpl in *. lia.
Qed.

Lemma collect_frames_last_child_first (ft : jsval) (t : frame_tree) :
  reads_as ft?."frameTree" t ->
  collect_frames (S (jsize ft)) (filter truthy [ft?."frameTree"]) []
  = inr (List.map JStr (filter named (last_child_first t))).
Proof.
  intros Ht.
  assert (Htruthy : truthy ft?."frameTree" = true).
  { inversion Ht as [n id items children Hid _ _]; subst.
    destruct (ft?."frameTree"); simpl in *; try discriminate; reflexivity. }
  cbn [filter]. rewrite Htruthy.
  rewrite (collect_frames_walk (S (jsize ft)) [ft?."frameTree"] [t] []).
  - unfold frame_ids. simpl. now rewrite app_nil_r.
  - repeat constructor. exact Ht.
  - unfold weights. simpl. rewrite Nat.add_0_r.
    pose proof (weight_le_jsize ft?."frameTree") as Hw.
    destruct ft as [| |b|q|s|l|fs]; simpl in *; try discriminate.
    pose proof (jsize_field _ _ Htruthy). simpl in *. lia.
Qed.

Section Walk.

Variable World : Type.
Variable answer : forall X : Type, request X -> World -> X * World.
Variable FRAME_TIMEOUT_MS : Z.

(** X10: when [Page.getFrameTree] is answered with a reply that reads as a
    frame tree, [clickByFrames] collects the frames that have a non-empty
    id, the top frame first and then, at every frame, the subtrees from
    the last child to the first (the walk ends within the fuel of the
    model), and goes through the frames in that order. *)
Theorem clickByFrames_walks_last_child_first :
  forall (w w1 : World) (ft : jsval) (t : frame_tree),
    answer reply (Call "Page.getFrameTree" (obj []) None) w = (Resolved ft, w1) ->
    reads_as ft?."frameTree" t ->
    let frames := List.map JStr (filter named (last_child_first t)) in
    collect_frames (S (jsize ft)) (filter truthy [ft?."frameTree"]) [] = inr frames /\
    Script.run World answer (clickByFrames FRAME_TIMEOUT_MS) w =
    (OCall "Page.getFrameTree" (obj []) None (Resolved ft)
       :: fst (fst (Script.run World answer (try_frames FRAME_TIMEOUT_MS frames) w1)),
     snd (fst (Script.run World answer (try_frames FRAME_TIMEOUT_MS frames) w1)),
     snd (Script.run World answer (try_frames FRAME_TIMEOUT_MS frames) w1)).
Proof.
  intros w w1 ft t Hanswer Ht frames.
  pose proof (collect_frames_last_child_first ft t Ht) as Hwalk. fold frames in Hwalk.
  split; [exact Hwalk|].
  unfold clickByFrames, call. cbn [bind Script.run]. rewrite Hanswer. cbn [bind].
  rewrite Hwalk. cbn [lift bind observe].
  destruct (Script.run World answer (try_frames FRAME_TIMEOUT_MS frames) w1) as [[tr o] w2].
  reflexivity.
Qed.

End Walk.

(** A page with two child frames, the first of which has a child of its own
    and the second of which has no id. *)
Definition leaf (id : string) : jsval := obj [("frame", obj [("id", JStr id)])].

Definition nested_frames : jsval :=
  obj [("frameTree",
        obj [("frame", obj [("id", JStr "top")]);
             ("childFrames",
              JArr [obj [("frame", obj [("id", JStr "ads")]);
                         ("childFrames", JArr [leaf "banner"])];
                    leaf "";
                    leaf "chat"])])].

Definition nested_tree : frame_tree :=
  Frame "top" [Frame "ads" [Frame "banner" []]; Frame "" []; Frame "chat" []].

Lemma clickByFrames_walks_last_child_first_witness :
  let w := [Answer (Resolved nested_frames)] in
  collect_frames (S (jsize nested_frames)) (filter truthy [nested_frames?."frameTree"]) []
  = inr [JStr "top"; JStr "chat"; JStr "ads"; JStr "banner"] /\
  List.map (fun o => match o with
                     | OCall "Page.createIsolatedWorld" params _ _ => params?."frameId"
                     | _ => JUndefined
                     end)
           (filter (fun o => match o with
                             | OCall "Page.createIsolatedWorld" _ _ _ => true
                             | _ => false
                             end)
                   (fst (fst (Script.run (list scripted) replay (clickByFrames 2000) w))))
  = [JStr "top"; JStr "chat"; JStr "ads"; JStr "banner"].
Proof.
  intros w.
  assert (Ht : reads_as nested_frames?."frameTree" nested_tree).
  { eapply reads_frame; [reflexivity|reflexivity|].
    repeat constructor.
    - eapply reads_frame; [reflexivity|reflexivity|].
      repeat constructor. eapply reads_frame; [reflexivity|reflexivity|constructor].
    - eapply reads_frame; [reflexivity|reflexivity|constructor].
    - eapply reads_frame; [reflexivity|reflexivity|constructor]. }
  destruct (clickByFrames_walks_last_child_first (list scripted) replay 2000 w []
              nested_frames nested_tree eq_refl Ht) as [Hwalk Hrun].
  split; [exact Hwalk|]. rewrite Hrun. reflexivity.
Defined.

(** *** How [main] ends *)








Section Main.

Variable AX_NAME : string.
Variable AX_ROLE : string.
Variable MAX_TOTAL_MS : Z.
Variable AX_TIMEOUT_MS : Z.
Variable FRAME_TIMEOUT_MS : Z.




Variable World : Type.
Variable answer : forall X : Type, request X -> World -> X * World.




End Main.

End StrategyFacts.

(** ** What the injected script does to the page *)

Module InjectionFacts.
Import Page PageFacts.

Local Open Scope list_scope.

(** *** Updating and reading the document *)











(** *** The steps of the injected script *)















Record after (pg pg' : page) (evs : list (path * dom_event)) : Prop := {
  after_dispatched : dispatched pg' = dispatched pg ++ evs;
  after_active : activeElement pg' = activeElement pg;
  after_InputEvent : hasInputEvent pg' = hasInputEvent pg
}.






Lemma text_entry_event el name : text_entry el [(el, Event name)].
Proof. repeat constructor. Qed.







(** *** The injected script as a whole *)













(** *** The verifier and the injector look at the same control *)



(** [el.getAttribute('placeholder') || ''] *)
Definition placeholder (e : element) : string :=
  match attr "placeholder" (attributes e) with
  | Some s => s
  | None => ""
  end.



End InjectionFacts.

(** ** The tab the two programs work on *)

Module TargetFacts.
Import Targets.

Local Open Scope list_scope.

(** The requests made over HTTP, with their answers. *)
Fixpoint fetches (tr : list observed) : list (string * fetched) :=
  match tr with
  | [] => []
  | OFetch url r :: rest => (url, r) :: fetches rest
  | OLine _ :: rest => fetches rest
  end.

Lemma fetches_app (tr1 tr2 : list observed) :
  fetches (tr1 ++ tr2) = fetches tr1 ++ fetches tr2.
Proof.
  induction tr1 as [|[url r|l] tr1 IH]; simpl; [reflexivity| |exact IH].
  now rewrite IH.
Qed.

(** A request answered with a response that is [ok] and whose text is the
    JSON of [v]. *)
Definition answered_json (r : fetched) (v : jsval) : Prop :=
  exists resp text, r = Fetched resp /\ ok resp = true /\ body resp = Text text (inr v).

Definition passed_over (accepts : jsval -> string + bool) (x : jsval) : Prop :=
  accepts x = inr false.

(** [t] is the first entry of [l] that [accepts] takes. *)
Definition first_taken (accepts : jsval -> string + bool) (l : list jsval) (t : jsval) : Prop :=
  exists before after,
    l = before ++ t :: after /\ Forall (passed_over accepts) before /\ accepts t = inr true.

Lemma find_in_opener (l : list jsval) :
  (exists t, find_in opener_accepts l = inr t /\ truthy t = true /\
             first_taken opener_accepts l t) \/
  (find_in opener_accepts l = inr JUndefined /\ Forall (passed_over opener_accepts) l).
Proof.
  induction l as [|x l IH]; cbn [find_in]; [right; split; [reflexivity|constructor]|].
  destruct (opener_accepts x) as [e|[|]] eqn:E; [discriminate| |].
  - left. exists x. split; [reflexivity|]. split.
    + unfold opener_accepts in E. injection E as E.
      now apply andb_prop in E as [E _]; apply andb_prop in E as [E _].
    + exists [], l. auto.
  - destruct IH as [[t [Hf [Ht [before [after [-> [Hb Ha]]]]]]]|[Hf Hall]].
    + left. exists t. split; [exact Hf|]. split; [exact Ht|].
      exists (x :: before), after. auto.
    + right. split; [exact Hf|]. constructor; assumption.
Qed.

Definition nullish (v : jsval) : Prop := v = JUndefined \/ v = JNull.

(** How a run of [ensureTarget] can go. *)
Inductive ensured (BASE : string) : list observed -> string + jsval -> Prop :=
| reused (tr : list observed) (r0 : fetched) (l : list jsval) (t : jsval) :
    fetches tr = [((BASE ++ "/json/list")%string, r0)] ->
    answered_json r0 (JArr l) ->
    first_taken opener_accepts l t ->
    ensured BASE tr (inr t)
| created (tr : list observed) (r0 r1 : fetched) (l : list jsval) (t : jsval) :
    fetches tr = [((BASE ++ "/json/list")%string, r0);
                  ((BASE ++ "/json/new?" ++ encoded_target)%string, r1)] ->
    answered_json r0 (JArr l) ->
    Forall (passed_over opener_accepts) l ->
    answered_json r1 t ->
    ~ nullish t ->
    ensured BASE tr (inr t)
| failed_to_list (tr : list observed) (r0 : fetched) (message : string) :
    fetches tr = [((BASE ++ "/json/list")%string, r0)] ->
    (forall l, ~ answered_json r0 (JArr l)) ->
    ensured BASE
            (tr ++ [OLine (EnsureFailed message); OLine EnsureChrome; OLine StartChrome])
            (inl message)
| failed_to_create (tr : list observed) (r0 r1 : fetched) (l : list jsval) (message : string) :
    fetches tr = [((BASE ++ "/json/list")%string, r0);
                  ((BASE ++ "/json/new?" ++ encoded_target)%string, r1)] ->
    answered_json r0 (JArr l) ->
    Forall (passed_over opener_accepts) l ->
    (forall t, answered_json r1 t -> nullish t) ->
    ensured BASE
            (tr ++ [OLine (EnsureFailed message); OLine EnsureChrome; OLine StartChrome])
            (inl message).

Lemma not_answered_unreachable (message : string) (v : jsval) :
  ~ answered_json (Unreachable message) v.
Proof. intros [resp [text [H _]]]. discriminate. Qed.

Lemma not_answered_not_ok (resp : response) (v : jsval) :
  ok resp = false -> ~ answered_json (Fetched resp) v.
Proof. intros Hok [resp' [text [[= <-] [H _]]]]. congruence. Qed.

Lemma not_answered_broken (resp : response) (message : string) (v : jsval) :
  body resp = Broken message -> ~ answered_json (Fetched resp) v.
Proof. intros Hb [resp' [text [[= <-] [_ H]]]]. congruence. Qed.

Lemma not_answered_not_json (resp : response) (text message : string) (v : jsval) :
  body resp = Text text (inl message) -> ~ answered_json (Fetched resp) v.
Proof. intros Hb [resp' [text' [[= <-] [_ H]]]]. congruence. Qed.

Lemma answered_json_unique (resp : response) (text : string) (v v' : jsval) :
  body resp = Text text (inr v) -> answered_json (Fetched resp) v' -> v' = v.
Proof. intros Hb [resp' [text' [[= <-] [_ H]]]]. congruence. Qed.

Lemma answered_json_intro (resp : response) (text : string) (v : jsval) :
  ok resp = true -> body resp = Text text (inr v) -> answered_json (Fetched resp) v.
Proof. intros Hok Hb. exists resp, text. auto. Qed.

Section Run.

Variable BASE : string.
Variable World : Type.
Variable fetch : string -> World -> fetched * World.

(** X16: [ensureTarget] asks for the list of targets once; it returns the
    first entry of the list that is a page whose url contains the site's
    name, and then asks for nothing else; only when the list is an array
    with no such entry does it ask the browser for a new tab, once, and
    return what that request answers; every failure (a request that is
    rejected or not [ok], a body that is not JSON, a list that is not an
    array, a nullish new tab) is reported with the two lines of advice
    and thrown on. *)
Theorem ensureTarget_opens_a_tab_only_if_none_is_open :
  forall w : World,
    ensured BASE (fst (fst (Opener.ensureTarget BASE World fetch w)))
                 (snd (fst (Opener.ensureTarget BASE World fetch w))).
Proof.
  intros w.
  unfold Opener.ensureTarget, Opener.j, try_catch, bind, console, fetch_url, text_of, throw,
    ret, lift.
  destruct (fetch (BASE ++ "/json/list")%string w) as [[resp|message] w1] eqn:F0;
    cbn [fst snd app negb].
  2: { eapply (failed_to_list BASE [_; _; _]); [reflexivity|].
       intros l. apply not_answered_unreachable. }
  destruct (ok resp) eqn:Hok; cbn [fst snd app negb].
  2: { eapply (failed_to_list BASE [_; _; _]); [reflexivity|].
       intros l. now apply not_answered_not_ok. }
  destruct (body resp) as [text [perr|list]|broken] eqn:Hb; cbn [fst snd app negb].
  3: { eapply (failed_to_list BASE [_; _; _]); [reflexivity|].
       intros l. now apply (not_answered_broken resp broken). }
  1: { eapply (failed_to_list BASE [_; _; _; _]); [reflexivity|].
       intros l. now apply (not_answered_not_json resp text perr). }
  assert (Hlist : answered_json (Fetched resp) list) by now apply (answered_json_intro resp text).
  assert (Hother : (forall l, list <> JArr l) -> forall l, ~ answered_json (Fetched resp) (JArr l)).
  { intros Hne l H. apply (answered_json_unique resp text list) in H; [|exact Hb].
    now apply (Hne l). }
  destruct list as [| |b|q|s|l|fs]; cbn [find message_of type_error fst snd app];
    try (eapply (failed_to_list BASE [_; _]); [reflexivity|]; apply Hother; discriminate).
  destruct (find_in_opener l) as [[t [-> [-> Ht]]]|[-> Hnone]]; cbn [fst snd app truthy].
  { eapply (reused BASE _ _ l t); [reflexivity|exact Hlist|exact Ht]. }
  destruct (fetch (BASE ++ "/json/new?" ++ encoded_target)%string w1)
    as [[resp1|message] w2] eqn:F1; cbn [fst snd app negb].
  2: { eapply (failed_to_create BASE [_; _; _; _] _ _ l); [reflexivity|exact Hlist|exact Hnone|].
       intros t H. now apply not_answered_unreachable in H. }
  destruct (ok resp1) eqn:Hok1; cbn [fst snd app negb].
  2: { eapply (failed_to_create BASE [_; _; _; _] _ _ l); [reflexivity|exact Hlist|exact Hnone|].
       intros t H. now apply not_answered_not_ok in H. }
  destruct (body resp1) as [text1 [perr|newTab]|broken] eqn:Hb1; cbn [fst snd app negb].
  3: { eapply (failed_to_create BASE [_; _; _; _] _ _ l); [reflexivity|exact Hlist|exact Hnone|].
       intros t H. now apply (not_answered_broken resp1 broken) in H. }
  1: { eapply (failed_to_create BASE [_; _; _; _; _] _ _ l); [reflexivity|exact Hlist|exact Hnone|].
       intros t H. now apply (not_answered_not_json resp1 text1 perr) in H. }
  assert (Hnew : answered_json (Fetched resp1) newTab)
    by now apply (answered_json_intro resp1 text1).
  destruct newTab as [| |b|q|s|items|fs]; cbn [get message_of type_error fst snd app];
    try (eapply (created BASE _ _ _ l); [reflexivity|exact Hlist|exact Hnone|exact Hnew|];
         intros [H|H]; discriminate);
    (eapply (failed_to_create BASE [_; _; _; _; _] _ _ l); [reflexivity|exact Hlist|exact Hnone|];
     intros t H; apply (answered_json_unique resp1 text1 _ t Hb1) in H; subst t;
     unfold nullish; auto).
Qed.

End Run.

(** *** The two programs on the same list *)

Lemma opener_accepts_injector (x : jsval) :
  opener_accepts x = inr true -> injector_accepts x = inr true.
Proof.
  unfold opener_accepts, injector_accepts. intros [= H].
  apply andb_prop in H as [H Hurl]. apply andb_prop in H as [Hx _].
  destruct x as [| |b|q|s|l|fs]; simpl in *; try discriminate.
  destruct (assoc "url" fs); try discriminate. now rewrite Hurl.
Qed.

Lemma injector_error_nullish (x : jsval) (message : string) :
  injector_accepts x = inl message -> nullish x.
Proof.
  unfold injector_accepts, nullish.
  destruct x as [| |b|q|s|l|fs]; simpl; auto; try discriminate.
  destruct (assoc "url" fs); discriminate.
Qed.

Lemma injector_only (x : jsval) :
  opener_accepts x = inr false -> injector_accepts x = inr true ->
  strict_eq_str x?."type" "page" = false.
Proof.
  unfold opener_accepts, injector_accepts. intros [= H] Hi.
  destruct (strict_eq_str x?."type" "page"); [|reflexivity]. exfalso.
  destruct x as [| |b|q|s|l|fs]; simpl in *; try discriminate.
  destruct (assoc "url" fs); try discriminate. congruence.
Qed.

Lemma find_in_injector (before : list jsval) (t : jsval) (after : list jsval) :
  Forall (passed_over opener_accepts) before ->
  opener_accepts t = inr true ->
  (exists x message, In x before /\ nullish x /\
                     find_in injector_accepts (before ++ t :: after) = inl message) \/
  (exists t', find_in injector_accepts (before ++ t :: after) = inr t' /\
              first_taken injector_accepts (before ++ t :: after) t' /\
              (t' = t \/ strict_eq_str t'?."type" "page" = false)).
Proof.
  intros Hb Ht. induction Hb as [|x before Hx Hb IH]; cbn [app find_in].
  - right. exists t. rewrite (opener_accepts_injector t Ht).
    split; [reflexivity|]. split; [|now left].
    exists [], after. auto using opener_accepts_injector.
  - destruct (injector_accepts x) as [message|[|]] eqn:E.
    + left. exists x, message. split; [now left|].
      split; [exact (injector_error_nullish x message E)|reflexivity].
    + right. exists x. split; [reflexivity|]. split.
      * exists [], (before ++ t :: after). auto.
      * right. exact (injector_only x Hx E).
    + destruct IH as [[y [message [Hin [Hy Hf]]]]|[t' [Hf [[b [a [Hl [Hpass Hacc]]]] Hor]]]].
      * left. exists y, message. split; [now right|]. auto.
      * right. exists t'. split; [exact Hf|]. split; [|exact Hor].
        exists (x :: b), a. simpl. rewrite Hl. repeat split; auto.
Qed.

Lemma find_in_first_taken (accepts : jsval -> string + bool) (l : list jsval) (t : jsval) :
  first_taken accepts l t -> find_in accepts l = inr t.
Proof.
  intros [before [after [-> [Hb Ht]]]].
  induction Hb as [|x before Hx Hb IH]; cbn [app find_in].
  - now rewrite Ht.
  - now rewrite Hx.
Qed.

Lemma opener_accepts_truthy (t : jsval) : opener_accepts t = inr true -> truthy t = true.
Proof.
  unfold opener_accepts. intros [= H].
  now apply andb_prop in H as [H _]; apply andb_prop in H as [H _].
Qed.

Section Same.

Variable BASE : string.
Variable World : Type.
Variable fetch : string -> World -> fetched * World.

(** X17: on the same browser, whose list of targets holds a tab the opener
    takes, the opener returns that tab, and the injector either stops with
    a TypeError at a nullish entry of the list, or finds a target: the
    same tab, or an earlier entry whose url contains the site's name and
    whose type is not ['page'] (the injector looks at the url only). *)
Theorem injector_takes_the_openers_tab_or_an_earlier_target :
  forall (w w1 : World) (r0 : fetched) (l : list jsval) (t : jsval),
    fetch (BASE ++ "/json/list")%string w = (r0, w1) ->
    answered_json r0 (JArr l) ->
    first_taken opener_accepts l t ->
    snd (fst (Opener.ensureTarget BASE World fetch w)) = inr t /\
    ((exists x message,
         In x l /\ nullish x /\
         snd (fst (Injector.findDeepseekTarget BASE World fetch w)) = inl message) \/
     (exists t',
         snd (fst (Injector.findDeepseekTarget BASE World fetch w)) = inr t' /\
         first_taken injector_accepts l t' /\
         (t' = t \/ strict_eq_str t'?."type" "page" = false))).
Proof.
  intros w w1 r0 l t F0 [resp [text [-> [Hok Hb]]]] Ht.
  pose proof (find_in_first_taken _ l t Ht) as Hfind.
  destruct Ht as [before [after [-> [Hbefore Ht]]]]. split.
  - unfold Opener.ensureTarget, Opener.j, try_catch, bind, console, fetch_url, text_of,
      throw, ret, lift.
    rewrite F0. cbn [fst snd app negb]. rewrite Hok. cbn [fst snd app negb]. rewrite Hb.
    cbn [fst snd app find]. rewrite Hfind. cbn [fst snd app].
    now rewrite (opener_accepts_truthy t Ht).
  - unfold Injector.findDeepseekTarget, Injector.j, bind, fetch_url, text_of, throw, ret, lift.
    rewrite F0. cbn [fst snd app]. rewrite Hb. cbn [fst snd app find].
    destruct (find_in_injector before t after Hbefore Ht)
      as [[x [message [Hin [Hx Hf]]]]|[t' [Hf H]]].
    + left. exists x, message. rewrite Hf. split; [|auto]. apply in_or_app. now left.
    + right. exists t'. rewrite Hf. auto.
Qed.

End Same.

(** A browser with a service worker of the site listed before the tab. *)
Definition worker : jsval :=
  obj [("type", JStr "service_worker"); ("url", JStr "https://chat.deepseek.com/sw.js")].

Definition tab : jsval :=
  obj [("type", JStr "page"); ("url", JStr "https://chat.deepseek.com/a/chat")].

Definition listing : fetched :=
  Fetched {| ok := true; status := 200; body := Text "[...]" (inr (JArr [worker; tab])) |}.

Definition browser (url : string) (w : unit) : fetched * unit := (listing, w).

Lemma injector_takes_the_openers_tab_or_an_earlier_target_witness :
  snd (fst (Opener.ensureTarget "http://127.0.0.1:9222" unit browser tt)) = inr tab /\
  snd (fst (Injector.findDeepseekTarget "http://127.0.0.1:9222" unit browser tt)) = inr worker.
Proof.
  assert (Hl : answered_json listing (JArr [worker; tab])).
  { eexists _, _. split; [reflexivity|]. split; reflexivity. }
  assert (Ht : first_taken opener_accepts [worker; tab] tab).
  { exists [worker], []. split; [reflexivity|]. split; [|reflexivity].
    repeat constructor. }
  destruct (injector_takes_the_openers_tab_or_an_earlier_target
              "http://127.0.0.1:9222" unit browser tt tt listing [worker; tab] tab
              eq_refl Hl Ht) as [Ho _].
  split; [exact Ho|reflexivity].
Defined.

End TargetFacts.

(** ** The batches of the dialogue extractor *)

Module DialogueFacts.
Import Dialogue.

Local Open Scope list_scope.

Section Batching.

Variable unit16 : Type.
Variable htmlContent : list unit16.
Variable batchSize : Z.

Local Abbreviation len := (length16 unit16 htmlContent).

(** The batch that starts at [i]. *)
Definition batch_at (i : Z) : batch unit16 :=
  {| content := firstn (Z.to_nat batchSize) (skipn (Z.to_nat i) htmlContent);
     index := i;
     isLast := len <=? i + batchSize |}.

Lemma slice_batch (i : Z) :
  0 <= i < len -> 1 <= batchSize ->
  slice unit16 htmlContent i (i + batchSize)
  = firstn (Z.to_nat batchSize) (skipn (Z.to_nat i) htmlContent).
Proof.
  intros Hi HB. unfold slice. fold len.
  destruct (Z.ltb_spec i 0); [lia|]. destruct (Z.ltb_spec (i + batchSize) 0); [lia|].
  rewrite (Z.min_l i len) by lia.
  destruct (Z.le_ge_cases (i + batchSize) len) as [Hle|Hge].
  - rewrite Z.min_l by lia. f_equal. lia.
  - rewrite Z.min_r by lia.
    assert (Hlen : List.length (skipn (Z.to_nat i) htmlContent) = Z.to_nat (len - i)).
    { rewrite length_skipn. unfold length16. lia. }
    rewrite !firstn_all2; [reflexivity| |]; rewrite Hlen; lia.
Qed.

(** The starts of the batches from [i] on: [i], [i + batchSize], ... *)
Fixpoint starts (n : nat) (i : Z) : list Z :=
  match n with
  | O => []
  | S n => i :: starts n (i + batchSize)
  end.

(** The number of batches from [i] on. *)
Definition count_from (i : Z) : nat := Z.to_nat ((len - i + batchSize - 1) / batchSize).

Lemma count_from_past (i : Z) : 1 <= batchSize -> len <= i -> count_from i = 0%nat.
Proof.
  intros HB Hi. unfold count_from.
  assert ((len - i + batchSize - 1) / batchSize <= 0); [|lia].
  apply Z.lt_succ_r. apply Z.div_lt_upper_bound; lia.
Qed.

Lemma count_from_step (i : Z) :
  1 <= batchSize -> i < len -> count_from i = S (count_from (i + batchSize)).
Proof.
  intros HB Hi. unfold count_from.
  replace (len - i + batchSize - 1) with ((len - (i + batchSize) + batchSize - 1) + 1 * batchSize)
    by lia.
  rewrite Z.div_add by lia.
  destruct (Z.le_gt_cases len (i + batchSize)) as [Hle|Hgt].
  - assert (E : (len - (i + batchSize) + batchSize - 1) / batchSize = 0).
    { apply Z.div_small. lia. }
    rewrite E. reflexivity.
  - assert (0 <= (len - (i + batchSize) + batchSize - 1) / batchSize)
      by (apply Z.div_pos; lia).
    lia.
Qed.

Lemma batches_from_runs (fuel : nat) : forall i : Z,
  1 <= batchSize -> 0 <= i -> len - i <= Z.of_nat fuel ->
  batches_from unit16 fuel htmlContent batchSize i
  = Some (List.map batch_at (starts (count_from i) i)).
Proof.
  induction fuel as [|fuel IH]; intros i HB Hi Hfuel; simpl; fold len.
  - destruct (Z.ltb_spec i len); [lia|]. now rewrite count_from_past.
  - destruct (Z.ltb_spec i len) as [Hlt|Hge]; [|now rewrite count_from_past].
    rewrite IH by lia. rewrite (count_from_step i HB Hlt). simpl.
    unfold batch_at at 2. now rewrite slice_batch by lia.
Qed.

Lemma concat_batches (n : nat) : forall i : Z,
  1 <= batchSize -> 0 <= i -> len <= i + Z.of_nat n * batchSize ->
  List.concat (List.map (@content unit16) (List.map batch_at (starts n i)))
  = skipn (Z.to_nat i) htmlContent.
Proof.
  induction n as [|n IH]; intros i HB Hi Hn; simpl.
  - rewrite skipn_all2; [reflexivity|]. unfold length16 in *. lia.
  - rewrite IH by lia.
    replace (Z.to_nat (i + batchSize)) with (Z.to_nat batchSize + Z.to_nat i)%nat by lia.
    rewrite <- skipn_skipn. apply firstn_skipn.
Qed.

Lemma count_from_covers (i : Z) :
  1 <= batchSize -> len <= i + Z.of_nat (count_from i) * batchSize.
Proof.
  intros HB. unfold count_from.
  destruct (Z.le_gt_cases len i) as [Hle|Hgt].
  - assert (0 <= Z.of_nat (Z.to_nat ((len - i + batchSize - 1) / batchSize)) * batchSize)
      by (apply Z.mul_nonneg_nonneg; lia).
    lia.
  - assert (0 <= (len - i + batchSize - 1) / batchSize) by (apply Z.div_pos; lia).
    rewrite Z2Nat.id by lia.
    pose proof (Z.mul_succ_div_gt (len - i + batchSize - 1) batchSize ltac:(lia)). lia.
Qed.

Lemma nth_starts (n : nat) : forall (i : Z) (k : nat),
  (k < n)%nat -> nth_error (starts n i) k = Some (i + Z.of_nat k * batchSize).
Proof.
  induction n as [|n IH]; intros i k Hk; [lia|].
  destruct k as [|k]; cbn [starts nth_error].
  - f_equal. lia.
  - rewrite IH by lia. f_equal. lia.
Qed.

Lemma length_starts (n : nat) (i : Z) : List.length (starts n i) = n.
Proof. revert i. induction n as [|n IH]; intros i; simpl; [reflexivity|now rewrite IH]. Qed.

Lemma count_from_start (k : nat) :
  1 <= batchSize -> (k < count_from 0)%nat ->
  Z.of_nat k * batchSize < len /\
  (len <= Z.of_nat k * batchSize + batchSize <-> S k = count_from 0).
Proof.
  intros HB Hk. pose proof (count_from_covers 0 HB) as Hcover.
  unfold count_from in *. rewrite Z.sub_0_r in *.
  set (n := (len + batchSize - 1) / batchSize) in *.
  assert (Hlen : 0 <= len) by (unfold length16; lia).
  assert (Hn : 0 <= n) by (apply Z.div_pos; lia).
  assert (Hlow : n * batchSize <= len + batchSize - 1).
  { rewrite Z.mul_comm. apply Z.mul_div_le. lia. }
  rewrite Z2Nat.id in Hcover by lia.
  assert (Hkn : Z.of_nat k + 1 <= n) by lia.
  split; [nia|]. split.
  - intros H. assert (n < Z.of_nat k + 2); [|lia].
    apply Z.div_lt_upper_bound; nia.
  - intros H. assert (n = Z.of_nat k + 1) by lia. nia.
Qed.

End Batching.

(** X18: for a batch size of 1 or more the splitting loop of
    [extractQADialogueInBatches] ends, and its batches are the content cut
    at the multiples of the batch size: put together again they are the
    content, nothing lost and nothing twice; there are
    ceil(length / batchSize) of them; the k-th starts at k * batchSize;
    none is empty or longer than the batch size; all but the last are
    full; and [isLast] marks the last one and no other. *)
Theorem batches_partition_the_content :
  forall (unit16 : Type) (htmlContent : list unit16) (batchSize : Z),
    1 <= batchSize ->
    exists batches : list (batch unit16),
      batches_from unit16 (S (List.length htmlContent)) htmlContent batchSize 0 = Some batches /\
      List.concat (List.map content batches) = htmlContent /\
      Z.of_nat (List.length batches)
      = (length16 unit16 htmlContent + batchSize - 1) / batchSize /\
      forall (k : nat) (b : batch unit16),
        nth_error batches k = Some b ->
        index b = Z.of_nat k * batchSize /\
        content b = firstn (Z.to_nat batchSize)
                           (skipn (Z.to_nat (Z.of_nat k * batchSize)) htmlContent) /\
        1 <= length16 unit16 (content b) <= batchSize /\
        (isLast b = true <-> S k = List.length batches) /\
        (isLast b = false -> length16 unit16 (content b) = batchSize).
Proof.
  intros unit16 htmlContent batchSize HB.
  set (len := length16 unit16 htmlContent).
  assert (Hlen : 0 <= len) by (unfold len, length16; lia).
  exists (List.map (batch_at unit16 htmlContent batchSize)
                   (starts batchSize (count_from unit16 htmlContent batchSize 0) 0)).
  split; [|split; [|split]].
  - apply batches_from_runs; [exact HB|lia|]. unfold length16. lia.
  - rewrite (concat_batches unit16 htmlContent batchSize _ 0 HB ltac:(lia)
               (count_from_covers unit16 htmlContent batchSize 0 HB)).
    reflexivity.
  - rewrite length_map, length_starts. unfold count_from. fold len. rewrite Z.sub_0_r.
    apply Z2Nat.id. apply Z.div_pos; lia.
  - intros k b Hb. rewrite length_map, length_starts.
    assert (Hk : (k < count_from unit16 htmlContent batchSize 0)%nat).
    { assert (Hs : nth_error (List.map (batch_at unit16 htmlContent batchSize)
                                       (starts batchSize
                                               (count_from unit16 htmlContent batchSize 0) 0)) k
                   <> None) by congruence.
      apply nth_error_Some in Hs. now rewrite length_map, length_starts in Hs. }
    rewrite nth_error_map, (nth_starts batchSize _ 0 k Hk) in Hb. simpl in Hb.
    injection Hb as <-.
    destruct (count_from_start unit16 htmlContent batchSize k HB Hk) as [Hlt Hlast].
    fold len in Hlt, Hlast.
    assert (Hcontent : length16 unit16
                         (firstn (Z.to_nat batchSize)
                                 (skipn (Z.to_nat (Z.of_nat k * batchSize)) htmlContent))
                       = Z.min batchSize (len - Z.of_nat k * batchSize)).
    { unfold length16. rewrite length_firstn, length_skipn. unfold len, length16 in *. lia. }
    unfold batch_at. cbn [index content isLast]. fold len. rewrite Hcontent.
    split; [reflexivity|]. split; [reflexivity|]. split; [lia|]. split; [split|].
    + intros H. apply Hlast. apply Z.leb_le in H. lia.
    + intros H. apply Z.leb_le. apply Hlast in H. lia.
    + intros H. apply Z.leb_gt in H. lia.
Qed.

Lemma batches_partition_the_content_witness :
  exists batches : list (batch nat),
    batches_from nat 8 [1; 2; 3; 4; 5; 6; 7]%nat 3 0 = Some batches /\
    List.map content batches = [[1; 2; 3]; [4; 5; 6]; [7]]%nat /\
    List.map isLast batches = [false; false; true].
Proof.
  destruct (batches_partition_the_content nat [1; 2; 3; 4; 5; 6; 7]%nat 3 ltac:(lia))
    as [batches [Hrun _]].
  exists batches. split; [exact Hrun|].
  vm_compute in Hrun. injection Hrun as <-. split; reflexivity.
Defined.

(** X19: with a negative batch size the splitting loop never ends on a
    content that is not empty: the index only moves down from 0, so it
    stays below the length, whatever number of turns is allowed. *)
Theorem negative_batch_size_never_ends :
  forall (unit16 : Type) (htmlContent : list unit16) (batchSize : Z) (fuel : nat),
    batchSize < 0 ->
    htmlContent <> [] ->
    batches_from unit16 fuel htmlContent batchSize 0 = None.
Proof.
  intros unit16 htmlContent batchSize fuel HB Hne.
  assert (Hlen : 0 < length16 unit16 htmlContent).
  { unfold length16. destruct htmlContent; [contradiction|simpl; lia]. }
  assert (H : forall i, i <= 0 -> batches_from unit16 fuel htmlContent batchSize i = None).
  { induction fuel as [|fuel IH]; intros i Hi; simpl;
      (destruct (Z.ltb_spec i (length16 unit16 htmlContent)); [|lia]); [reflexivity|].
    now rewrite IH by lia. }
  apply H. lia.
Qed.

Lemma negative_batch_size_never_ends_witness :
  batches_from nat 1000 [1; 2; 3]%nat (-1) 0 = None.
Proof.
  apply negative_batch_size_never_ends; [lia|discriminate].
Defined.

(** *** The batches, one by one *)

Section Extraction.

Variable unit16 : Type.
Variable timeout : Z.
Variable htmlMaxChars : Z.
Variable World : Type.
Variable answer : forall X : Type, request unit16 X -> World -> X * World.

Local Abbreviation run := (Dialogue.run unit16 World answer).

(** The requests made of the API in a run, with their answers. *)
Definition asked (tr : list (observed unit16)) : list (prompt unit16 * raced) :=
  flat_map (fun o => match o with
                     | OCreate _ p r => [(p, r)]
                     | _ => []
                     end) tr.

(** The prompts of the batches, numbered from [i + 1]. *)
Fixpoint prompts (count i : Z) (batches : list (batch unit16)) : list (prompt unit16) :=
  match batches with
  | [] => []
  | b :: rest => BatchPrompt unit16 (i + 1) count (content b) (isLast b)
                   :: prompts count (i + 1) rest
  end.


Definition number_of (p : prompt unit16) : Z :=
  match p with
  | BatchPrompt _ number _ _ _ => number
  | WholePrompt _ _ => 0
  end.

(** What the answer to the request of a batch leaves in [results]: the
    content of the answer, or the text that says the batch failed. *)
Definition result_of (a : prompt unit16 * raced) : batch_result :=
  let number := number_of (fst a) in
  let failed message :=
    {| batchIndex := number;
       result_content := batch_failed_content number message;
       tokenUsage := Tokens 0 |} in
  match snd a with
  | Responded r =>
      match valid_content r with
      | Some c => {| batchIndex := number; result_content := c; tokenUsage := usage_of r |}
      | None => failed (batch_invalid_message number)
      end
  | Rejected message => failed message
  | TimedOut => failed (batch_timeout_message timeout number)
  end.

(** What it adds to the total: the usage of a valid answer. *)
Definition total_after (total : tokens) (a : prompt unit16 * raced) : tokens :=
  match snd a with
  | Responded r =>
      match valid_content r with
      | Some _ => add_tokens total (usage_of r)
      | None => total
      end
  | _ => total
  end.

Lemma run_bind_dialogue {A B : Type} (p : prog unit16 A) (f : A -> prog unit16 B) (w : World) :
  run (bind unit16 p f) w =
  let '(tr1, o1, w1) := run p w in
  match o1 with
  | Script.Returned a =>
      let '(tr2, o2, w2) := run (f a) w1 in
      ((tr1 ++ tr2)%list, o2, w2)
  | Script.Thrown e => (tr1, Script.Thrown e, w1)
  end.
Proof.
  revert w. induction p as [a|e|X rq k IH]; intros w; simpl.
  - destruct (run (f a) w) as [[tr2 o2] w2]. reflexivity.
  - reflexivity.
  - destruct (answer X rq w) as [x w1]. rewrite IH.
    destruct (run (k x) w1) as [[tr1 o1] w1'].
    destruct o1 as [a|e]; [|reflexivity].
    destruct (run (f a) w1') as [[tr2 o2] w2]. reflexivity.
Qed.

(** The body of the loop for the batch [b], numbered [i + 1]. *)
Definition attempt_batch (count i : Z) (b : batch unit16)
           (results : list batch_result) (totalTokenUsage : tokens)
  : prog unit16 (list batch_result * tokens) :=
  try_catch unit16
    (bind unit16 (console unit16 (LogSending (i + 1))) (fun _ =>
     bind unit16 (completion unit16 (BatchPrompt unit16 (i + 1) count (content b) (isLast b))
                             (batch_timeout_message timeout (i + 1))
                             (batch_invalid_message (i + 1)))
          (fun answer =>
     let '(result, tokenUsage) := answer in
     let total := add_tokens totalTokenUsage tokenUsage in
     bind unit16 (console unit16 (LogDone (i + 1) tokenUsage)) (fun _ =>
     let results := (results ++ [{| batchIndex := i + 1;
                                    result_content := result;
                                    tokenUsage := tokenUsage |}])%list in
     bind unit16 (if i <? count - 1
                  then bind unit16 (console unit16 LogWaiting) (fun _ => wait unit16 1000)
                  else Ret unit16 tt)
          (fun _ => Ret unit16 (results, total))))))
    (fun message =>
       bind unit16 (console unit16 (LogBatchFailed (i + 1) message)) (fun _ =>
       Ret unit16 ((results ++ [{| batchIndex := i + 1;
                                   result_content := batch_failed_content (i + 1) message;
                                   tokenUsage := Tokens 0 |}])%list,
                   totalTokenUsage))).

Lemma process_batches_step count i b rest results total :
  process_batches unit16 timeout count i (b :: rest) results total
  = bind unit16 (console unit16 (LogBatch (i + 1) count (length16 unit16 (content b))))
         (fun _ =>
            bind unit16 (attempt_batch count i b results total)
                 (fun state =>
                    process_batches unit16 timeout count (i + 1) rest (fst state) (snd state))).
Proof. reflexivity. Qed.

(** One turn of the loop makes one request and, whatever the answer, ends
    with one more result. *)
Lemma run_attempt_batch count i b results total w :
  let p := BatchPrompt unit16 (i + 1) count (content b) (isLast b) in
  exists r,
    asked (fst (fst (run (attempt_batch count i b results total) w))) = [(p, r)] /\
    snd (fst (run (attempt_batch count i b results total) w))
    = Script.Returned (results ++ [result_of (p, r)], total_after total (p, r)).
Proof.
  intros p. unfold attempt_batch.
  cbn [bind try_catch console completion Dialogue.run].
  destruct (answer unit (Log unit16 _) w) as [[] w1]. cbn [bind try_catch Dialogue.run].
  destruct (answer raced (Create unit16 _) w1) as [r w2]. exists r.
  unfold result_of, total_after. cbn [fst snd number_of]. fold p.
  destruct r as [resp|message|]; cbn [bind try_catch Dialogue.run observe throw].
  - destruct (valid_content resp) as [c|] eqn:V; cbn [bind try_catch console throw Dialogue.run].
    + destruct (answer unit (Log unit16 _) w2) as [[] w3]. cbn [bind try_catch Dialogue.run].
      destruct (i <? count - 1); cbn [bind try_catch console wait Dialogue.run].
      * destruct (answer unit (Log unit16 _) w3) as [[] w4]. cbn [bind try_catch Dialogue.run].
        destruct (answer unit (Wait unit16 _) w4) as [[] w5]. simpl. auto.
      * simpl. auto.
    + destruct (answer unit (Log unit16 _) w2) as [[] w3]. simpl. auto.
  - destruct (answer unit (Log unit16 _) w2) as [[] w3]. simpl. auto.
  - destruct (answer unit (Log unit16 _) w2) as [[] w3]. simpl. auto.
Qed.

Lemma run_process_batches (count : Z) (batches : list (batch unit16)) :
  forall (i : Z) (results : list batch_result) (total : tokens) (w : World),
    let result := run (process_batches unit16 timeout count i batches results total) w in
    List.map fst (asked (fst (fst result))) = prompts count i batches /\
    snd (fst result)
    = Script.Returned (results ++ List.map result_of (asked (fst (fst result))),
                       fold_left total_after (asked (fst (fst result))) total).
Proof.
  induction batches as [|b rest IH]; intros i results total w.
  - simpl. now rewrite app_nil_r.
  - cbv zeta. rewrite process_batches_step, run_bind_dialogue.
    cbn [console Dialogue.run]. destruct (answer unit (Log unit16 _) w) as [[] w1].
    cbv iota beta. rewrite run_bind_dialogue.
    destruct (run_attempt_batch count i b results total w1) as [r [Hasked Hout]].
    destruct (run (attempt_batch count i b results total) w1) as [[tr1 o1] w2].
    cbn [fst snd] in Hasked, Hout. subst o1. cbv iota beta. cbn [fst snd].
    destruct (IH (i + 1) (results ++ [result_of (BatchPrompt unit16 (i + 1) count (content b)
                                                             (isLast b), r)])
                 (total_after total (BatchPrompt unit16 (i + 1) count (content b) (isLast b), r))
                 w2) as [Hp Ho].
    destruct (run (process_batches unit16 timeout count (i + 1) rest _ _) w2) as [[tr2 o2] w3].
    cbn [fst snd] in *. unfold asked in *. cbn [flat_map observe app].
    rewrite flat_map_app, Hasked. cbn [app List.map fst fold_left prompts].
    split; [now rewrite Hp|]. rewrite Ho, <- app_assoc. reflexivity.
Qed.

Definition blank_lines : string :=
  String (ascii_of_nat 10) (String (ascii_of_nat 10) EmptyString).

Lemma run_in_batches (htmlContent : list unit16) (batches : list (batch unit16)) (w : World) :
  batches_from unit16 (S (List.length htmlContent)) htmlContent htmlMaxChars 0 = Some batches ->
  let count := Z.of_nat (List.length batches) in
  let result := run (extractQADialogueInBatches unit16 timeout htmlMaxChars htmlContent) w in
  List.map fst (asked (fst (fst result))) = prompts count 0 batches /\
  snd (fst result)
  = Script.Returned
      {| extracted := String.concat blank_lines
                        (List.map (fun a => result_content (result_of a))
                                  (asked (fst (fst result))));
         used := fold_left total_after (asked (fst (fst result))) (Tokens 0);
         batchCount := Some count |}.
Proof.
  intros Hb count. unfold extractQADialogueInBatches. rewrite Hb. fold count.
  cbn [bind console Dialogue.run]. destruct (answer unit (Log unit16 _) w) as [[] w1].
  rewrite run_bind_dialogue.
  destruct (run_process_batches count batches 0 [] (Tokens 0) w1) as [Hp Ho].
  destruct (run (process_batches unit16 timeout count 0 batches [] (Tokens 0)) w1)
    as [[tr o] w2].
  cbn [fst snd] in Hp, Ho. subst o. cbv iota beta.
  cbn [bind console Dialogue.run fst snd]. destruct (answer unit (Log unit16 _) w2) as [[] w3].
  cbn [fst snd observe]. unfold asked in *. cbn [flat_map app].
  rewrite flat_map_app. cbn [flat_map]. rewrite app_nil_r.
  split; [exact Hp|]. now rewrite List.map_map.
Qed.

End Extraction.

(** X20: with a batch size of 1 or more, [extractQADialogueInBatches] never
    throws.  It makes one request for each batch, in the order of the
    batches, whatever the answers; a batch whose request is rejected,
    times out or comes back without content leaves a result that says so
    and adds nothing to the token total, and the next batch is processed.
    The content returned is the results joined by blank lines, and
    [batchCount] is the number of batches. *)
Theorem batch_failures_are_contained :
  forall (unit16 : Type) (timeout htmlMaxChars : Z) (World : Type)
         (answer : forall X : Type, request unit16 X -> World -> X * World)
         (htmlContent : list unit16) (w : World),
    1 <= htmlMaxChars ->
    let result := Dialogue.run unit16 World answer
                    (extractQADialogueInBatches unit16 timeout htmlMaxChars htmlContent) w in
    exists batches : list (batch unit16),
      batches_from unit16 (S (List.length htmlContent)) htmlContent htmlMaxChars 0
      = Some batches /\
      List.map fst (asked unit16 (fst (fst result)))
      = prompts unit16 (Z.of_nat (List.length batches)) 0 batches /\
      snd (fst result)
      = Script.Returned
          {| extracted := String.concat blank_lines
                            (List.map (fun a => result_content (result_of unit16 timeout a))
                                      (asked unit16 (fst (fst result))));
             used := fold_left (total_after unit16) (asked unit16 (fst (fst result))) (Tokens 0);
             batchCount := Some (Z.of_nat (List.length batches)) |}.
Proof.
  intros unit16 timeout htmlMaxChars World answer htmlContent w HB result.
  eexists. split.
  - apply batches_from_runs; [exact HB|lia|unfold length16; lia].
  - apply run_in_batches. apply batches_from_runs; [exact HB|lia|unfold length16; lia].
Qed.

(** Answers for two batches: the first request times out, the second is
    answered. *)
Definition scripted_api (unit16 : Type) (X : Type) (rq : request unit16 X) (w : list raced)
  : X * list raced :=
  match rq in request _ X return X * list raced with
  | Create _ _ =>
      match w with
      | r :: w' => (r, w')
      | [] => (TimedOut, [])
      end
  | Wait _ _ => (tt, w)
  | Log _ _ => (tt, w)
  end.

Lemma batch_failures_are_contained_witness :
  let result := Dialogue.run nat (list raced) (scripted_api nat)
                  (extractQADialogueInBatches nat 30000 2 [1; 2; 3]%nat)
                  [TimedOut; Responded {| first_content := Some "Q and A";
                                          total_tokens := Some 12 |}] in
  snd (fst result)
  = Script.Returned {| extracted := "错误: 批次 1 处理失败 - 批次 1 请求超时 (30000ms)"
                                    ++ blank_lines ++ "Q and A";
                       used := Tokens 12;
                       batchCount := Some 2 |}.
Proof.
  intros result.
  destruct (batch_failures_are_contained nat 30000 2 (list raced) (scripted_api nat)
              [1; 2; 3]%nat
              [TimedOut; Responded {| first_content := Some "Q and A";
                                      total_tokens := Some 12 |}] ltac:(lia))
    as [batches [Hb [_ Ho]]].
  fold result in Ho. rewrite Ho. vm_compute in Hb. injection Hb as <-. reflexivity.
Defined.



End DialogueFacts.
